(** * NavierStokes3D: a shallow embedding of the time-stepping engine

    The development follows [src/Navier-Stokes/src/NavierStokes3D.cpp]:
    [setup] (coupling table), [assemble], [assemble_time_step],
    [solve_time_step], [solve], [compute_forces] and
    [compute_pressure_difference].

    Modelling conventions.
    - A C++ [double] is an exact rational ([Qc]); decimal literals of the
      source ([0.5], [1e-4], [0.1], ...) are the rationals they spell, and
      rounding is outside the model.  The one exception is the local
      [double time] of [solve]: the lines a run writes depend on tests
      that rounding decides ([time == T - deltat], [time > 0.1], the loop
      test), and for them the clock is also modelled as the binary64
      value the program holds (part: the clock of [solve] as a double).
    - Distributed matrices and vectors are read through their global
      entries: a matrix is a function of a row and a column index, a
      vector a function of an index.  A collective [compress(add)] is the
      sum of what every rank assembled on the cells it owns.
    - The finite-element library hands the engine, for every cell, the
      values and gradients of the shape functions at the quadrature
      points; they are the data of a [Cell].
    - [pcout] is a chronological list of messages. *)

From Stdlib Require Import QArith Qcanon List Lia.
From Stdlib Require PrimFloat SpecFloat FloatOps.
From stdpp Require Import base numbers list gmap.

Local Open Scope Qc_scope.

(** Rational arithmetic is kept folded by [simpl]. *)
Arguments Q2Qc : simpl never.
Arguments Qcplus : simpl never.
Arguments Qcmult : simpl never.
Arguments Qcopp : simpl never.
Arguments Qcminus : simpl never.
Arguments Qcinv : simpl never.
Arguments Qcdiv : simpl never.
Arguments Qclt : simpl never.
Arguments Qcle : simpl never.

(** Decimal literal [n/d]. *)
Definition qc (n : Z) (d : positive) : Qc := Q2Qc (n # d).
Arguments qc : simpl never.

Definition Qcabs (x : Qc) : Qc := if decide (x < 0) then - x else x.
Definition Qcmax (a b : Qc) : Qc := if decide (a < b) then b else a.
Definition Qcmin (a b : Qc) : Qc := if decide (b < a) then b else a.

(** [for (k = 0; k < n; ++k) acc += f k], starting from zero. *)
Fixpoint sum_upto (n : nat) (f : nat -> Qc) : Qc :=
  match n with
  | O => 0
  | S k => sum_upto k f + f k
  end.

(** * Tensors of rank one and two in dimension three *)
Module Tensor.

Record Tensor1 := mkTensor1 { t_x : Qc; t_y : Qc; t_z : Qc }.
Record Tensor2 := mkTensor2 { row_x : Tensor1; row_y : Tensor1; row_z : Tensor1 }.

Definition zero1 : Tensor1 := mkTensor1 0 0 0.
Definition zero2 : Tensor2 := mkTensor2 zero1 zero1 zero1.

Definition add1 (a b : Tensor1) : Tensor1 :=
  mkTensor1 (t_x a + t_x b) (t_y a + t_y b) (t_z a + t_z b).
Definition scale1 (s : Qc) (a : Tensor1) : Tensor1 :=
  mkTensor1 (s * t_x a) (s * t_y a) (s * t_z a).
Definition sub1 (a b : Tensor1) : Tensor1 :=
  mkTensor1 (t_x a - t_x b) (t_y a - t_y b) (t_z a - t_z b).
Definition div1 (a : Tensor1) (s : Qc) : Tensor1 :=
  mkTensor1 (t_x a / s) (t_y a / s) (t_z a / s).
Definition opp1 (a : Tensor1) : Tensor1 :=
  mkTensor1 (- t_x a) (- t_y a) (- t_z a).
Definition add2 (a b : Tensor2) : Tensor2 :=
  mkTensor2 (add1 (row_x a) (row_x b)) (add1 (row_y a) (row_y b))
            (add1 (row_z a) (row_z b)).
Definition scale2 (s : Qc) (a : Tensor2) : Tensor2 :=
  mkTensor2 (scale1 s (row_x a)) (scale1 s (row_y a)) (scale1 s (row_z a)).

(** [a * b] on two rank-one tensors, and [scalar_product(a, b)]. *)
Definition dot (a b : Tensor1) : Qc :=
  t_x a * t_x b + t_y a * t_y b + t_z a * t_z b.

(** [scalar_product(A, B)] on rank-two tensors: the double contraction. *)
Definition scalar_product2 (A B : Tensor2) : Qc :=
  dot (row_x A) (row_x B) + dot (row_y A) (row_y B) + dot (row_z A) (row_z B).

(** [A * v]: contraction of the last index of [A] with [v]. *)
Definition mul21 (A : Tensor2) (v : Tensor1) : Tensor1 :=
  mkTensor1 (dot (row_x A) v) (dot (row_y A) v) (dot (row_z A) v).

(** [v * A]: contraction of [v] with the first index of [A]. *)
Definition mul12 (v : Tensor1) (A : Tensor2) : Tensor1 :=
  add1 (add1 (scale1 (t_x v) (row_x A)) (scale1 (t_y v) (row_y A)))
       (scale1 (t_z v) (row_z A)).

Definition norm_square (v : Tensor1) : Qc := dot v v.
Definition trace (A : Tensor2) : Qc :=
  t_x (row_x A) + t_y (row_y A) + t_z (row_z A).

(** The vector whose only non-zero coordinate, [c], is [a]. *)
Definition unit1 (c : nat) (a : Qc) : Tensor1 :=
  mkTensor1 (if decide (c = 0%nat) then a else 0)
            (if decide (c = 1%nat) then a else 0)
            (if decide (c = 2%nat) then a else 0).

(** The rank-two tensor whose only non-zero row, [c], is [g]. *)
Definition unit_row (c : nat) (g : Tensor1) : Tensor2 :=
  mkTensor2 (if decide (c = 0%nat) then g else zero1)
            (if decide (c = 1%nat) then g else zero1)
            (if decide (c = 2%nat) then g else zero1).

(** Sum of [f 0 .. f (n-1)], accumulated in that order. *)
Fixpoint sum1 (n : nat) (f : nat -> Tensor1) : Tensor1 :=
  match n with
  | O => zero1
  | S k => add1 (sum1 k f) (f k)
  end.

Fixpoint sum2 (n : nat) (f : nat -> Tensor2) : Tensor2 :=
  match n with
  | O => zero2
  | S k => add2 (sum2 k f) (f k)
  end.

End Tensor.
Import Tensor.

Definition dim : nat := 3.
Definition Point : Type := Tensor1.
Definition Vector : Type := nat -> Qc.
Definition Matrix : Type := nat -> nat -> Qc.

(** * Finite-element data *)

(** One shape function of [FESystem(FE_SimplexP(degree_velocity), dim,
    FE_SimplexP(degree_pressure), 1)]: a scalar shape function placed in
    one component of the system (0, 1, 2: velocity; [dim]: pressure),
    with its value and gradient at each quadrature point. *)
Record ShapeFunction := mkShape {
  component : nat;
  shape_value : nat -> Qc;
  shape_grad : nat -> Tensor1
}.

(** [fe_values[velocity].value(i, q)] *)
Definition velocity_value (s : ShapeFunction) (q : nat) : Tensor1 :=
  unit1 (component s) (shape_value s q).
(** [fe_values[velocity].gradient(i, q)] *)
Definition velocity_gradient (s : ShapeFunction) (q : nat) : Tensor2 :=
  unit_row (component s) (shape_grad s q).
(** [fe_values[velocity].divergence(i, q)] *)
Definition velocity_divergence (s : ShapeFunction) (q : nat) : Qc :=
  trace (velocity_gradient s q).
(** [fe_values[pressure].value(i, q)] *)
Definition pressure_value (s : ShapeFunction) (q : nat) : Qc :=
  if decide (component s = dim) then shape_value s q else 0.

(** What [FEValues::reinit(cell)] or [FEFaceValues::reinit(cell, f)]
    makes available. *)
Record FEValues := mkFEValues {
  shape : nat -> ShapeFunction;
  JxW : nat -> Qc;
  quadrature_point : nat -> Point;
  normal_vector : nat -> Tensor1
}.

Record Face := mkFace {
  face_at_boundary : bool;
  boundary_id : nat;
  fe_face_values : FEValues
}.

Record Cell := mkCell {
  subdomain_id : nat;
  fe_values : FEValues;
  dof_indices : nat -> nat;
  faces : list Face
}.

(** A degree of freedom located on the boundary, as
    [VectorTools::interpolate_boundary_values] visits it. *)
Record BoundaryDof := mkBoundaryDof {
  bd_index : nat;
  bd_component : nat;
  bd_boundary_id : nat;
  bd_point : Point
}.

(** The mesh, the DoF handler and the quadratures after [setup]:
    velocity DoFs are numbered [0 .. n_u - 1], pressure DoFs
    [n_u .. n_u + n_p - 1] ([DoFRenumbering::component_wise]). *)
Record Discretisation := mkDiscretisation {
  cells : list Cell;
  dofs_per_cell : nat;
  n_q : nat;
  n_q_boundary : nat;
  n_u : nat;
  n_p : nat;
  boundary_dofs : list BoundaryDof;
  mpi_size : nat
}.

Definition is_locally_owned (rank : nat) (c : Cell) : bool :=
  bool_decide (subdomain_id c = rank).
Definition at_boundary (c : Cell) : bool := existsb face_at_boundary (faces c).

(** [fe_values[velocity].get_function_values(u, out)], entry [q]. *)
Definition get_function_values (n : nat) (fe : FEValues) (idx : nat -> nat)
    (u : Vector) (q : nat) : Tensor1 :=
  sum1 n (fun i => scale1 (u (idx i)) (velocity_value (shape fe i) q)).
(** [fe_values[velocity].get_function_gradients(u, out)], entry [q]. *)
Definition get_function_gradients (n : nat) (fe : FEValues) (idx : nat -> nat)
    (u : Vector) (q : nat) : Tensor2 :=
  sum2 n (fun i => scale2 (u (idx i)) (velocity_gradient (shape fe i) q)).
(** [fe_values[velocity].get_function_divergences(u, out)], entry [q]. *)
Definition get_function_divergences (n : nat) (fe : FEValues) (idx : nat -> nat)
    (u : Vector) (q : nat) : Qc :=
  sum_upto n (fun i => u (idx i) * velocity_divergence (shape fe i) q).
(** [fe_face_values[pressure].get_function_values(u, out)], entry [q]. *)
Definition get_pressure_values (n : nat) (fe : FEValues) (idx : nat -> nat)
    (u : Vector) (q : nat) : Qc :=
  sum_upto n (fun i => u (idx i) * pressure_value (shape fe i) q).

(** * Distributed linear algebra *)

Definition mat_zero : Matrix := fun _ _ => 0.
Definition vec_zero : Vector := fun _ => 0.

(** [A.add(a, B)] *)
Definition mat_add (A : Matrix) (a : Qc) (B : Matrix) : Matrix :=
  fun I J => A I J + a * B I J.

(** [A.add(dof_indices, cell_matrix)] on a zero matrix: what one cell
    scatters to the global entry [(I, J)]. *)
Definition scatter_matrix (n : nat) (idx : nat -> nat)
    (local : nat -> nat -> Qc) : Matrix :=
  fun I J =>
    sum_upto n (fun i => sum_upto n (fun j =>
      if decide (idx i = I /\ idx j = J) then local i j else 0)).

(** [v.add(dof_indices, cell_rhs)] on a zero vector. *)
Definition scatter_vector (n : nat) (idx : nat -> nat)
    (local : nat -> Qc) : Vector :=
  fun I => sum_upto n (fun i => if decide (idx i = I) then local i else 0).

(** The parameters of the problem class that the header declares:
    physical constants, time discretisation and the data functions. *)
Definition Function : Type := Point -> nat -> Qc.

Record Problem := mkProblem {
  nu : Qc;
  rho : Qc;
  deltat : Qc;
  T : Qc;
  (** [inlet_velocity] after [set_time(t)] *)
  inlet_velocity : Qc -> Function;
  (** [inlet_velocity.getMeanVelocity()] after [set_time(t)] *)
  getMeanVelocity : Qc -> Qc;
  (** [VectorTools::interpolate(dof_handler, u_0, .)] *)
  u_0 : Vector;
  (** the Neumann datum *)
  function_h : Function
}.

(** The lines written to [pcout]; wall-clock times are not recorded. *)
Inductive Message :=
| Separator
| AssemblingTheSystem
| ReinitializeMassMatrixForBDF2
| TimeToInitializePreconditioner
| TimeToSolve
| ResultGMRESIterations (last_step : N)
| OutputWritten (time_step : nat)
| ApplyingTheInitialCondition
| StepHeader (time_step : nat) (time : Qc)
| ComputingForces
| DragLift (drag lift : Qc)
| Coeff (c_d c_l : Qc)
| PressureDifference (p_diff : Qc)
| DragCoefficientMax (c_D_max : Qc)
| LiftCoefficientMin (c_L_min : Qc).

(** The members of the class that the time loop reads and writes. *)
Record NavierStokes := mkNavierStokes {
  system_matrix : Matrix;
  mass_matrix : Matrix;
  convection_matrix : Matrix;
  stiffness_matrix : Matrix;
  pressure_mass : Matrix;
  system_rhs : Vector;
  solution_owned : Vector;
  solution : Vector;
  previous_solution : Vector;
  (** the time last given to [inlet_velocity.set_time] *)
  inlet_time : Qc;
  pcout : list Message
}.

(** ** [setup]: the coupling tables of the two sparsity patterns *)

Inductive Coupling := always | none.

(** Lines 109-119: the table of the system matrix. *)
Definition coupling (c d : nat) : Coupling :=
  if decide (c = dim /\ d = dim) then none else always.

(** Lines 127-136: the table of the pressure mass matrix. *)
Definition coupling_pressure_mass (c d : nat) : Coupling :=
  if decide (c = dim /\ d = dim) then always else none.

Definition is_always (k : Coupling) : bool :=
  match k with always => true | none => false end.

(** ** The Krylov solver and the point evaluation of the library *)

(** The preconditioners of the header, each holding the blocks it was
    initialised with. *)
Inductive Preconditioner :=
| PreconditionYosida (F B Bt M_u : Matrix) (vec : Vector)
| PreconditionSIMPLE (F B Bt : Matrix) (vec : Vector)
| PreconditionaYosida (F B Bt M_u : Matrix) (vec : Vector)
| PreconditionaSIMPLE (F B Bt : Matrix) (vec : Vector).

(** What the engine does not compute itself:
    - [krylov A x0 b P k] is the iterate of the preconditioned GMRES
      method after [k] iterations and the residual norm it reports;
    - [point_value rank u p] is [VectorTools::point_value] on one rank,
      [None] standing for [ExcPointNotAvailableHere]. *)
Record Library := mkLibrary {
  krylov : Matrix -> Vector -> Vector -> Preconditioner -> N -> Vector * Qc;
  point_value : nat -> Vector -> Point -> option (nat -> Qc)
}.

(** [SolverControl solver_control(maxiter, tol, true)], lines 550-552. *)
Definition maxiter : N := 100000.
Definition tol : Qc := qc 1 10000.

Inductive SolverControlState := iterate | success | failure.

(** Modelled from the spec: [SolverControl::check(step, check_value)] of
    the library, the convergence criterion of section 4.4: success when
    the residual norm is within the tolerance, failure when the
    iteration cap is reached. *)
Definition check (step : N) (check_value : Qc) : SolverControlState :=
  if decide (check_value <= tol) then success
  else if decide (maxiter <= step)%N then failure
  else iterate.

(** The result of [SolverGMRES::solve], a routine of the library: it
    returns when the control reports success and raises
    [SolverControl::NoConvergence] when the control reports failure. *)
Inductive SolverResult :=
| Converged (last_step : N) (x : Vector)
| NoConvergence (last_step : N) (last_residual : Qc) (x : Vector).

(** Modelled from the spec: the Krylov iteration of the library under a
    [SolverControl]; [method k] is the iterate after [k] iterations and
    its residual norm.  The control is consulted first on the initial
    residual, then after every iteration. *)
Fixpoint gmres_loop (method : N -> Vector * Qc) (fuel : nat) (step : N)
    : SolverResult :=
  match check step (snd (method step)) with
  | success => Converged step (fst (method step))
  | failure => NoConvergence step (snd (method step)) (fst (method step))
  | iterate =>
      match fuel with
      | O => NoConvergence step (snd (method step)) (fst (method step))
      | S fuel' => gmres_loop method fuel' (step + 1)%N
      end
  end.

Inductive Exception :=
| ExcNoConvergence (last_step : N) (last_residual : Qc)
| ExcInvalidPreconditionerType.

(** How a call ends: it returns, it leaves through an exception that
    nothing catches, it divides by zero (the value leaves the rationals
    and the model stops), or the fuel of a loop ran out. *)
Inductive Outcome (A : Type) : Type :=
| Returned (a : A)
| Thrown (e : Exception) (st : NavierStokes)
| DivisionByZero (st : NavierStokes)
| OutOfFuel.
Arguments Returned {A} a.
Arguments Thrown {A} e st.
Arguments DivisionByZero {A} st.
Arguments OutOfFuel {A}.

Definition checked_div (a b : Qc) : option Qc :=
  if decide (b = 0) then None else Some (a / b).
Definition checked_div1 (v : Tensor1) (s : Qc) : option Tensor1 :=
  if decide (s = 0) then None else Some (div1 v s).

(** The state of the time loop of [solve]. *)
Record TimeLoop := mkTimeLoop {
  ns : NavierStokes;
  c_D_max : Qc;
  c_L_min : Qc;
  time_step : nat;
  time : Qc
}.

Section Engine.

Context (mesh : Discretisation) (pb : Problem) (lib : Library).

(** [DoFTools::make_sparsity_pattern(dof_handler, table, sparsity)]:
    [(I, J)] is an entry when some cell carries both DoFs and the table
    couples their components. *)
Definition make_sparsity_pattern (table : nat -> nat -> Coupling)
    (I J : nat) : bool :=
  existsb (fun c =>
    existsb (fun i =>
      existsb (fun j =>
        bool_decide (dof_indices c i = I /\ dof_indices c j = J)
        && is_always (table (component (shape (fe_values c) i))
                            (component (shape (fe_values c) j))))
        (seq 0 (dofs_per_cell mesh)))
      (seq 0 (dofs_per_cell mesh)))
    (cells mesh).

(** The cell loop of one rank, [if (!cell->is_locally_owned()) continue;],
    read at the global entry [(I, J)]. *)
Definition local_matrix (rank : nat) (local : Cell -> nat -> nat -> Qc)
    : Matrix :=
  fun I J =>
    fold_left (fun acc c =>
      if is_locally_owned rank c
      then acc + scatter_matrix (dofs_per_cell mesh) (dof_indices c) (local c) I J
      else acc) (cells mesh) 0.

Definition local_vector (rank : nat) (local : Cell -> nat -> Qc) : Vector :=
  fun I =>
    fold_left (fun acc c =>
      if is_locally_owned rank c
      then acc + scatter_vector (dofs_per_cell mesh) (dof_indices c) (local c) I
      else acc) (cells mesh) 0.

(** [compress(VectorOperation::add)]: the contributions of all ranks. *)
Definition assemble_matrix (local : Cell -> nat -> nat -> Qc) : Matrix :=
  fun I J => sum_upto (mpi_size mesh) (fun r => local_matrix r local I J).

Definition assemble_vector (local : Cell -> nat -> Qc) : Vector :=
  fun I => sum_upto (mpi_size mesh) (fun r => local_vector r local I).

(** ** Dirichlet data *)

(** [ComponentMask({true, true, true, false})] *)
Definition component_mask (c : nat) : bool :=
  match c with
  | O | S O | S (S O) => true
  | _ => false
  end.

Definition zero_function : Function := fun _ _ => 0.

(** Modelled from the spec: [VectorTools::interpolate_boundary_values
    (dof_handler, boundary_functions, boundary_values, mask)], the
    boundary-value routine of the library (section 6).  Every boundary
    DoF whose region has a function and whose component is selected
    receives the function's value; an entry already present is
    overwritten. *)
Definition interpolate_boundary_values
    (boundary_functions : gmap nat Function) (boundary_values : gmap nat Qc)
    (mask : nat -> bool) : gmap nat Qc :=
  fold_left (fun bv d =>
    match boundary_functions !! bd_boundary_id d with
    | Some f =>
        if mask (bd_component d)
        then <[bd_index d := f (bd_point d) (bd_component d)]> bv
        else bv
    | None => bv
    end) (boundary_dofs mesh) boundary_values.

(** Lines 328-351 and 516-539: inlet first, then walls and obstacle. *)
Definition dirichlet_values (time : Qc) : gmap nat Qc :=
  let boundary_values : gmap nat Qc := ∅ in
  let boundary_functions : gmap nat Function :=
    <[0%nat := inlet_velocity pb time]> ∅ in
  let boundary_values :=
    interpolate_boundary_values boundary_functions boundary_values
      component_mask in
  let boundary_functions : gmap nat Function := ∅ in
  let boundary_functions :=
    <[3%nat := zero_function]> (<[2%nat := zero_function]> boundary_functions) in
  interpolate_boundary_values boundary_functions boundary_values
    component_mask.

(** ** [MatrixTools::apply_boundary_values]

    A routine of the finite-element library, not of the engine's source:
    the definitions below follow the row elimination that section 4.1 of
    the specification describes, with the call sites' argument
    [eliminate_columns = false] (lines 353 and 541). *)

(** Modelled from the spec: the "representative value" that
    [MatrixTools::apply_boundary_values] writes on the diagonal of a
    constrained row; the library takes the magnitude of the first
    non-zero diagonal entry of the diagonal block, 1 when there is
    none. *)
Fixpoint first_nonzero_diagonal (A : Matrix) (first count : nat) : option Qc :=
  match count with
  | O => None
  | S k =>
      if decide (A first first = 0)
      then first_nonzero_diagonal A (S first) k
      else Some (A first first)
  end.

Definition average_nonzero_diagonal_entry (A : Matrix) (first count : nat) : Qc :=
  match first_nonzero_diagonal A first count with
  | Some a => Qcabs a
  | None => 1
  end.

(** The representative diagonal value of the block row [I] lies in. *)
Definition block_diagonal_entry (A : Matrix) (I : nat) : Qc :=
  if decide (I < n_u mesh)%nat
  then average_nonzero_diagonal_entry A 0 (n_u mesh)
  else average_nonzero_diagonal_entry A (n_u mesh) (n_p mesh).

Record LinearSystem := mkLinearSystem {
  ls_matrix : Matrix;
  ls_solution : Vector;
  ls_rhs : Vector
}.

(** Modelled from the spec: [MatrixTools::apply_boundary_values], a
    routine of the library that is missing from the source files.  For
    every constrained DoF the row is cleared, the diagonal is set to the
    representative value, the solution entry to the prescribed value and
    the right-hand side entry to that value times the diagonal; no
    column is touched. *)
Definition apply_boundary_values (boundary_values : gmap nat Qc)
    (s : LinearSystem) : LinearSystem :=
  let A := ls_matrix s in
  {| ls_matrix := fun I J =>
       match boundary_values !! I with
       | Some _ => if decide (I = J) then block_diagonal_entry A I else 0
       | None => A I J
       end;
     ls_solution := fun I =>
       match boundary_values !! I with
       | Some v => v
       | None => ls_solution s I
       end;
     ls_rhs := fun I =>
       match boundary_values !! I with
       | Some v => v * block_diagonal_entry A I
       | None => ls_rhs s I
       end |}.

(** ** Cell contributions, lines 230-272 and 442-463 *)

Definition phi_u (c : Cell) (i q : nat) : Tensor1 :=
  velocity_value (shape (fe_values c) i) q.
Definition grad_phi_u (c : Cell) (i q : nat) : Tensor2 :=
  velocity_gradient (shape (fe_values c) i) q.
Definition div_phi_u (c : Cell) (i q : nat) : Qc :=
  velocity_divergence (shape (fe_values c) i) q.
Definition phi_p (c : Cell) (i q : nat) : Qc :=
  pressure_value (shape (fe_values c) i) q.

Definition current_velocity_values (c : Cell) (u : Vector) (q : nat) : Tensor1 :=
  get_function_values (dofs_per_cell mesh) (fe_values c) (dof_indices c) u q.
Definition current_velocity_divergence (c : Cell) (u : Vector) (q : nat) : Qc :=
  get_function_divergences (dofs_per_cell mesh) (fe_values c) (dof_indices c) u q.

(** Viscosity term, line 246. *)
Definition cell_stiffness_matrix (c : Cell) (i j : nat) : Qc :=
  sum_upto (n_q mesh) (fun q =>
    nu pb * scalar_product2 (grad_phi_u c i q) (grad_phi_u c j q)
    * JxW (fe_values c) q).

(** Time derivative discretisation of [assemble], line 249. *)
Definition cell_mass_matrix (c : Cell) (i j : nat) : Qc :=
  sum_upto (n_q mesh) (fun q =>
    dot (phi_u c i q) (phi_u c j q) / deltat pb * JxW (fe_values c) q).

(** The linearised convective term, lines 252 and 456. *)
Definition convective_term (c : Cell) (u : Vector) (i j q : nat) : Qc :=
  dot (mul21 (grad_phi_u c j q) (current_velocity_values c u q)) (phi_u c i q)
  * JxW (fe_values c) q.

(** The Temam stabilisation term, line 255. *)
Definition temam_term (c : Cell) (u : Vector) (i j q : nat) : Qc :=
  qc 1 2 * current_velocity_divergence c u q
  * dot (phi_u c i q) (phi_u c j q) * JxW (fe_values c) q.

(** [cell_convection_matrix] of [assemble], lines 252-255. *)
Definition cell_convection_matrix (u : Vector) (c : Cell) (i j : nat) : Qc :=
  sum_upto (n_q mesh) (fun q =>
    convective_term c u i j q + temam_term c u i j q).

(** The pressure terms of the momentum and continuity equations,
    lines 258-261: what [assemble] accumulates in [cell_matrix]. *)
Definition cell_matrix (c : Cell) (i j : nat) : Qc :=
  sum_upto (n_q mesh) (fun q =>
    - (phi_p c j q * div_phi_u c i q * JxW (fe_values c) q)
    + phi_p c i q * div_phi_u c j q * JxW (fe_values c) q).

(** Pressure mass matrix, line 264. *)
Definition cell_pressure_mass_matrix (c : Cell) (i j : nat) : Qc :=
  sum_upto (n_q mesh) (fun q =>
    phi_p c i q * phi_p c j q / nu pb * JxW (fe_values c) q).

(** The time-derivative term of the right-hand side, lines 269 and 459. *)
Definition rhs_term (c : Cell) (u : Vector) (i q : nat) : Qc :=
  dot (current_velocity_values c u q) (phi_u c i q)
  * JxW (fe_values c) q / deltat pb.

(** The guard [cell->face(f)->at_boundary() && (false)] of lines 280-281
    and 471-472. *)
Definition boundary_term_enabled (f : Face) : bool :=
  face_at_boundary f && false.

(** The Neumann boundary integral of one face, lines 283-299. *)
Definition neumann_term (c : Cell) (f : Face) (i : nat) : Qc :=
  sum_upto (n_q_boundary mesh) (fun q =>
    let neumann_loc_tensor :=
      mkTensor1 (function_h pb (quadrature_point (fe_face_values f) q) 0%nat)
                (function_h pb (quadrature_point (fe_face_values f) q) 1%nat)
                (function_h pb (quadrature_point (fe_face_values f) q) 2%nat) in
    dot neumann_loc_tensor (velocity_value (shape (fe_face_values f) i) q)
    * JxW (fe_face_values f) q).

(** [cell_rhs] of [assemble], lines 269-302.  The forcing term is
    evaluated by the source (lines 233-238) but enters no expression. *)
Definition cell_rhs (u : Vector) (c : Cell) (i : nat) : Qc :=
  let interior := sum_upto (n_q mesh) (fun q => rhs_term c u i q) in
  if at_boundary c
  then fold_left (fun acc f =>
         if boundary_term_enabled f then acc + neumann_term c f i else acc)
         (faces c) interior
  else interior.

(** The increment of the mass matrix inside [if (time == -1)],
    lines 449-454. *)
Definition cell_mass_matrix_bdf2 (c : Cell) (i j : nat) : Qc :=
  sum_upto (n_q mesh) (fun q =>
    dot (scale1 (qc 1 2) (phi_u c i q)) (phi_u c j q) / deltat pb
    * JxW (fe_values c) q).

(** The backflow stabilisation of one face, lines 474-489. *)
Definition backflow_term (c : Cell) (f : Face) (u u_prev : Vector)
    (i j : nat) : Qc :=
  sum_upto (n_q_boundary mesh) (fun q =>
    let boundary_velocity_values :=
      get_function_values (dofs_per_cell mesh) (fe_face_values f)
        (dof_indices c) u q in
    let prev_boundary_velocity_values :=
      get_function_values (dofs_per_cell mesh) (fe_face_values f)
        (dof_indices c) u_prev q in
    qc 3 2
    * Qcmin (dot (sub1 (scale1 2 boundary_velocity_values)
                       prev_boundary_velocity_values)
                 (normal_vector (fe_face_values f) q)) 0
    * dot (velocity_value (shape (fe_face_values f) j) q)
          (velocity_value (shape (fe_face_values f) i) q)
    * JxW (fe_face_values f) q).

(** [cell_convection_matrix] of [assemble_time_step], lines 456-492.
    The previous solution and the divergence of the current one are
    fetched (lines 432-440); only the backflow term, which is switched
    off, reads the former, and nothing reads the latter. *)
Definition cell_convection_matrix_time_step (u u_prev : Vector) (c : Cell)
    (i j : nat) : Qc :=
  let interior := sum_upto (n_q mesh) (fun q => convective_term c u i j q) in
  if at_boundary c
  then fold_left (fun acc f =>
         if boundary_term_enabled f
         then acc - backflow_term c f u u_prev i j
         else acc)
         (faces c) interior
  else interior.

(** [cell_rhs] of [assemble_time_step], line 459. *)
Definition cell_rhs_time_step (u : Vector) (c : Cell) (i : nat) : Qc :=
  sum_upto (n_q mesh) (fun q => rhs_term c u i q).

(** ** [assemble], lines 163-356 *)
Definition assemble (time : Qc) (st : NavierStokes) : NavierStokes :=
  let u := solution st in
  (* the cell loop and the compress calls, starting from zero *)
  let system_matrix0 := assemble_matrix cell_matrix in
  let mass_matrix' := assemble_matrix cell_mass_matrix in
  let convection_matrix' := assemble_matrix (cell_convection_matrix u) in
  let stiffness_matrix' := assemble_matrix cell_stiffness_matrix in
  let system_rhs0 := assemble_vector (cell_rhs u) in
  let pressure_mass' := assemble_matrix cell_pressure_mass_matrix in
  (* F = M + A + C(u_n) + B *)
  let system_matrix1 := mat_add system_matrix0 1 mass_matrix' in
  let system_matrix2 := mat_add system_matrix1 1 convection_matrix' in
  let system_matrix3 := mat_add system_matrix2 1 stiffness_matrix' in
  (* Dirichlet boundary conditions *)
  let bc := apply_boundary_values (dirichlet_values time)
              (mkLinearSystem system_matrix3 (solution st) system_rhs0) in
  {| system_matrix := ls_matrix bc;
     mass_matrix := mass_matrix';
     convection_matrix := convection_matrix';
     stiffness_matrix := stiffness_matrix';
     pressure_mass := pressure_mass';
     system_rhs := ls_rhs bc;
     solution_owned := solution_owned st;
     solution := ls_solution bc;
     previous_solution := previous_solution st;
     inlet_time := time;
     pcout := pcout st ++ [Separator; AssemblingTheSystem] |}.

(** ** [assemble_time_step], lines 361-544 *)
Definition assemble_time_step (time : Qc) (st : NavierStokes) : NavierStokes :=
  let u := solution st in
  let u_prev := previous_solution st in
  (* delete the previous convection matrix from the system matrix *)
  let system_matrix1 := mat_add (system_matrix st) (-1) (convection_matrix st) in
  let system_matrix2 :=
    if decide (time = -1)
    then mat_add system_matrix1 (-1) (mass_matrix st)
    else system_matrix1 in
  let pcout' :=
    pcout st ++ [Separator; AssemblingTheSystem]
    ++ (if decide (time = -1) then [ReinitializeMassMatrixForBDF2] else []) in
  (* the cell loop: the convection matrix and the right-hand side start
     from zero, the mass matrix from its present value *)
  let mass_matrix' :=
    if decide (time = -1)
    then (fun I J => mass_matrix st I J
                     + assemble_matrix cell_mass_matrix_bdf2 I J)
    else mass_matrix st in
  let convection_matrix' :=
    assemble_matrix (cell_convection_matrix_time_step u u_prev) in
  let system_rhs0 := assemble_vector (cell_rhs_time_step u) in
  let system_matrix3 :=
    if decide (time = -1)
    then mat_add system_matrix2 1 mass_matrix'
    else system_matrix2 in
  let system_matrix4 := mat_add system_matrix3 1 convection_matrix' in
  (* Dirichlet boundary conditions *)
  let bc := apply_boundary_values (dirichlet_values time)
              (mkLinearSystem system_matrix4 (solution st) system_rhs0) in
  {| system_matrix := ls_matrix bc;
     mass_matrix := mass_matrix';
     convection_matrix := convection_matrix';
     stiffness_matrix := stiffness_matrix st;
     pressure_mass := pressure_mass st;
     system_rhs := ls_rhs bc;
     solution_owned := solution_owned st;
     solution := ls_solution bc;
     previous_solution := previous_solution st;
     inlet_time := time;
     pcout := pcout' |}.

(** ** [solve_time_step], lines 546-640 *)

Definition block (r c : nat) (A : Matrix) : Matrix :=
  fun i j => A ((if decide (r = 0%nat) then 0 else n_u mesh) + i)%nat
               ((if decide (c = 0%nat) then 0 else n_u mesh) + j)%nat.

Definition preconditioner_type : nat := 0.

(** The [switch] of lines 563-634; [None] is its [default] branch. *)
Definition select_preconditioner (type : nat) (st : NavierStokes)
    : option Preconditioner :=
  match type with
  | 0%nat => Some (PreconditionYosida
               (block 0 0 (system_matrix st)) (block 1 0 (system_matrix st))
               (block 0 1 (system_matrix st)) (block 0 0 (mass_matrix st))
               (solution_owned st))
  | 1%nat => Some (PreconditionSIMPLE
               (block 0 0 (system_matrix st)) (block 1 0 (system_matrix st))
               (block 0 1 (system_matrix st)) (solution_owned st))
  | 2%nat => Some (PreconditionaYosida
               (block 0 0 (system_matrix st)) (block 1 0 (system_matrix st))
               (block 0 1 (system_matrix st)) (block 0 0 (mass_matrix st))
               (solution_owned st))
  | 3%nat => Some (PreconditionaSIMPLE
               (block 0 0 (system_matrix st)) (block 1 0 (system_matrix st))
               (block 0 1 (system_matrix st)) (solution_owned st))
  | _ => None
  end.

(** [solver.solve(system_matrix, solution_owned, system_rhs, P)] under
    [SolverControl(maxiter, tol)]. *)
Definition gmres_solve (A : Matrix) (x0 b : Vector) (P : Preconditioner)
    : SolverResult :=
  gmres_loop (krylov lib A x0 b P) (N.to_nat maxiter) 0%N.

Definition with_solution (st : NavierStokes)
    (owned sol prev : Vector) (out : list Message) : NavierStokes :=
  {| system_matrix := system_matrix st;
     mass_matrix := mass_matrix st;
     convection_matrix := convection_matrix st;
     stiffness_matrix := stiffness_matrix st;
     pressure_mass := pressure_mass st;
     system_rhs := system_rhs st;
     solution_owned := owned;
     solution := sol;
     previous_solution := prev;
     inlet_time := inlet_time st;
     pcout := pcout st ++ out |}.

Definition solve_time_step (st : NavierStokes) : Outcome NavierStokes :=
  (* previous_solution = solution *)
  let st1 := with_solution st (solution_owned st) (solution st) (solution st)
               [Separator] in
  match select_preconditioner preconditioner_type st1 with
  | None => Thrown ExcInvalidPreconditionerType st1
  | Some P =>
      match gmres_solve (system_matrix st1) (solution_owned st1)
              (system_rhs st1) P with
      | NoConvergence last_step last_residual x =>
          Thrown (ExcNoConvergence last_step last_residual)
            (with_solution st1 x (solution st1) (previous_solution st1)
               [TimeToInitializePreconditioner])
      | Converged last_step x =>
          (* solution = solution_owned *)
          Returned
            (with_solution st1 x x (previous_solution st1)
               [TimeToInitializePreconditioner; TimeToSolve;
                ResultGMRESIterations last_step])
      end
  end.

(** ** [output], lines 643-683 *)
Definition output (n : nat) (st : NavierStokes) : NavierStokes :=
  with_solution st (solution_owned st) (solution st) (previous_solution st)
    [Separator; OutputWritten n; Separator].

(** ** [compute_forces], lines 744-846 *)

(** Lines 800-824 at one quadrature point of a face: the new values of
    [local_drag] and [local_lift]. *)
Definition traction_step (c : Cell) (f : Face) (u : Vector) (q : nat)
    (acc : Qc * Qc) : option (Qc * Qc) :=
  let fe := fe_face_values f in
  let current_pressure_values :=
    get_pressure_values (dofs_per_cell mesh) fe (dof_indices c) u q in
  let current_velocity_gradients :=
    get_function_gradients (dofs_per_cell mesh) fe (dof_indices c) u q in
  let n := opp1 (normal_vector fe q) in
  let nx := t_x n in
  let ny := t_y n in
  let tangent := mkTensor1 ny (- nx) 0 in
  unit_tangent ← checked_div1 tangent (norm_square tangent);
  let shear :=
    dot (mul12 (scale1 (rho pb * nu pb) n) current_velocity_gradients)
        unit_tangent in
  Some (fst acc + (shear * ny - current_pressure_values * nx) * JxW fe q,
        snd acc - (shear * nx + current_pressure_values * ny) * JxW fe q).

Definition on_obstacle (f : Face) : bool :=
  face_at_boundary f && bool_decide (boundary_id f = 3%nat).

Definition face_forces (c : Cell) (u : Vector) (acc : option (Qc * Qc))
    (f : Face) : option (Qc * Qc) :=
  if on_obstacle f
  then fold_left (fun acc q => a ← acc; traction_step c f u q a)
         (seq 0 (n_q_boundary mesh)) acc
  else acc.

Definition cell_forces (rank : nat) (u : Vector) (acc : option (Qc * Qc))
    (c : Cell) : option (Qc * Qc) :=
  if is_locally_owned rank c
  then if at_boundary c
       then fold_left (face_forces c u) (faces c) acc
       else acc
  else acc.

(** [local_drag] and [local_lift] of one rank after the cell loop. *)
Definition local_forces (rank : nat) (u : Vector) : option (Qc * Qc) :=
  fold_left (cell_forces rank u) (cells mesh) (Some (0, 0)).

(** [Utilities::MPI::sum] of the local drag and lift. *)
Definition integrate_forces (u : Vector) : option (Qc * Qc) :=
  fold_left (fun acc rank =>
    a ← acc; l ← local_forces rank u;
    Some (fst a + fst l, snd a + snd l))
    (seq 0 (mpi_size mesh)) (Some (0, 0)).

Definition D : Qc := qc 1 10.
Definition H : Qc := qc 41 100.

(** The coefficients of lines 835-841. *)
Definition force_coefficients (mean_v drag lift : Qc) : option (Qc * Qc) :=
  c_d ← checked_div (2 * drag) (rho pb * mean_v * mean_v * D * H);
  c_l ← checked_div (2 * lift) (rho pb * mean_v * mean_v * D * H);
  Some (c_d, c_l).

Definition compute_forces (st : NavierStokes)
    : option (NavierStokes * (Qc * Qc)) :=
  forces ← integrate_forces (solution st);
  let mean_v := getMeanVelocity pb (inlet_time st) in
  coefficients ← force_coefficients mean_v (fst forces) (snd forces);
  Some (with_solution st (solution_owned st) (solution st)
          (previous_solution st)
          [Separator; ComputingForces; DragLift (fst forces) (snd forces);
           Coeff (fst coefficients) (snd coefficients); Separator],
        coefficients).

(** ** [compute_pressure_difference], lines 849-923 *)
Definition p_a : Point := mkTensor1 (qc 45 100) (qc 2 10) (qc 205 1000).
Definition p_e : Point := mkTensor1 (qc 55 100) (qc 2 10) (qc 205 1000).

(** Lines 858-891 on one rank: the [try]/[catch] around [point_value]
    and the local pressure, zero when the point is not available. *)
Definition pres_point (rank : nat) (u : Vector) (p : Point) : Qc :=
  match point_value lib rank u p with
  | Some solution_values => solution_values dim
  | None => 0
  end.

(** [MPI_Reduce(.., MPI_MAX, 0, MPI_COMM_WORLD)]: the value received on
    rank 0. *)
Definition MPI_Reduce_MAX (size : nat) (local : nat -> Qc) : Qc :=
  fold_left (fun acc rank => Qcmax acc (local rank))
    (seq 1 (size - 1)) (local 0%nat).

Definition global_pres_point (u : Vector) (p : Point) : Qc :=
  MPI_Reduce_MAX (mpi_size mesh) (fun rank => pres_point rank u p).

Definition compute_pressure_difference (st : NavierStokes) : NavierStokes :=
  let p_diff := global_pres_point (solution st) p_a
                - global_pres_point (solution st) p_e in
  with_solution st (solution_owned st) (solution st) (previous_solution st)
    [PressureDifference p_diff].

(** ** [solve], lines 687-741

    The clock [time] is an exact rational here, which is what the
    invariants of the assembled operators need.  The lines a run writes
    are read off the same loop with the clock as a double,
    [advance_double] below. *)

Definition set_time (t : Qc) (st : NavierStokes) (out : list Message)
    : NavierStokes :=
  {| system_matrix := system_matrix st;
     mass_matrix := mass_matrix st;
     convection_matrix := convection_matrix st;
     stiffness_matrix := stiffness_matrix st;
     pressure_mass := pressure_mass st;
     system_rhs := system_rhs st;
     solution_owned := solution_owned st;
     solution := solution st;
     previous_solution := previous_solution st;
     inlet_time := t;
     pcout := pcout st ++ out |}.

(** The object after [setup]: matrices and vectors initialised to zero. *)
Definition after_setup : NavierStokes :=
  {| system_matrix := mat_zero;
     mass_matrix := mat_zero;
     convection_matrix := mat_zero;
     stiffness_matrix := mat_zero;
     pressure_mass := mat_zero;
     system_rhs := vec_zero;
     solution_owned := vec_zero;
     solution := vec_zero;
     previous_solution := vec_zero;
     inlet_time := 0;
     pcout := [] |}.

(** Lines 692-708: the initial condition and the loop variables. *)
Definition initial_loop (st : NavierStokes) : TimeLoop :=
  let st1 := with_solution st (u_0 pb) (u_0 pb) (previous_solution st)
               [Separator; ApplyingTheInitialCondition] in
  let st2 := output 0 st1 in
  let st3 := with_solution st2 (solution_owned st2) (solution st2)
               (previous_solution st2) [Separator] in
  {| ns := st3; c_D_max := qc (-999) 1; c_L_min := qc 999 1;
     time_step := 0; time := 0 |}.

(** The loop condition, line 710. *)
Definition loop_condition (l : TimeLoop) : Prop :=
  time l < T pb - qc 1 2 * deltat pb.

#[global] Instance loop_condition_dec (l : TimeLoop) :
  Decision (loop_condition l).
Proof. unfold loop_condition. apply _. Defined.

(** Line 721-722: which assembly a step runs. *)
Definition assemble_step (t : Qc) (st : NavierStokes) : NavierStokes :=
  if decide (t = deltat pb) then assemble t st else assemble_time_step t st.

(** The loop body, lines 713-734. *)
Definition advance (l : TimeLoop) : Outcome TimeLoop :=
  let time' := time l + deltat pb in
  let time_step' := S (time_step l) in
  let st1 := set_time time' (ns l) [StepHeader time_step' time'] in
  let st2 := assemble_step time' st1 in
  match solve_time_step st2 with
  | Returned st3 =>
      let st4 :=
        if decide (time' = T pb - deltat pb)
        then compute_pressure_difference st3
        else st3 in
      (* the starting solution is zero: the initial forces are skipped *)
      let forces :=
        if decide (qc 1 10 < time')
        then match compute_forces st4 with
             | Some (st5, coefficients) =>
                 Some (st5, Qcmax (fst coefficients) (c_D_max l),
                       Qcmin (snd coefficients) (c_L_min l))
             | None => None
             end
        else Some (st4, c_D_max l, c_L_min l) in
      match forces with
      | Some (st5, c_D_max', c_L_min') =>
          let st6 :=
            if decide (time_step' mod 20 = 0)%nat
            then output time_step' st5
            else st5 in
          Returned {| ns := st6; c_D_max := c_D_max'; c_L_min := c_L_min';
                      time_step := time_step'; time := time' |}
      | None => DivisionByZero st4
      end
  | Thrown e st => Thrown e st
  | DivisionByZero st => DivisionByZero st
  | OutOfFuel => OutOfFuel
  end.




(** The loop states a run goes through: the initial one, and every
    state a completed iteration leaves. *)
Inductive reachable : TimeLoop -> Prop :=
| reachable_initial : reachable (initial_loop after_setup)
| reachable_advance (l l' : TimeLoop) :
    reachable l -> loop_condition l -> advance l = Returned l' ->
    reachable l'.

End Engine.

Arguments gmres_loop : simpl never.
Arguments gmres_solve : simpl never.

(** ** Well-formed numbering

    After [DoFRenumbering::component_wise] a DoF is a velocity DoF
    exactly when its index is below [n_u]; every index is below
    [n_u + n_p]. *)
Definition well_numbered (mesh : Discretisation) : bool :=
  forallb (fun c =>
    forallb (fun i =>
      let k := component (shape (fe_values c) i) in
      bool_decide (k <= dim)%nat
      && bool_decide (dof_indices c i < n_u mesh + n_p mesh)%nat
      && Bool.eqb (bool_decide (k < dim)%nat)
                  (bool_decide (dof_indices c i < n_u mesh)%nat))
      (seq 0 (dofs_per_cell mesh)))
    (cells mesh)
  && forallb (fun d =>
       bool_decide (bd_component d <= dim)%nat
       && Bool.eqb (bool_decide (bd_component d < dim)%nat)
                   (bool_decide (bd_index d < n_u mesh)%nat))
       (boundary_dofs mesh).

(** A DoF carries a Dirichlet condition when it lies, with a selected
    component, on region 0, 2 or 3. *)
Definition constrained (mesh : Discretisation) (I : nat) : Prop :=
  Exists (fun d =>
    bd_index d = I /\ component_mask (bd_component d) = true
    /\ (bd_boundary_id d = 0 \/ bd_boundary_id d = 2 \/ bd_boundary_id d = 3)%nat)
    (boundary_dofs mesh).

(** A DoF of the walls or of the obstacle. *)
Definition on_no_slip (mesh : Discretisation) (I : nat) : Prop :=
  Exists (fun d =>
    bd_index d = I /\ component_mask (bd_component d) = true
    /\ (bd_boundary_id d = 2 \/ bd_boundary_id d = 3)%nat)
    (boundary_dofs mesh).

(** The outward normal of a face is parallel to the z axis at a
    quadrature point. *)
Definition normal_parallel_to_z (f : Face) (q : nat) : Prop :=
  t_x (normal_vector (fe_face_values f) q) = 0
  /\ t_y (normal_vector (fe_face_values f) q) = 0.

(** The squared norm of the tangent [(ny, -nx, 0)] built at a quadrature
    point from [n = -normal_vector(q)]. *)
Definition tangent_norm_square (f : Face) (q : nat) : Qc :=
  let n := opp1 (normal_vector (fe_face_values f) q) in
  norm_square (mkTensor1 (t_y n) (- t_x n) 0).

(** An obstacle face none of whose normals is parallel to the z axis. *)
Definition regular_face (mesh : Discretisation) (f : Face) : Prop :=
  on_obstacle f = true ->
  Forall (fun q => ~ normal_parallel_to_z f q) (seq 0 (n_q_boundary mesh)).

(** A cell whose faces are regular when a rank visits them. *)
Definition regular_cell (mesh : Discretisation) (rank : nat) (c : Cell) : Prop :=
  is_locally_owned rank c = true -> at_boundary c = true ->
  Forall (regular_face mesh) (faces c).

(** The lines of the final summary found in a log: the value, tagged
    [true] for the drag line and [false] for the lift line. *)
Definition summary_lines (log : list Message) : list (bool * Qc) :=
  flat_map (fun m =>
    match m with
    | DragCoefficientMax c => [(true, c)]
    | LiftCoefficientMin c => [(false, c)]
    | _ => []
    end) log.

(** No obstacle face visited by [compute_forces] has a normal parallel
    to the z axis. *)
Definition obstacle_normals_regular (mesh : Discretisation) : Prop :=
  forall c f q,
    In c (cells mesh) -> (subdomain_id c < mpi_size mesh)%nat ->
    at_boundary c = true -> In f (faces c) -> on_obstacle f = true ->
    (q < n_q_boundary mesh)%nat -> ~ normal_parallel_to_z f q.


(** The Coupling block: what the cell loop of [assemble] leaves in
    [system_matrix] before the other blocks are added (line 306). *)
Definition coupling_matrix (mesh : Discretisation) : Matrix :=
  assemble_matrix mesh (cell_matrix mesh).

(** The sum of the four block contributions held by a state. *)
Definition sum_of_blocks (mesh : Discretisation) (st : NavierStokes) : Matrix :=
  fun I J =>
    mass_matrix st I J + stiffness_matrix st I J + convection_matrix st I J
    + coupling_matrix mesh I J.

(** The coefficients [compute_forces] returns on a state. *)
Definition coefficients_of (mesh : Discretisation) (pb : Problem)
    (st : NavierStokes) : option (Qc * Qc) :=
  snd <$> compute_forces mesh pb st.

Definition is_summary (m : Message) : bool :=
  match m with
  | DragCoefficientMax _ | LiftCoefficientMin _ => true
  | _ => false
  end.


Definition is_reinitialize (m : Message) : bool :=
  match m with
  | ReinitializeMassMatrixForBDF2 => true
  | _ => false
  end.

(** A state with another previous solution. *)
Definition with_previous (st : NavierStokes) (prev : Vector) : NavierStokes :=
  {| system_matrix := system_matrix st;
     mass_matrix := mass_matrix st;
     convection_matrix := convection_matrix st;
     stiffness_matrix := stiffness_matrix st;
     pressure_mass := pressure_mass st;
     system_rhs := system_rhs st;
     solution_owned := solution_owned st;
     solution := solution st;
     previous_solution := prev;
     inlet_time := inlet_time st;
     pcout := pcout st |}.

(** The messages an iteration of the loop may write when its time is
    not the sentinel -1. *)
Definition loop_message (m : Message) : bool :=
  match m with
  | DragCoefficientMax _ | LiftCoefficientMin _
  | ApplyingTheInitialCondition | ReinitializeMassMatrixForBDF2 => false
  | _ => true
  end.

(** The pressure-pressure block of a matrix holds only zeros. *)
Definition pressure_block_zero (mesh : Discretisation) (A : Matrix) : Prop :=
  forall I J, (n_u mesh <= I)%nat -> (n_u mesh <= J)%nat -> A I J = 0.

Definition is_returned {A : Type} (o : Outcome A) : bool :=
  match o with Returned _ => true | _ => false end.


Definition log_of (o : Outcome NavierStokes) : list Message :=
  match o with
  | Returned st | Thrown _ st | DivisionByZero st => pcout st
  | OutOfFuel => []
  end.

(** * A small instance

    One tetrahedron-like cell with three DoFs (two velocity, one
    pressure), one quadrature point, an obstacle face, two ranks.  It
    serves to run the definitions on concrete data. *)
Module Demo.

Definition s_ux : ShapeFunction :=
  mkShape 0 (fun _ => 1) (fun _ => mkTensor1 1 0 0).
Definition s_uy : ShapeFunction :=
  mkShape 1 (fun _ => 1) (fun _ => mkTensor1 0 1 0).
Definition s_p : ShapeFunction :=
  mkShape 3 (fun _ => 1) (fun _ => zero1).

Definition shapes (i : nat) : ShapeFunction :=
  match i with
  | O => s_ux
  | S O => s_uy
  | _ => s_p
  end.

Definition values : FEValues :=
  mkFEValues shapes (fun _ => 1) (fun _ => zero1)
    (fun _ => mkTensor1 (-1) 0 0).

Definition obstacle_face : Face := mkFace true 3 values.

Definition cell0 : Cell := mkCell 0 values (fun i => i) [obstacle_face].

(** DoF 0 lies on the inlet and on a wall, the pressure DoF 2 on the
    inlet. *)
Definition mesh : Discretisation :=
  {| cells := [cell0];
     dofs_per_cell := 3;
     n_q := 1;
     n_q_boundary := 1;
     n_u := 2;
     n_p := 1;
     boundary_dofs :=
       [mkBoundaryDof 0 0 0 zero1; mkBoundaryDof 0 0 2 zero1;
        mkBoundaryDof 2 3 0 zero1];
     mpi_size := 2 |}.

(** The same cell with a face whose normal is parallel to the z axis. *)
Definition flat_values : FEValues :=
  mkFEValues shapes (fun _ => 1) (fun _ => zero1)
    (fun _ => mkTensor1 0 0 1).
Definition flat_mesh : Discretisation :=
  {| cells := [mkCell 0 values (fun i => i) [mkFace true 3 flat_values]];
     dofs_per_cell := 3;
     n_q := 1;
     n_q_boundary := 1;
     n_u := 2;
     n_p := 1;
     boundary_dofs := [];
     mpi_size := 1 |}.

Definition pb : Problem :=
  {| nu := 1;
     rho := 1;
     deltat := qc 1 10;
     T := qc 3 10;
     inlet_velocity := fun t _ c => if decide (c = 0%nat) then t else 0;
     getMeanVelocity := fun _ => qc 1 10;
     u_0 := vec_zero;
     function_h := fun _ _ => 0 |}.

(** A solver that converges at once to velocity (1, 2) and to the
    pressure -1 from a zero initial pressure, 1 otherwise; the probe
    points belong to rank 1, where the pressure read is -1. *)
Definition lib : Library :=
  {| krylov := fun _ x0 _ _ _ =>
       (fun I => match I with
                 | O => 1
                 | S O => 2
                 | _ => if decide (x0 2%nat = 0) then -1 else 1
                 end, 0);
     point_value := fun rank _ _ =>
       match rank with
       | S O => Some (fun c => if decide (c = dim) then -1 else 0)
       | _ => None
       end |}.


Definition l0 : TimeLoop := initial_loop pb after_setup.

Definition next (l : TimeLoop) : TimeLoop :=
  match advance mesh pb lib l with
  | Returned l' => l'
  | _ => l
  end.

Definition l1 : TimeLoop := next l0.
Definition l2 : TimeLoop := next l1.
Definition l3 : TimeLoop := next l2.

End Demo.

(** * Further notions

    The patterns of [setup], the assembly as a single process would run
    it, and the comparisons of problems and of states that the
    properties of the whole engine are stated with. *)

(** The sparsity pattern of the four operators, lines 121-124. *)
Definition sparsity (mesh : Discretisation) : nat -> nat -> bool :=
  make_sparsity_pattern mesh coupling.

(** The sparsity pattern of the pressure mass matrix, lines 137-142. *)
Definition sparsity_pressure_mass (mesh : Discretisation) : nat -> nat -> bool :=
  make_sparsity_pattern mesh coupling_pressure_mass.

(** The cell loop run by a single process that owns every cell. *)
Definition serial_matrix (mesh : Discretisation)
    (local : Cell -> nat -> nat -> Qc) : Matrix :=
  fun I J =>
    fold_left (fun acc c =>
      acc + scatter_matrix (dofs_per_cell mesh) (dof_indices c) (local c) I J)
      (cells mesh) 0.

Definition serial_vector (mesh : Discretisation) (local : Cell -> nat -> Qc)
    : Vector :=
  fun I =>
    fold_left (fun acc c =>
      acc + scatter_vector (dofs_per_cell mesh) (dof_indices c) (local c) I)
      (cells mesh) 0.

(** Every cell belongs to one of the processes of the run
    ([GridTools::partition_triangulation(mpi_size, .)], line 16). *)
Definition partitioned (mesh : Discretisation) : Prop :=
  Forall (fun c => (subdomain_id c < mpi_size mesh)%nat) (cells mesh).

(** The problem with another Neumann datum. *)
Definition with_function_h (pb : Problem) (h : Function) : Problem :=
  {| nu := nu pb;
     rho := rho pb;
     deltat := deltat pb;
     T := T pb;
     inlet_velocity := inlet_velocity pb;
     getMeanVelocity := getMeanVelocity pb;
     u_0 := u_0 pb;
     function_h := h |}.

(** Two states hold the same linear system: the four operators, the
    pressure mass matrix and the right-hand side. *)
Definition same_system (st st' : NavierStokes) : Prop :=
  system_matrix st' = system_matrix st
  /\ mass_matrix st' = mass_matrix st
  /\ convection_matrix st' = convection_matrix st
  /\ stiffness_matrix st' = stiffness_matrix st
  /\ pressure_mass st' = pressure_mass st
  /\ system_rhs st' = system_rhs st.

(** * A second small instance

    Two cells, one on each of two processes, sharing the pressure DoF:
    the first carries a face of the inlet, the second a face of a wall;
    no face lies on the obstacle.  DoFs 0 and 1 lie on the inlet only. *)
Module Channel.

Definition inlet_point : Point := mkTensor1 0 (qc 1 5) (qc 1 5).

Definition inlet_face : Face := mkFace true 0 Demo.values.
Definition wall_face : Face := mkFace true 2 Demo.values.
Definition interior_face : Face := mkFace false 0 Demo.values.

Definition cell_a : Cell :=
  mkCell 0 Demo.values
    (fun i => match i with O => 0 | S O => 1 | _ => 4 end)%nat
    [inlet_face; interior_face].

Definition cell_b : Cell :=
  mkCell 1 Demo.values
    (fun i => match i with O => 2 | S O => 3 | _ => 4 end)%nat
    [interior_face; wall_face].

Definition mesh : Discretisation :=
  {| cells := [cell_a; cell_b];
     dofs_per_cell := 3;
     n_q := 1;
     n_q_boundary := 1;
     n_u := 4;
     n_p := 1;
     boundary_dofs :=
       [mkBoundaryDof 0 0 0 inlet_point; mkBoundaryDof 1 1 0 inlet_point;
        mkBoundaryDof 4 3 0 inlet_point; mkBoundaryDof 2 0 2 zero1;
        mkBoundaryDof 3 1 2 zero1];
     mpi_size := 2 |}.

End Channel.

(** The Dirichlet map after the first interpolation alone, lines 328-338
    and 516-526: the inflow set, region 0. *)
Definition inflow_values (mesh : Discretisation) (pb : Problem) (time : Qc)
    : gmap nat Qc :=
  interpolate_boundary_values mesh (<[0%nat := inlet_velocity pb time]> ∅) ∅
    component_mask.

(** The map the second interpolation builds when it starts from an empty
    one, lines 341-351 and 529-539: the no-slip sets, regions 2 and 3. *)
Definition no_slip_values (mesh : Discretisation) : gmap nat Qc :=
  interpolate_boundary_values mesh
    (<[3%nat := zero_function]> (<[2%nat := zero_function]> ∅)) ∅
    component_mask.

(** Modelled from the spec: the enforcement applied twice, for the two
    boundary sets, of section 4.1 and of the third property of section 8:
    the inflow set enforced on a system, then the no-slip sets on the
    result.  The source enforces once, with the map [dirichlet_values]
    that the two interpolations fill (lines 353 and 541). *)
Definition enforce_in_sequence (mesh : Discretisation) (pb : Problem)
    (time : Qc) (s : LinearSystem) : LinearSystem :=
  apply_boundary_values mesh (no_slip_values mesh)
    (apply_boundary_values mesh (inflow_values mesh pb time) s).

(** * The clock of [solve] as a double

    Which assembly a step runs, whether it probes the pressure, whether
    it computes the forces and when the loop stops are decided by tests
    on the local [double time] of [solve] (lines 708-728), the result of
    repeated rounded additions of [deltat].  Rounding shows in these
    tests: [0.1 + 0.1] is not [0.3 - 0.1], and one hundred additions of
    [0.001] exceed [0.1].  Here the clock is the binary64 value the
    program holds, the three tests and the loop test are the comparisons
    of the hardware, and [deltat] and [T] are the doubles of the class.
    Every other quantity stays exact, and a zero divisor in
    [compute_forces], where the program goes on with an infinity or a
    NaN, still ends the run of the model with [DivisionByZero]. *)

Module Double.
Import PrimFloat SpecFloat FloatOps.

(** The rational a finite double stands for; 0 for an infinity or a NaN. *)
Definition value (x : float) : Qc :=
  match Prim2SF x with
  | S754_finite s m e =>
      Q2Qc (inject_Z (if s then Z.neg m else Z.pos m) * Qpower (2 # 1) e)
  | _ => 0
  end.

(** The literals [0], [0.5] and [0.1] of lines 708, 710 and 728. *)
Definition zero : float := 0%float.
Definition half : float := 0.5%float.
Definition tenth : float := 0.1%float.

End Double.

(** The members [deltat] and [T] of the class, as the doubles they are. *)
Record Clock := mkClock {
  deltat_double : PrimFloat.float;
  T_double : PrimFloat.float
}.

(** The problem whose step size and final time are the values of the
    two doubles. *)
Definition with_clock (pb : Problem) (k : Clock) : Problem :=
  {| nu := nu pb;
     rho := rho pb;
     deltat := Double.value (deltat_double k);
     T := Double.value (T_double k);
     inlet_velocity := inlet_velocity pb;
     getMeanVelocity := getMeanVelocity pb;
     u_0 := u_0 pb;
     function_h := function_h pb |}.

(** The variables of the loop of [solve], the local [double time] kept
    as a double. *)
Record DoubleLoop := mkDoubleLoop {
  d_ns : NavierStokes;
  d_c_D_max : Qc;
  d_c_L_min : Qc;
  d_time_step : nat;
  d_time : PrimFloat.float
}.

Section DoubleClock.

Context (mesh : Discretisation) (pb : Problem) (lib : Library) (k : Clock).

(** Lines 692-708. *)
Definition initial_loop_double (st : NavierStokes) : DoubleLoop :=
  let l := initial_loop (with_clock pb k) st in
  {| d_ns := ns l; d_c_D_max := c_D_max l; d_c_L_min := c_L_min l;
     d_time_step := time_step l; d_time := Double.zero |}.

(** [time < T - 0.5 * deltat], line 710. *)
Definition loop_condition_double (l : DoubleLoop) : bool :=
  PrimFloat.ltb (d_time l)
    (PrimFloat.sub (T_double k) (PrimFloat.mul Double.half (deltat_double k))).

(** [if (time == deltat) assemble(); else assemble_time_step();],
    lines 721-722. *)
Definition assemble_step_double (time : PrimFloat.float) (st : NavierStokes)
    : NavierStokes :=
  if PrimFloat.eqb time (deltat_double k)
  then assemble mesh (with_clock pb k) (Double.value time) st
  else assemble_time_step mesh (with_clock pb k) (Double.value time) st.

(** The loop body, lines 713-734. *)
Definition advance_double (l : DoubleLoop) : Outcome DoubleLoop :=
  let time' := PrimFloat.add (d_time l) (deltat_double k) in
  let time_step' := S (d_time_step l) in
  let st1 := set_time (Double.value time') (d_ns l)
               [StepHeader time_step' (Double.value time')] in
  let st2 := assemble_step_double time' st1 in
  match solve_time_step mesh lib st2 with
  | Returned st3 =>
      let st4 :=
        if PrimFloat.eqb time'
             (PrimFloat.sub (T_double k) (deltat_double k))
        then compute_pressure_difference mesh lib st3
        else st3 in
      let forces :=
        if PrimFloat.ltb Double.tenth time'
        then match compute_forces mesh (with_clock pb k) st4 with
             | Some (st5, coefficients) =>
                 Some (st5, Qcmax (fst coefficients) (d_c_D_max l),
                       Qcmin (snd coefficients) (d_c_L_min l))
             | None => None
             end
        else Some (st4, d_c_D_max l, d_c_L_min l) in
      match forces with
      | Some (st5, c_D_max', c_L_min') =>
          let st6 :=
            if decide (time_step' mod 20 = 0)%nat
            then output time_step' st5
            else st5 in
          Returned {| d_ns := st6; d_c_D_max := c_D_max';
                      d_c_L_min := c_L_min'; d_time_step := time_step';
                      d_time := time' |}
      | None => DivisionByZero st4
      end
  | Thrown e st => Thrown e st
  | DivisionByZero st => DivisionByZero st
  | OutOfFuel => OutOfFuel
  end.

(** [while (time < T - 0.5 * deltat)], with the number of iterations
    bounded by [fuel]. *)
Fixpoint time_loop_double (fuel : nat) (l : DoubleLoop) : Outcome DoubleLoop :=
  if loop_condition_double l
  then match fuel with
       | O => OutOfFuel
       | S fuel' =>
           match advance_double l with
           | Returned l' => time_loop_double fuel' l'
           | other => other
           end
       end
  else Returned l.

(** Lines 736-740. *)
Definition final_summary_double (l : DoubleLoop) : NavierStokes :=
  with_solution (d_ns l) (solution_owned (d_ns l)) (solution (d_ns l))
    (previous_solution (d_ns l))
    [Separator; DragCoefficientMax (d_c_D_max l);
     LiftCoefficientMin (d_c_L_min l); Separator].

Definition solve_double (fuel : nat) (st : NavierStokes)
    : Outcome NavierStokes :=
  match time_loop_double fuel (initial_loop_double st) with
  | Returned l => Returned (final_summary_double l)
  | Thrown e st' => Thrown e st'
  | DivisionByZero st' => DivisionByZero st'
  | OutOfFuel => OutOfFuel
  end.

(** The loop states after each completed iteration of a run. *)
Fixpoint loop_trace_double (fuel : nat) (l : DoubleLoop) : list DoubleLoop :=
  if loop_condition_double l
  then match fuel with
       | O => []
       | S fuel' =>
           match advance_double l with
           | Returned l' => l' :: loop_trace_double fuel' l'
           | _ => []
           end
       end
  else [].

(** The coefficients computed along a run: those of the states whose
    time passes the test [time > 0.1] of line 728. *)
Definition computed_coefficients (trace : list DoubleLoop) : list (Qc * Qc) :=
  flat_map (fun l =>
    if PrimFloat.ltb Double.tenth (d_time l)
    then match coefficients_of mesh (with_clock pb k) (d_ns l) with
         | Some c => [c]
         | None => []
         end
    else []) trace.

End DoubleClock.

(** The pairs of coefficients a log reports, line 841. *)
Definition reported_coefficients (log : list Message) : list (Qc * Qc) :=
  flat_map (fun m =>
    match m with
    | Coeff c_d c_l => [(c_d, c_l)]
    | _ => []
    end) log.

(** [c_D_max = std::max(c, c_D_max)] and [c_L_min = std::min(c, c_L_min)]
    over a list of coefficients, lines 731-732. *)
Definition running_max (start : Qc) (cs : list Qc) : Qc :=
  fold_left (fun m c => Qcmax c m) cs start.
Definition running_min (start : Qc) (cs : list Qc) : Qc :=
  fold_left (fun m c => Qcmin c m) cs start.

(** The first instance run with a clock: three pairs of [deltat] and
    [T]. *)
Module DoubleDemo.
Import PrimFloat SpecFloat FloatOps.

(** [deltat = 0.1], [T = 0.3]. *)
Definition tenths : Clock := mkClock 0.1%float 0.3%float.

(** [deltat = 0.25], [T = 0.75]: every time of the run is exact. *)
Definition quarters : Clock := mkClock 0.25%float 0.75%float.

(** [deltat = 0.1], [T = 1.05]. *)
Definition long : Clock := mkClock 0.1%float 1.05%float.

(** [deltat = 0.001], [T = 8]. *)
Definition thousandths : Clock := mkClock 0.001%float 8%float.

Definition next (k : Clock) (l : DoubleLoop) : DoubleLoop :=
  match advance_double Demo.mesh Demo.pb Demo.lib k l with
  | Returned l' => l'
  | _ => l
  end.

Definition l0 (k : Clock) : DoubleLoop := initial_loop_double Demo.pb k after_setup.
Definition l1 (k : Clock) : DoubleLoop := next k (l0 k).
Definition l2 (k : Clock) : DoubleLoop := next k (l1 k).
Definition l3 (k : Clock) : DoubleLoop := next k (l2 k).

Definition final (k : Clock) : NavierStokes :=
  match solve_double Demo.mesh Demo.pb Demo.lib k 5 after_setup with
  | Returned st => st
  | _ => after_setup
  end.

End DoubleDemo.

(** * Properties *)

(** ** Sums and tensors *)

Lemma sum_upto_ext (n : nat) (f g : nat -> Qc) :
  (forall k, (k < n)%nat -> f k = g k) -> sum_upto n f = sum_upto n g.
Proof.
  induction n as [|n IH]; intros Hfg; simpl; [reflexivity|].
  rewrite IH by (intros k Hk; apply Hfg; lia).
  rewrite Hfg by lia. reflexivity.
Qed.

Lemma sum_upto_zero (n : nat) (f : nat -> Qc) :
  (forall k, (k < n)%nat -> f k = 0) -> sum_upto n f = 0.
Proof.
  induction n as [|n IH]; intros Hf; simpl; [reflexivity|].
  rewrite IH by (intros k Hk; apply Hf; lia).
  rewrite Hf by lia. ring.
Qed.

Lemma sum_upto_plus (n : nat) (f g : nat -> Qc) :
  sum_upto n (fun k => f k + g k) = sum_upto n f + sum_upto n g.
Proof. induction n as [|n IH]; simpl; [ring|]. rewrite IH. ring. Qed.

Lemma sum_upto_scale (n : nat) (a : Qc) (f : nat -> Qc) :
  sum_upto n (fun k => a * f k) = a * sum_upto n f.
Proof. induction n as [|n IH]; simpl; [ring|]. rewrite IH. ring. Qed.

Lemma sum_upto_swap (n m : nat) (f : nat -> nat -> Qc) :
  sum_upto n (fun i => sum_upto m (fun j => f i j))
  = sum_upto m (fun j => sum_upto n (fun i => f i j)).
Proof.
  induction n as [|n IH]; simpl.
  - symmetry. apply sum_upto_zero. reflexivity.
  - rewrite IH, <- sum_upto_plus. reflexivity.
Qed.

(** A sum over all indices below [n] that selects the single index [k]. *)
Lemma sum_upto_select (n k : nat) (g : nat -> Qc) :
  (k < n)%nat ->
  sum_upto n (fun J => if decide (k = J) then g J else 0) = g k.
Proof.
  induction n as [|n IH]; intros Hk; [lia|]. simpl.
  destruct (decide (k = n)) as [->|Hne].
  - rewrite sum_upto_zero; [ring|].
    intros j Hj. destruct (decide (n = j)); [lia|reflexivity].
  - rewrite IH by lia. ring.
Qed.

Lemma dot_zero_l (v : Tensor1) : dot zero1 v = 0.
Proof. unfold dot, zero1; simpl. ring. Qed.

Lemma dot_zero_r (v : Tensor1) : dot v zero1 = 0.
Proof. unfold dot, zero1; simpl. ring. Qed.

Lemma dot_comm (a b : Tensor1) : dot a b = dot b a.
Proof. unfold dot. ring. Qed.

Lemma dot_add_l (a b v : Tensor1) : dot (add1 a b) v = dot a v + dot b v.
Proof. unfold dot, add1; simpl. ring. Qed.

Lemma dot_scale_l (s : Qc) (a v : Tensor1) : dot (scale1 s a) v = s * dot a v.
Proof. unfold dot, scale1; simpl. ring. Qed.

Lemma dot_sum1_l (n : nat) (f : nat -> Tensor1) (v : Tensor1) :
  dot (sum1 n f) v = sum_upto n (fun k => dot (f k) v).
Proof.
  induction n as [|n IH]; simpl; [apply dot_zero_l|].
  rewrite dot_add_l, IH. reflexivity.
Qed.

Lemma scalar_product2_zero_l (A : Tensor2) : scalar_product2 zero2 A = 0.
Proof. unfold scalar_product2, zero2; simpl. rewrite !dot_zero_l. ring. Qed.

(** A shape function of the pressure component has no velocity part. *)
Lemma velocity_value_pressure (s : ShapeFunction) (q : nat) :
  component s = dim -> velocity_value s q = zero1.
Proof. unfold velocity_value. intros ->. reflexivity. Qed.

Lemma velocity_gradient_pressure (s : ShapeFunction) (q : nat) :
  component s = dim -> velocity_gradient s q = zero2.
Proof. unfold velocity_gradient. intros ->. reflexivity. Qed.

Lemma velocity_divergence_pressure (s : ShapeFunction) (q : nat) :
  component s = dim -> velocity_divergence s q = 0.
Proof.
  unfold velocity_divergence. intros H.
  rewrite velocity_gradient_pressure by exact H.
  unfold trace, zero2, zero1; simpl. ring.
Qed.

Lemma Qcabs_pos (x : Qc) : x <> 0 -> 0 < Qcabs x.
Proof.
  intros Hx. unfold Qcabs. destruct (decide (x < 0)) as [Hlt|Hge].
  - apply Qclt_minus_iff in Hlt. rewrite Qcplus_0_l in Hlt. exact Hlt.
  - apply Qcnot_lt_le in Hge. apply Qcle_lt_or_eq in Hge as [H|H]; [exact H|].
    congruence.
Qed.

Lemma Qcabs_of_pos (x : Qc) : 0 < x -> Qcabs x = x.
Proof.
  intros Hx. unfold Qcabs. destruct (decide (x < 0)) as [Hlt|]; [|reflexivity].
  exfalso. exact (Qclt_not_le _ _ Hx (Qclt_le_weak _ _ Hlt)).
Qed.

Section Properties.

Context (mesh : Discretisation) (pb : Problem) (lib : Library).

(** Projections of the records applied to explicit states. *)
Ltac fields :=
  cbn [system_matrix mass_matrix convection_matrix stiffness_matrix
       pressure_mass system_rhs solution_owned solution previous_solution
       inlet_time pcout ns c_D_max c_L_min time_step time
       ls_matrix ls_solution ls_rhs
       with_solution set_time output compute_pressure_difference
       apply_boundary_values after_setup initial_loop
       mbind option_bind fst snd].

(** ** The switched-off boundary terms *)

Lemma boundary_term_disabled (f : Face) : boundary_term_enabled f = false.
Proof. unfold boundary_term_enabled. apply andb_false_r. Qed.

Lemma fold_disabled {A : Type} (g : A -> Face -> A) (l : list Face) (a : A) :
  fold_left (fun acc f => if boundary_term_enabled f then g acc f else acc) l a
  = a.
Proof.
  induction l as [|f l IH]; simpl; [reflexivity|].
  rewrite boundary_term_disabled. exact IH.
Qed.

Lemma cell_rhs_interior (u : Vector) (c : Cell) (i : nat) :
  cell_rhs mesh pb u c i = sum_upto (n_q mesh) (fun q => rhs_term mesh pb c u i q).
Proof.
  unfold cell_rhs. destruct (at_boundary c); [|reflexivity].
  apply (fold_disabled (fun acc f => acc + neumann_term mesh pb c f i)).
Qed.

Lemma cell_convection_time_step_interior (u u_prev : Vector) (c : Cell)
    (i j : nat) :
  cell_convection_matrix_time_step mesh u u_prev c i j
  = sum_upto (n_q mesh) (fun q => convective_term mesh c u i j q).
Proof.
  unfold cell_convection_matrix_time_step.
  destruct (at_boundary c); [|reflexivity].
  apply (fold_disabled (fun acc f => acc - backflow_term mesh c f u u_prev i j)).
Qed.

(** ** Assembly of entries that every cell leaves at zero *)

Lemma scatter_matrix_zero (n : nat) (idx : nat -> nat)
    (local : nat -> nat -> Qc) (I J : nat) :
  (forall i j, (i < n)%nat -> (j < n)%nat -> idx i = I -> idx j = J ->
               local i j = 0) ->
  scatter_matrix n idx local I J = 0.
Proof.
  intros H. unfold scatter_matrix.
  apply sum_upto_zero. intros i Hi. apply sum_upto_zero. intros j Hj.
  destruct (decide (idx i = I /\ idx j = J)) as [[Hi' Hj']|]; [|reflexivity].
  apply H; assumption.
Qed.

Lemma fold_cells_zero (rank : nat) (f : Cell -> Qc) (l : list Cell) (a : Qc) :
  (forall c, In c l -> f c = 0) ->
  fold_left (fun acc c => if is_locally_owned rank c then acc + f c else acc) l a
  = a.
Proof.
  revert a. induction l as [|c l IH]; intros a H; simpl; [reflexivity|].
  rewrite IH by (intros c' Hc'; apply H; right; exact Hc').
  destruct (is_locally_owned rank c); [|reflexivity].
  rewrite (H c) by (left; reflexivity). ring.
Qed.

Lemma assemble_matrix_zero (local : Cell -> nat -> nat -> Qc) (I J : nat) :
  (forall c i j, In c (cells mesh) ->
     (i < dofs_per_cell mesh)%nat -> (j < dofs_per_cell mesh)%nat ->
     dof_indices c i = I -> dof_indices c j = J -> local c i j = 0) ->
  assemble_matrix mesh local I J = 0.
Proof.
  intros H. unfold assemble_matrix. apply sum_upto_zero. intros r _.
  unfold local_matrix.
  apply (fold_cells_zero r
           (fun c => scatter_matrix (dofs_per_cell mesh) (dof_indices c)
                       (local c) I J)).
  intros c Hc. apply scatter_matrix_zero. intros i j Hi Hj HI HJ.
  apply (H c i j); assumption.
Qed.

(** ** What the numbering gives *)

Lemma well_numbered_cell (c : Cell) (i : nat) :
  well_numbered mesh = true -> In c (cells mesh) ->
  (i < dofs_per_cell mesh)%nat ->
  (component (shape (fe_values c) i) <= dim)%nat
  /\ (dof_indices c i < n_u mesh + n_p mesh)%nat
  /\ ((component (shape (fe_values c) i) < dim)%nat
      <-> (dof_indices c i < n_u mesh)%nat).
Proof.
  unfold well_numbered. intros Hwf Hc Hi.
  apply andb_true_iff in Hwf as [Hcells _].
  rewrite forallb_forall in Hcells. specialize (Hcells c Hc).
  rewrite forallb_forall in Hcells.
  specialize (Hcells i). rewrite in_seq in Hcells.
  specialize (Hcells ltac:(lia)). cbv zeta in Hcells.
  apply andb_true_iff in Hcells as [Hcells Hiff].
  apply andb_true_iff in Hcells as [Hle Hlt].
  apply (bool_decide_eq_true_1 _) in Hle. apply (bool_decide_eq_true_1 _) in Hlt.
  apply Bool.eqb_prop in Hiff.
  repeat split; try assumption.
  - intros Hk. apply (bool_decide_eq_true_1 _). rewrite <- Hiff.
    apply bool_decide_eq_true_2. exact Hk.
  - intros Hk. apply (bool_decide_eq_true_1 _). rewrite Hiff.
    apply bool_decide_eq_true_2. exact Hk.
Qed.

Lemma well_numbered_pressure (c : Cell) (i : nat) :
  well_numbered mesh = true -> In c (cells mesh) ->
  (i < dofs_per_cell mesh)%nat -> (n_u mesh <= dof_indices c i)%nat ->
  component (shape (fe_values c) i) = dim.
Proof.
  intros Hwf Hc Hi Hge.
  destruct (well_numbered_cell c i Hwf Hc Hi) as (Hle & _ & Hiff). lia.
Qed.

Lemma well_numbered_boundary (d : BoundaryDof) :
  well_numbered mesh = true -> In d (boundary_dofs mesh) ->
  component_mask (bd_component d) = true -> (bd_index d < n_u mesh)%nat.
Proof.
  unfold well_numbered. intros Hwf Hd Hmask.
  apply andb_true_iff in Hwf as [_ Hb].
  rewrite forallb_forall in Hb. specialize (Hb d Hd).
  apply andb_true_iff in Hb as [_ Hiff]. apply Bool.eqb_prop in Hiff.
  apply (bool_decide_eq_true_1 _). rewrite <- Hiff. apply bool_decide_eq_true_2.
  unfold component_mask in Hmask. unfold dim.
  destruct (bd_component d) as [|[|[|k]]]; [lia|lia|lia|discriminate].
Qed.

(** ** The keys of the Dirichlet map *)

Lemma interpolate_is_Some (fs : gmap nat Function) (mask : nat -> bool)
    (l : list BoundaryDof) (bv : gmap nat Qc) (I : nat) :
  is_Some (fold_left (fun bv d =>
             match fs !! bd_boundary_id d with
             | Some f =>
                 if mask (bd_component d)
                 then <[bd_index d := f (bd_point d) (bd_component d)]> bv
                 else bv
             | None => bv
             end) l bv !! I)
  <-> is_Some (bv !! I)
      \/ Exists (fun d => bd_index d = I /\ mask (bd_component d) = true
                          /\ is_Some (fs !! bd_boundary_id d)) l.
Proof.
  revert bv. induction l as [|d l IH]; intros bv; simpl.
  - rewrite Exists_nil. tauto.
  - rewrite IH, Exists_cons. clear IH.
    destruct (fs !! bd_boundary_id d) as [f|] eqn:Hf.
    + destruct (mask (bd_component d)) eqn:Hm.
      * destruct (decide (bd_index d = I)) as [HI|HI].
        -- subst I. rewrite lookup_insert_eq. split; [|intros _; left; eauto].
           intros _. right. left. repeat split. eauto.
        -- rewrite lookup_insert_ne by exact HI. split.
           ++ intros [H|H]; [left; exact H|right; right; exact H].
           ++ intros [H|[(H & _)|H]]; [left; exact H|contradiction|right; exact H].
      * split; [intros [H|H]; [left; exact H|right; right; exact H]|].
        intros [H|[(_ & H & _)|H]]; [left; exact H|discriminate|right; exact H].
    + split; [intros [H|H]; [left; exact H|right; right; exact H]|].
      intros [H|[(_ & _ & [x Hx])|H]]; [left; exact H|discriminate|right; exact H].
Qed.

Lemma dirichlet_values_is_Some (t : Qc) (I : nat) :
  is_Some (dirichlet_values mesh pb t !! I) <-> constrained mesh I.
Proof.
  unfold dirichlet_values, interpolate_boundary_values, constrained. cbv zeta.
  rewrite !interpolate_is_Some. rewrite lookup_empty.
  rewrite !Exists_exists. split.
  - intros [[[x Hx]|(d & Hd & HI & Hm & Hs)]|(d & Hd & HI & Hm & Hs)].
    + discriminate.
    + exists d. repeat split; try assumption. left.
      destruct (decide (bd_boundary_id d = 0%nat)) as [H0|H0]; [exact H0|].
      rewrite lookup_insert_ne, lookup_empty in Hs by congruence.
      destruct Hs as [x Hx]. discriminate.
    + exists d. repeat split; try assumption. right.
      destruct (decide (bd_boundary_id d = 3%nat)) as [H3|H3]; [right; exact H3|].
      rewrite lookup_insert_ne in Hs by congruence.
      destruct (decide (bd_boundary_id d = 2%nat)) as [H2|H2]; [left; exact H2|].
      rewrite lookup_insert_ne, lookup_empty in Hs by congruence.
      destruct Hs as [x Hx]. discriminate.
  - intros (d & Hd & HI & Hm & [H0|[H2|H3]]).
    + left. right. exists d. repeat split; try assumption.
      rewrite H0, lookup_insert_eq. eauto.
    + right. exists d. repeat split; try assumption.
      rewrite H2, lookup_insert_ne, lookup_insert_eq by congruence. eauto.
    + right. exists d. repeat split; try assumption.
      rewrite H3, lookup_insert_eq. eauto.
Qed.

(** The set of constrained DoFs does not depend on the time. *)
Lemma dirichlet_values_None (t t' : Qc) (I : nat) :
  dirichlet_values mesh pb t !! I = None ->
  dirichlet_values mesh pb t' !! I = None.
Proof.
  intros H. apply eq_None_not_Some. intros Hs.
  apply dirichlet_values_is_Some in Hs.
  apply (dirichlet_values_is_Some t) in Hs.
  rewrite H in Hs. destruct Hs as [x Hx]. discriminate.
Qed.

(** No pressure DoF is constrained. *)
Lemma dirichlet_values_pressure (t : Qc) (I : nat) :
  well_numbered mesh = true -> (n_u mesh <= I)%nat ->
  dirichlet_values mesh pb t !! I = None.
Proof.
  intros Hwf HI. apply eq_None_not_Some. intros Hs.
  apply dirichlet_values_is_Some in Hs. unfold constrained in Hs.
  rewrite Exists_exists in Hs. destruct Hs as (d & Hd & Hidx & Hm & _).
  apply list_elem_of_In in Hd.
  pose proof (well_numbered_boundary d Hwf Hd Hm). lia.
Qed.

(** ** One iteration of the time loop, taken apart *)

Lemma solve_time_step_Returned (st st3 : NavierStokes) :
  solve_time_step mesh lib st = Returned st3 ->
  exists k x P,
    gmres_solve lib (system_matrix st) (solution_owned st) (system_rhs st) P
    = Converged k x
    /\ st3 = with_solution
               (with_solution st (solution_owned st) (solution st)
                  (solution st) [Separator])
               x x (solution st)
               [TimeToInitializePreconditioner; TimeToSolve;
                ResultGMRESIterations k].
Proof.
  unfold solve_time_step, preconditioner_type, select_preconditioner. fields.
  match goal with
  | |- context [gmres_solve lib ?A ?x0 ?b ?P] =>
      destruct (gmres_solve lib A x0 b P) as [k x|k r x] eqn:Hs
  end; [|discriminate].
  intros H. injection H as <-. eexists k, x, _. split; [exact Hs|reflexivity].
Qed.

Lemma compute_forces_Some (st st' : NavierStokes) (c : Qc * Qc) :
  compute_forces mesh pb st = Some (st', c) ->
  exists forces,
    integrate_forces mesh pb (solution st) = Some forces
    /\ force_coefficients pb (getMeanVelocity pb (inlet_time st))
         (fst forces) (snd forces) = Some c
    /\ st' = with_solution st (solution_owned st) (solution st)
               (previous_solution st)
               [Separator; ComputingForces; DragLift (fst forces) (snd forces);
                Coeff (fst c) (snd c); Separator].
Proof.
  unfold compute_forces.
  destruct (integrate_forces mesh pb (solution st)) as [forces|];
    [|discriminate]. fields.
  destruct (force_coefficients pb _ (fst forces) (snd forces)) as [c'|] eqn:Hc;
    [|discriminate]. fields.
  intros H. injection H as <- <-. exists forces. auto.
Qed.

(** The coefficients depend on the solution and on the inlet time only. *)
Lemma coefficients_of_ext (st st' : NavierStokes) :
  solution st' = solution st -> inlet_time st' = inlet_time st ->
  coefficients_of mesh pb st' = coefficients_of mesh pb st.
Proof.
  intros Hs Ht. unfold coefficients_of, compute_forces. rewrite Hs, Ht.
  destruct (integrate_forces mesh pb (solution st)) as [forces|];
    [|reflexivity]. fields.
  destruct (force_coefficients pb _ (fst forces) (snd forces));
    reflexivity.
Qed.

Lemma coefficients_of_Some (st st' : NavierStokes) (c : Qc * Qc) :
  compute_forces mesh pb st = Some (st', c) ->
  coefficients_of mesh pb st = Some c.
Proof. unfold coefficients_of. intros ->. reflexivity. Qed.

Lemma advance_Returned (l l' : TimeLoop) :
  advance mesh pb lib l = Returned l' ->
  let t' := time l + deltat pb in
  let st2 := assemble_step mesh pb t'
               (set_time t' (ns l) [StepHeader (S (time_step l)) t']) in
  exists st3 ext,
    solve_time_step mesh lib st2 = Returned st3
    /\ system_matrix (ns l') = system_matrix st2
    /\ mass_matrix (ns l') = mass_matrix st2
    /\ convection_matrix (ns l') = convection_matrix st2
    /\ stiffness_matrix (ns l') = stiffness_matrix st2
    /\ system_rhs (ns l') = system_rhs st2
    /\ solution (ns l') = solution st3
    /\ inlet_time (ns l') = t'
    /\ time_step l' = S (time_step l)
    /\ time l' = t'
    /\ pcout (ns l') = pcout st3 ++ ext
    /\ forallb loop_message ext = true
    /\ (if decide (qc 1 10 < t')
        then exists c, coefficients_of mesh pb (ns l') = Some c
                       /\ c_D_max l' = Qcmax (fst c) (c_D_max l)
                       /\ c_L_min l' = Qcmin (snd c) (c_L_min l)
        else c_D_max l' = c_D_max l /\ c_L_min l' = c_L_min l).
Proof.
  unfold advance. cbv zeta.
  set (t' := time l + deltat pb).
  set (st2 := assemble_step mesh pb t' _).
  destruct (solve_time_step mesh lib st2) as [st3|e st|st|] eqn:Hsolve;
    try discriminate.
  pose proof (solve_time_step_Returned _ _ Hsolve) as (k & x & P & _ & Hst3).
  assert (Ht3 : inlet_time st3 = t').
  { rewrite Hst3. fields. unfold st2, assemble_step.
    destruct (decide (t' = deltat pb)); reflexivity. }
  assert (Hops : system_matrix st3 = system_matrix st2
                 /\ mass_matrix st3 = mass_matrix st2
                 /\ convection_matrix st3 = convection_matrix st2
                 /\ stiffness_matrix st3 = stiffness_matrix st2
                 /\ system_rhs st3 = system_rhs st2).
  { rewrite Hst3. fields. auto. }
  destruct Hops as (H1 & H2 & H3 & H4 & H5).
  set (st4 := if decide (t' = T pb - deltat pb)
              then compute_pressure_difference mesh lib st3 else st3).
  assert (H4' : system_matrix st4 = system_matrix st3
                /\ mass_matrix st4 = mass_matrix st3
                /\ convection_matrix st4 = convection_matrix st3
                /\ stiffness_matrix st4 = stiffness_matrix st3
                /\ system_rhs st4 = system_rhs st3
                /\ solution st4 = solution st3
                /\ inlet_time st4 = inlet_time st3
                /\ exists e4, pcout st4 = pcout st3 ++ e4
                              /\ forallb loop_message e4 = true).
  { unfold st4. destruct (decide (t' = T pb - deltat pb)).
    - fields. repeat split; eauto.
    - repeat split. exists []. rewrite app_nil_r. auto. }
  destruct H4' as (G1 & G2 & G3 & G4 & G5 & G6 & G7 & e4 & G8 & G9).
  clearbody st4 st2. clear Hst3.
  destruct (decide (qc 1 10 < t')) as [Hlate|Hearly].
  - destruct (compute_forces mesh pb st4) as [[st5 c]|] eqn:Hf; [|discriminate].
    pose proof (coefficients_of_Some _ _ _ Hf) as Hc.
    apply compute_forces_Some in Hf as (forces & _ & _ & Hst5).
    destruct (decide (S (time_step l) mod 20 = 0)%nat);
      intros H; injection H as <-; exists st3.
    + exists (e4 ++ [Separator; ComputingForces; DragLift (fst forces) (snd forces);
               Coeff (fst c) (snd c); Separator]
               ++ [Separator; OutputWritten (S (time_step l)); Separator]).
      rewrite Hst5. cbn [ns time_step time c_D_max c_L_min].
      unfold output, with_solution.
      cbn [system_matrix mass_matrix convection_matrix stiffness_matrix
           system_rhs solution inlet_time pcout solution_owned previous_solution].
      rewrite G1, G2, G3, G4, G5, G6, G7, G8, H1, H2, H3, H4, H5, Ht3.
      rewrite <- !app_assoc.
      repeat split; try reflexivity.
      * rewrite forallb_app, G9. reflexivity.
      * exists c. rewrite <- Hc. split; [|auto].
        apply coefficients_of_ext; fields; congruence.
    + exists (e4 ++ [Separator; ComputingForces; DragLift (fst forces) (snd forces);
               Coeff (fst c) (snd c); Separator]).
      rewrite Hst5. cbn [ns time_step time c_D_max c_L_min].
      unfold with_solution.
      cbn [system_matrix mass_matrix convection_matrix stiffness_matrix
           system_rhs solution inlet_time pcout solution_owned previous_solution].
      rewrite G1, G2, G3, G4, G5, G6, G7, G8, H1, H2, H3, H4, H5, Ht3.
      rewrite <- !app_assoc.
      repeat split; try reflexivity.
      * rewrite forallb_app, G9. reflexivity.
      * exists c. rewrite <- Hc. split; [|auto].
        apply coefficients_of_ext; fields; congruence.
  - destruct (decide (S (time_step l) mod 20 = 0)%nat);
      intros H; injection H as <-; exists st3.
    + exists (e4 ++ [Separator; OutputWritten (S (time_step l)); Separator]).
      cbn [ns time_step time c_D_max c_L_min].
      unfold output, with_solution.
      cbn [system_matrix mass_matrix convection_matrix stiffness_matrix
           system_rhs solution inlet_time pcout solution_owned previous_solution].
      rewrite G1, G2, G3, G4, G5, G6, G7, G8, H1, H2, H3, H4, H5, Ht3.
      rewrite <- !app_assoc.
      repeat split; try reflexivity.
      rewrite forallb_app, G9. reflexivity.
    + exists e4. cbn [ns time_step time c_D_max c_L_min].
      rewrite G1, G2, G3, G4, G5, G6, G7, G8, H1, H2, H3, H4, H5, Ht3.
      repeat split; try reflexivity. exact G9.
Qed.

(** ** The pressure-pressure block *)

Lemma phi_u_pressure (c : Cell) (i q : nat) :
  component (shape (fe_values c) i) = dim -> phi_u c i q = zero1.
Proof. apply velocity_value_pressure. Qed.

Lemma cell_mass_matrix_pressure (c : Cell) (i j : nat) :
  component (shape (fe_values c) i) = dim -> cell_mass_matrix mesh pb c i j = 0.
Proof.
  intros Hi. unfold cell_mass_matrix. apply sum_upto_zero. intros q _.
  rewrite phi_u_pressure, dot_zero_l by exact Hi. unfold Qcdiv. ring.
Qed.

Lemma cell_mass_matrix_bdf2_pressure (c : Cell) (i j : nat) :
  component (shape (fe_values c) i) = dim ->
  cell_mass_matrix_bdf2 mesh pb c i j = 0.
Proof.
  intros Hi. unfold cell_mass_matrix_bdf2. apply sum_upto_zero. intros q _.
  rewrite phi_u_pressure, dot_scale_l, dot_zero_l by exact Hi.
  unfold Qcdiv. ring.
Qed.

Lemma cell_stiffness_matrix_pressure (c : Cell) (i j : nat) :
  component (shape (fe_values c) i) = dim ->
  cell_stiffness_matrix mesh pb c i j = 0.
Proof.
  intros Hi. unfold cell_stiffness_matrix. apply sum_upto_zero. intros q _.
  unfold grad_phi_u. rewrite velocity_gradient_pressure by exact Hi.
  rewrite scalar_product2_zero_l. ring.
Qed.

Lemma convective_term_pressure (c : Cell) (u : Vector) (i j q : nat) :
  component (shape (fe_values c) i) = dim -> convective_term mesh c u i j q = 0.
Proof.
  intros Hi. unfold convective_term.
  rewrite phi_u_pressure, dot_zero_r by exact Hi. ring.
Qed.

Lemma temam_term_pressure (c : Cell) (u : Vector) (i j q : nat) :
  component (shape (fe_values c) i) = dim -> temam_term mesh c u i j q = 0.
Proof.
  intros Hi. unfold temam_term.
  rewrite (phi_u_pressure c i) , dot_zero_l by exact Hi. ring.
Qed.

Lemma cell_convection_matrix_pressure (u : Vector) (c : Cell) (i j : nat) :
  component (shape (fe_values c) i) = dim ->
  cell_convection_matrix mesh u c i j = 0.
Proof.
  intros Hi. unfold cell_convection_matrix. apply sum_upto_zero. intros q _.
  rewrite convective_term_pressure, temam_term_pressure by exact Hi. ring.
Qed.

Lemma cell_convection_time_step_pressure (u u_prev : Vector) (c : Cell)
    (i j : nat) :
  component (shape (fe_values c) i) = dim ->
  cell_convection_matrix_time_step mesh u u_prev c i j = 0.
Proof.
  intros Hi. rewrite cell_convection_time_step_interior.
  apply sum_upto_zero. intros q _. apply convective_term_pressure, Hi.
Qed.

Lemma cell_matrix_pressure (c : Cell) (i j : nat) :
  component (shape (fe_values c) i) = dim ->
  component (shape (fe_values c) j) = dim ->
  cell_matrix mesh c i j = 0.
Proof.
  intros Hi Hj. unfold cell_matrix. apply sum_upto_zero. intros q _.
  unfold div_phi_u. rewrite !velocity_divergence_pressure by assumption. ring.
Qed.

(** An assembled block whose cell entries vanish on pressure rows has a
    zero pressure-pressure block. *)
Lemma assemble_pressure_block (local : Cell -> nat -> nat -> Qc) :
  well_numbered mesh = true ->
  (forall c i j, component (shape (fe_values c) i) = dim ->
                 component (shape (fe_values c) j) = dim -> local c i j = 0) ->
  pressure_block_zero mesh (assemble_matrix mesh local).
Proof.
  intros Hwf Hlocal I J HI HJ. apply assemble_matrix_zero.
  intros c i j Hc Hi Hj Hidx Hjdx. apply Hlocal.
  - apply well_numbered_pressure; try assumption. lia.
  - apply well_numbered_pressure; try assumption. lia.
Qed.

Lemma assemble_pressure_block_zero (t : Qc) (st : NavierStokes) :
  well_numbered mesh = true ->
  pressure_block_zero mesh (system_matrix (assemble mesh pb t st))
  /\ pressure_block_zero mesh (mass_matrix (assemble mesh pb t st))
  /\ pressure_block_zero mesh (convection_matrix (assemble mesh pb t st)).
Proof.
  intros Hwf.
  assert (HB := assemble_pressure_block (cell_matrix mesh) Hwf
                  (fun c i j Hi Hj => cell_matrix_pressure c i j Hi Hj)).
  assert (HM := assemble_pressure_block (cell_mass_matrix mesh pb) Hwf
                  (fun c i j Hi _ => cell_mass_matrix_pressure c i j Hi)).
  assert (HC := assemble_pressure_block
                  (cell_convection_matrix mesh (solution st)) Hwf
                  (fun c i j Hi _ =>
                     cell_convection_matrix_pressure (solution st) c i j Hi)).
  assert (HA := assemble_pressure_block (cell_stiffness_matrix mesh pb) Hwf
                  (fun c i j Hi _ => cell_stiffness_matrix_pressure c i j Hi)).
  repeat split; try assumption.
  intros I J HI HJ. unfold assemble. fields.
  rewrite (dirichlet_values_pressure t I Hwf HI).
  unfold mat_add. rewrite HB, HM, HC, HA by assumption. ring.
Qed.

Lemma assemble_time_step_pressure_block_zero (t : Qc) (st : NavierStokes) :
  well_numbered mesh = true ->
  pressure_block_zero mesh (system_matrix st) ->
  pressure_block_zero mesh (mass_matrix st) ->
  pressure_block_zero mesh (convection_matrix st) ->
  pressure_block_zero mesh (system_matrix (assemble_time_step mesh pb t st))
  /\ pressure_block_zero mesh (mass_matrix (assemble_time_step mesh pb t st))
  /\ pressure_block_zero mesh
       (convection_matrix (assemble_time_step mesh pb t st)).
Proof.
  intros Hwf HS HM HC.
  assert (HC' := assemble_pressure_block
                   (cell_convection_matrix_time_step mesh (solution st)
                      (previous_solution st)) Hwf
                   (fun c i j Hi _ =>
                      cell_convection_time_step_pressure (solution st)
                        (previous_solution st) c i j Hi)).
  assert (HM' := assemble_pressure_block (cell_mass_matrix_bdf2 mesh pb) Hwf
                   (fun c i j Hi _ => cell_mass_matrix_bdf2_pressure c i j Hi)).
  assert (Hmass : pressure_block_zero mesh
                    (mass_matrix (assemble_time_step mesh pb t st))).
  { intros I J HI HJ. unfold assemble_time_step. fields.
    destruct (decide (t = -1)); [|apply HM; assumption].
    rewrite HM, HM' by assumption. ring. }
  repeat split; try assumption.
  intros I J HI HJ. unfold assemble_time_step. fields.
  rewrite (dirichlet_values_pressure t I Hwf HI).
  destruct (decide (t = -1)); unfold mat_add;
    rewrite ?HS, ?HM, ?HC, ?HC', ?HM' by assumption; ring.
Qed.

Lemma sparsity_pressure_block (I J : nat) :
  well_numbered mesh = true -> (n_u mesh <= I)%nat -> (n_u mesh <= J)%nat ->
  make_sparsity_pattern mesh coupling I J = false.
Proof.
  intros Hwf HI HJ. apply not_true_iff_false. intros H.
  unfold make_sparsity_pattern in H.
  apply existsb_exists in H as (c & Hc & H).
  apply existsb_exists in H as (i & Hi & H).
  apply existsb_exists in H as (j & Hj & H).
  apply in_seq in Hi. apply in_seq in Hj.
  apply andb_true_iff in H as [Hidx Hcoupled].
  apply (bool_decide_eq_true_1 _) in Hidx. destruct Hidx as [Hi' Hj'].
  rewrite (well_numbered_pressure c i), (well_numbered_pressure c j)
    in Hcoupled by (try assumption; lia).
  discriminate.
Qed.

Lemma assemble_step_pressure_block_zero (t : Qc) (st : NavierStokes) :
  well_numbered mesh = true ->
  pressure_block_zero mesh (system_matrix st) ->
  pressure_block_zero mesh (mass_matrix st) ->
  pressure_block_zero mesh (convection_matrix st) ->
  pressure_block_zero mesh (system_matrix (assemble_step mesh pb t st))
  /\ pressure_block_zero mesh (mass_matrix (assemble_step mesh pb t st))
  /\ pressure_block_zero mesh (convection_matrix (assemble_step mesh pb t st)).
Proof.
  intros Hwf HS HM HC. unfold assemble_step.
  destruct (decide (t = deltat pb)).
  - apply assemble_pressure_block_zero, Hwf.
  - apply assemble_time_step_pressure_block_zero; assumption.
Qed.

Lemma reachable_pressure_block_zero (l : TimeLoop) :
  well_numbered mesh = true -> reachable mesh pb lib l ->
  pressure_block_zero mesh (system_matrix (ns l))
  /\ pressure_block_zero mesh (mass_matrix (ns l))
  /\ pressure_block_zero mesh (convection_matrix (ns l)).
Proof.
  intros Hwf Hr. induction Hr as [|l l' Hr IH Hcond Hadv].
  - repeat split; intros I J _ _; reflexivity.
  - destruct IH as (HS & HM & HC).
    apply advance_Returned in Hadv. cbv zeta in Hadv.
    destruct Hadv as (st3 & ext & _ & E1 & E2 & E3 & _).
    rewrite E1, E2, E3.
    apply assemble_step_pressure_block_zero; assumption.
Qed.

(** C8.  With velocity DoFs numbered before pressure DoFs: the sparsity
    pattern of the system matrix has no pressure-pressure entry, no
    pressure DoF receives a Dirichlet value, and in every state the time
    loop reaches, and after every assembly started from such a state, the
    pressure-pressure block of the system matrix is zero. *)
Theorem C8_pressure_block_zero :
  well_numbered mesh = true ->
  (forall I J, (n_u mesh <= I)%nat -> (n_u mesh <= J)%nat ->
     make_sparsity_pattern mesh coupling I J = false)
  /\ (forall t I, (n_u mesh <= I)%nat -> dirichlet_values mesh pb t !! I = None)
  /\ (forall l, reachable mesh pb lib l ->
        pressure_block_zero mesh (system_matrix (ns l))
        /\ forall t out,
             pressure_block_zero mesh
               (system_matrix (assemble_step mesh pb t (set_time t (ns l) out)))).
Proof.
  intros Hwf. split; [|split].
  - intros I J HI HJ. apply sparsity_pressure_block; assumption.
  - intros t I HI. apply dirichlet_values_pressure; assumption.
  - intros l Hr.
    destruct (reachable_pressure_block_zero l Hwf Hr) as (HS & HM & HC).
    split; [exact HS|]. intros t out.
    apply assemble_step_pressure_block_zero; assumption.
Qed.

(** ** The system matrix as the sum of its blocks *)

Lemma not_constrained_None (t : Qc) (I : nat) :
  ~ constrained mesh I -> dirichlet_values mesh pb t !! I = None.
Proof.
  intros H. apply eq_None_not_Some. intros Hs. apply H.
  apply (dirichlet_values_is_Some t). exact Hs.
Qed.

Lemma constrained_Some (t : Qc) (I : nat) :
  constrained mesh I -> exists v, dirichlet_values mesh pb t !! I = Some v.
Proof. intros H. apply (dirichlet_values_is_Some t) in H. exact H. Qed.

Lemma assemble_sum_of_blocks (t : Qc) (st : NavierStokes) (I J : nat) :
  ~ constrained mesh I ->
  system_matrix (assemble mesh pb t st) I J
  = sum_of_blocks mesh (assemble mesh pb t st) I J.
Proof.
  intros HI. unfold sum_of_blocks, coupling_matrix, assemble. fields.
  rewrite (not_constrained_None t I HI). unfold mat_add. ring.
Qed.

Lemma assemble_time_step_sum_of_blocks (t : Qc) (st : NavierStokes) (I J : nat) :
  ~ constrained mesh I ->
  system_matrix st I J = sum_of_blocks mesh st I J ->
  system_matrix (assemble_time_step mesh pb t st) I J
  = sum_of_blocks mesh (assemble_time_step mesh pb t st) I J.
Proof.
  intros HI Hst. unfold sum_of_blocks in *. unfold assemble_time_step. fields.
  rewrite (not_constrained_None t I HI).
  destruct (decide (t = -1)); unfold mat_add; rewrite Hst; ring.
Qed.

(** Line 388 and line 512: the stale convection matrix leaves the system
    matrix before the fresh one enters. *)
Lemma assemble_time_step_swaps_convection (t : Qc) (st : NavierStokes)
    (I J : nat) :
  ~ constrained mesh I -> t <> -1 ->
  system_matrix (assemble_time_step mesh pb t st) I J
  = system_matrix st I J - convection_matrix st I J
    + convection_matrix (assemble_time_step mesh pb t st) I J.
Proof.
  intros HI Ht. unfold assemble_time_step. fields.
  rewrite (not_constrained_None t I HI).
  destruct (decide (t = -1)); [contradiction|]. unfold mat_add. ring.
Qed.

Lemma assemble_constrained_row (t : Qc) (st : NavierStokes) (I J : nat) :
  constrained mesh I -> I <> J ->
  system_matrix (assemble mesh pb t st) I J = 0.
Proof.
  intros HI HIJ. destruct (constrained_Some t I HI) as [v Hv].
  unfold assemble. fields. rewrite Hv.
  destruct (decide (I = J)); [contradiction|reflexivity].
Qed.

Lemma assemble_time_step_constrained_row (t : Qc) (st : NavierStokes)
    (I J : nat) :
  constrained mesh I -> I <> J ->
  system_matrix (assemble_time_step mesh pb t st) I J = 0.
Proof.
  intros HI HIJ. destruct (constrained_Some t I HI) as [v Hv].
  unfold assemble_time_step. fields. rewrite Hv.
  destruct (decide (I = J)); [contradiction|reflexivity].
Qed.

Lemma reachable_sum_of_blocks (l : TimeLoop) :
  reachable mesh pb lib l ->
  (time_step l = 0%nat -> time l = 0)
  /\ ((1 <= time_step l)%nat ->
      forall I J,
        (~ constrained mesh I ->
         system_matrix (ns l) I J = sum_of_blocks mesh (ns l) I J)
        /\ (constrained mesh I -> I <> J -> system_matrix (ns l) I J = 0)).
Proof.
  intros Hr. induction Hr as [|l l' Hr IH Hcond Hadv].
  - split; [reflexivity|]. fields. lia.
  - destruct IH as (Htime & IH).
    apply advance_Returned in Hadv. cbv zeta in Hadv.
    destruct Hadv as (st3 & ext & _ & E1 & E2 & E3 & E4 & _ & _ & _ & Ets & _).
    split; [rewrite Ets; discriminate|]. intros _ I J.
    unfold sum_of_blocks in *. rewrite E1, E2, E3, E4.
    unfold assemble_step.
    destruct (decide (time l + deltat pb = deltat pb)) as [Hfirst|Hlater].
    + split.
      * apply assemble_sum_of_blocks.
      * apply assemble_constrained_row.
    + assert (Hts : (1 <= time_step l)%nat).
      { destruct (time_step l) eqn:Hz; [|lia].
        exfalso. apply Hlater. rewrite (Htime eq_refl). ring. }
      split.
      * intros HI. apply assemble_time_step_sum_of_blocks; [exact HI|].
        fields. apply (IH Hts I J). exact HI.
      * apply assemble_time_step_constrained_row.
Qed.

(** C3, amended.  In every state the loop reaches after at least one
    step, the system matrix equals the sum of the mass, stiffness,
    convection and coupling blocks on every row that carries no Dirichlet
    condition; a constrained row holds nothing off its diagonal; and an
    assembly of a later step takes the stale convection matrix out of
    the system matrix and puts the fresh one in. *)
Theorem C3_system_is_sum_off_dirichlet_rows (l : TimeLoop) (I J : nat) :
  reachable mesh pb lib l -> (1 <= time_step l)%nat ->
  (~ constrained mesh I ->
   system_matrix (ns l) I J = sum_of_blocks mesh (ns l) I J)
  /\ (constrained mesh I -> I <> J -> system_matrix (ns l) I J = 0)
  /\ (forall t, ~ constrained mesh I -> t <> -1 ->
        system_matrix (assemble_time_step mesh pb t (ns l)) I J
        = system_matrix (ns l) I J - convection_matrix (ns l) I J
          + convection_matrix (assemble_time_step mesh pb t (ns l)) I J).
Proof.
  intros Hr Hts.
  destruct (reachable_sum_of_blocks l Hr) as (_ & H).
  destruct (H Hts I J) as (Hsum & Hrow).
  split; [exact Hsum|]. split; [exact Hrow|].
  intros t HI Ht. apply assemble_time_step_swaps_convection; assumption.
Qed.

(** ** What an iteration writes to [pcout] *)

Lemma advance_log (l l' : TimeLoop) :
  advance mesh pb lib l = Returned l' ->
  exists ext k,
    pcout (ns l') = pcout (ns l) ++ ext
    /\ forallb (fun m => loop_message m || is_reinitialize m) ext = true
    /\ (time l + deltat pb <> -1 -> forallb loop_message ext = true)
    /\ In (ResultGMRESIterations k) ext.
Proof.
  intros Hadv. apply advance_Returned in Hadv. cbv zeta in Hadv.
  destruct Hadv as (st3 & ext & Hsolve & _ & _ & _ & _ & _ & _ & _ & _ & _
                    & Hlog & Hext & _).
  apply solve_time_step_Returned in Hsolve as (k & x & P & _ & Hst3).
  assert (Hext' : forallb (fun m => loop_message m || is_reinitialize m) ext
                  = true).
  { eapply forallb_forall. intros m Hm.
    rewrite forallb_forall in Hext. rewrite (Hext m Hm). reflexivity. }
  rewrite Hlog, Hst3. unfold with_solution.
  cbn [pcout]. unfold assemble_step.
  destruct (decide (time l + deltat pb = deltat pb)) as [Hfirst|Hlater].
  - unfold assemble, set_time. cbn [pcout]. rewrite <- !app_assoc.
    eexists _, k. split; [reflexivity|].
    cbn [app forallb loop_message is_reinitialize orb andb In].
    split; [exact Hext'|]. split; [intros _; exact Hext|]. auto 10.
  - unfold assemble_time_step, set_time. cbn [pcout]. rewrite <- !app_assoc.
    eexists _, k. split; [reflexivity|].
    destruct (decide (time l + deltat pb = -1)) as [Hm1|Hm1];
      cbn [app forallb loop_message is_reinitialize orb andb In].
    + split; [exact Hext'|]. split; [contradiction|]. auto 10.
    + split; [exact Hext'|]. split; [intros _; exact Hext|]. auto 10.
Qed.

Lemma loop_message_not_reinitialize (ext : list Message) :
  forallb loop_message ext = true -> existsb is_reinitialize ext = false.
Proof.
  induction ext as [|m ext IH]; simpl; [reflexivity|].
  intros H. apply andb_true_iff in H as [Hm Hext].
  rewrite (IH Hext). destruct m; try reflexivity; discriminate.
Qed.

(** ** The time of the loop and the mass matrix *)

Lemma reachable_time (l : TimeLoop) :
  0 < deltat pb -> reachable mesh pb lib l ->
  (time_step l = 0%nat -> time l = 0)
  /\ ((1 <= time_step l)%nat -> deltat pb <= time l)
  /\ 0 <= time l.
Proof.
  intros Hdt Hr. induction Hr as [|l l' Hr IH Hcond Hadv].
  - fields. repeat split; [lia|apply Qcle_refl].
  - destruct IH as (_ & _ & Hpos).
    apply advance_Returned in Hadv. cbv zeta in Hadv.
    destruct Hadv as (st3 & ext & _ & _ & _ & _ & _ & _ & _ & _ & Ets & Et & _).
    rewrite Ets, Et.
    assert (Hle : deltat pb <= time l + deltat pb).
    { rewrite <- (Qcplus_0_l (deltat pb)) at 1.
      apply Qcplus_le_compat; [exact Hpos|apply Qcle_refl]. }
    repeat split; [discriminate|intros _; exact Hle|].
    apply Qcle_trans with (deltat pb); [apply Qclt_le_weak, Hdt|exact Hle].
Qed.

Lemma positive_not_sentinel (t : Qc) : 0 < t -> t <> -1.
Proof.
  intros Ht ->. revert Ht. apply Qcle_not_lt.
  apply (bool_decide_eq_true_1 _). vm_compute. reflexivity.
Qed.

Lemma next_time_not_sentinel (l : TimeLoop) :
  0 < deltat pb -> reachable mesh pb lib l -> time l + deltat pb <> -1.
Proof.
  intros Hdt Hr. apply positive_not_sentinel.
  destruct (reachable_time l Hdt Hr) as (_ & _ & Hpos).
  apply Qclt_le_trans with (0 + deltat pb).
  - rewrite Qcplus_0_l. exact Hdt.
  - apply Qcplus_le_compat; [exact Hpos|apply Qcle_refl].
Qed.

Lemma next_time_first_iff (l : TimeLoop) :
  0 < deltat pb -> reachable mesh pb lib l ->
  time l + deltat pb = deltat pb <-> time_step l = 0%nat.
Proof.
  intros Hdt Hr. destruct (reachable_time l Hdt Hr) as (H0 & H1 & _). split.
  - intros Heq. destruct (time_step l) as [|n] eqn:Hn; [reflexivity|].
    exfalso. assert (Ht : time l = 0).
    { rewrite <- (Qcplus_0_l (deltat pb)) in Heq at 2.
      apply (inj (fun x => x + deltat pb)) in Heq. exact Heq. }
    specialize (H1 ltac:(lia)). rewrite Ht in H1.
    exact (Qclt_not_le _ _ Hdt H1).
  - intros Hz. rewrite (H0 Hz). ring.
Qed.

Lemma reachable_mass_matrix (l : TimeLoop) :
  0 < deltat pb -> reachable mesh pb lib l ->
  existsb is_reinitialize (pcout (ns l)) = false
  /\ ((1 <= time_step l)%nat ->
      mass_matrix (ns l) = assemble_matrix mesh (cell_mass_matrix mesh pb)).
Proof.
  intros Hdt Hr. induction Hr as [|l l' Hr IH Hcond Hadv].
  - split; [reflexivity|]. fields. lia.
  - destruct IH as (Hlog & Hmass).
    pose proof (next_time_not_sentinel l Hdt Hr) as Hsent.
    pose proof (next_time_first_iff l Hdt Hr) as Hfirst.
    split.
    + apply advance_log in Hadv as (ext & k & Hext & _ & Hloop & _).
      rewrite Hext, existsb_app, Hlog.
      rewrite (loop_message_not_reinitialize ext (Hloop Hsent)). reflexivity.
    + intros _. apply advance_Returned in Hadv. cbv zeta in Hadv.
      destruct Hadv as (st3 & ext & _ & _ & E2 & _).
      rewrite E2. unfold assemble_step.
      destruct (decide (time l + deltat pb = deltat pb)) as [Hf|Hf].
      * reflexivity.
      * unfold assemble_time_step. cbn [mass_matrix].
        destruct (decide (time l + deltat pb = -1)); [contradiction|].
        cbn [set_time mass_matrix]. apply Hmass.
        destruct (time_step l) eqn:Hz; [|lia].
        exfalso. apply Hf, Hfirst. reflexivity.
Qed.

(** The increment of the gated branch is half the first-order mass. *)
Lemma cell_mass_matrix_bdf2_half (c : Cell) (i j : nat) :
  cell_mass_matrix_bdf2 mesh pb c i j = qc 1 2 * cell_mass_matrix mesh pb c i j.
Proof.
  unfold cell_mass_matrix_bdf2, cell_mass_matrix.
  rewrite <- sum_upto_scale. apply sum_upto_ext. intros q _.
  rewrite dot_scale_l. unfold Qcdiv. ring.
Qed.

(** C1, amended.  With a positive step size, in every state the loop
    reaches: the next iteration runs the full assembly exactly when no
    step has been taken yet (the step whose time is one step size); the
    time handed to [assemble_time_step] is never the sentinel -1, so
    the gated rebuild of the mass matrix never runs; and after the first
    step the mass matrix is the one [assemble] built with weight
    [1/deltat], unchanged. *)
Theorem C1_mass_keeps_first_step_weight (l : TimeLoop) :
  0 < deltat pb -> reachable mesh pb lib l ->
  (time l + deltat pb = deltat pb <-> time_step l = 0%nat)
  /\ time l + deltat pb <> -1
  /\ existsb is_reinitialize (pcout (ns l)) = false
  /\ ((1 <= time_step l)%nat ->
      forall I J,
        mass_matrix (ns l) I J
        = assemble_matrix mesh (cell_mass_matrix mesh pb) I J).
Proof.
  intros Hdt Hr.
  destruct (reachable_mass_matrix l Hdt Hr) as (Hlog & Hmass).
  split; [apply next_time_first_iff; assumption|].
  split; [apply next_time_not_sentinel; assumption|].
  split; [exact Hlog|].
  intros Hts I J. rewrite (Hmass Hts). reflexivity.
Qed.

(** ** The right-hand side of a later step *)

Lemma fold_cells_shift (rank : nat) (f : Cell -> Qc) (l : list Cell) (a : Qc) :
  fold_left (fun acc c => if is_locally_owned rank c then acc + f c else acc) l a
  = a + fold_left (fun acc c =>
                     if is_locally_owned rank c then acc + f c else acc) l 0.
Proof.
  revert a. induction l as [|c l IH]; intros a; simpl; [ring|].
  destruct (is_locally_owned rank c).
  - rewrite (IH (a + f c)), (IH (0 + f c)). ring.
  - apply IH.
Qed.

Lemma fold_cells_ext (rank : nat) (f g : Cell -> Qc) (l : list Cell) (a : Qc) :
  (forall c, In c l -> f c = g c) ->
  fold_left (fun acc c => if is_locally_owned rank c then acc + f c else acc) l a
  = fold_left (fun acc c =>
                 if is_locally_owned rank c then acc + g c else acc) l a.
Proof.
  revert a. induction l as [|c l IH]; intros a H; simpl; [reflexivity|].
  rewrite (H c) by (left; reflexivity).
  apply IH. intros c' Hc'. apply H. right. exact Hc'.
Qed.

Lemma fold_cells_scale (rank : nat) (f : Cell -> Qc) (x : Qc) (l : list Cell) :
  fold_left (fun acc c =>
               if is_locally_owned rank c then acc + f c * x else acc) l 0
  = fold_left (fun acc c =>
                 if is_locally_owned rank c then acc + f c else acc) l 0 * x.
Proof.
  induction l as [|c l IH]; simpl; [ring|].
  destruct (is_locally_owned rank c); [|exact IH].
  rewrite (fold_cells_shift rank (fun c => f c * x) l (0 + f c * x)).
  rewrite (fold_cells_shift rank f l (0 + f c)). rewrite IH. ring.
Qed.

Lemma fold_cells_sum (rank n : nat) (f : Cell -> nat -> Qc) (l : list Cell) :
  fold_left (fun acc c =>
               if is_locally_owned rank c then acc + sum_upto n (f c) else acc)
    l 0
  = sum_upto n (fun J =>
      fold_left (fun acc c =>
                   if is_locally_owned rank c then acc + f c J else acc) l 0).
Proof.
  induction l as [|c l IH]; simpl.
  - symmetry. apply sum_upto_zero. reflexivity.
  - destruct (is_locally_owned rank c); [|exact IH].
    rewrite (fold_cells_shift rank (fun c => sum_upto n (f c)) l), IH.
    symmetry. etransitivity.
    + apply sum_upto_ext. intros J _.
      apply (fold_cells_shift rank (fun c0 => f c0 J)).
    + rewrite sum_upto_plus, sum_upto_plus.
      rewrite (sum_upto_zero n (fun _ => 0)) by reflexivity. reflexivity.
Qed.

Lemma sum_upto_scale_r (n : nat) (a : Qc) (f : nat -> Qc) :
  sum_upto n (fun k => f k * a) = sum_upto n f * a.
Proof. induction n as [|n IH]; simpl; [ring|]. rewrite IH. ring. Qed.

(** The velocity at a quadrature point tested against a shape function. *)
Lemma current_velocity_dot (c : Cell) (u : Vector) (i q : nat) :
  dot (current_velocity_values mesh c u q) (phi_u c i q)
  = sum_upto (dofs_per_cell mesh) (fun j =>
      u (dof_indices c j) * dot (phi_u c j q) (phi_u c i q)).
Proof.
  unfold current_velocity_values, get_function_values.
  rewrite dot_sum1_l. apply sum_upto_ext. intros j _.
  rewrite dot_scale_l. reflexivity.
Qed.

(** The right-hand side of a cell is its first-order mass matrix applied
    to the current velocity. *)
Lemma cell_rhs_is_mass_times_velocity (c : Cell) (u : Vector) (i : nat) :
  cell_rhs_time_step mesh pb u c i
  = sum_upto (dofs_per_cell mesh) (fun j =>
      cell_mass_matrix mesh pb c i j * u (dof_indices c j)).
Proof.
  unfold cell_rhs_time_step, cell_mass_matrix, rhs_term.
  symmetry. etransitivity.
  { apply sum_upto_ext. intros j _. symmetry. apply sum_upto_scale_r. }
  cbv beta. rewrite sum_upto_swap. apply sum_upto_ext. intros q _.
  rewrite current_velocity_dot. unfold Qcdiv.
  rewrite <- !sum_upto_scale_r. apply sum_upto_ext. intros j _. cbv beta.
  rewrite (dot_comm (phi_u c j q)). ring.
Qed.

Lemma scatter_mass_times_solution (c : Cell) (u : Vector) (I : nat) :
  (forall j, (j < dofs_per_cell mesh)%nat ->
             (dof_indices c j < n_u mesh + n_p mesh)%nat) ->
  sum_upto (n_u mesh + n_p mesh) (fun J =>
    scatter_matrix (dofs_per_cell mesh) (dof_indices c)
      (cell_mass_matrix mesh pb c) I J * u J)
  = scatter_vector (dofs_per_cell mesh) (dof_indices c)
      (cell_rhs_time_step mesh pb u c) I.
Proof.
  intros Hrange. unfold scatter_matrix, scatter_vector.
  set (n := dofs_per_cell mesh). set (N := (n_u mesh + n_p mesh)%nat).
  set (m := cell_mass_matrix mesh pb c). set (idx := dof_indices c).
  transitivity
    (sum_upto N (fun J => sum_upto n (fun i => sum_upto n (fun j =>
       (if decide (idx i = I /\ idx j = J) then m i j else 0) * u J)))).
  { apply sum_upto_ext. intros J _. rewrite <- sum_upto_scale_r.
    apply sum_upto_ext. intros i _. rewrite <- sum_upto_scale_r. reflexivity. }
  rewrite sum_upto_swap. apply sum_upto_ext. intros i Hi.
  rewrite sum_upto_swap.
  destruct (decide (idx i = I)) as [HI|HI].
  - fold n idx. unfold m. rewrite (cell_rhs_is_mass_times_velocity c u i).
    apply sum_upto_ext. intros j Hj. fold n m idx.
    rewrite (sum_upto_ext N _
               (fun J => if decide (idx j = J) then m i j * u J else 0)).
    + apply (sum_upto_select N (idx j) (fun J => m i j * u J)).
      apply Hrange. exact Hj.
    + intros J _. destruct (decide (idx j = J)) as [HJ|HJ].
      * destruct (decide (idx i = I /\ idx j = J)) as [_|Hn]; [reflexivity|].
        exfalso. apply Hn. split; assumption.
      * destruct (decide (idx i = I /\ idx j = J)) as [[_ Hy]|_];
          [contradiction|ring].
  - apply sum_upto_zero. intros j _. apply sum_upto_zero. intros J _.
    destruct (decide (idx i = I /\ idx j = J)) as [[Hy _]|_];
      [contradiction|ring].
Qed.

Lemma mass_times_solution (u : Vector) (I : nat) :
  well_numbered mesh = true ->
  sum_upto (n_u mesh + n_p mesh) (fun J =>
    assemble_matrix mesh (cell_mass_matrix mesh pb) I J * u J)
  = assemble_vector mesh (cell_rhs_time_step mesh pb u) I.
Proof.
  intros Hwf. unfold assemble_matrix, assemble_vector.
  rewrite (sum_upto_ext _ _
             (fun J => sum_upto (mpi_size mesh) (fun r =>
                local_matrix mesh r (cell_mass_matrix mesh pb) I J * u J)))
    by (intros J _; symmetry; apply sum_upto_scale_r).
  rewrite sum_upto_swap. apply sum_upto_ext. intros r _.
  unfold local_matrix, local_vector.
  rewrite (sum_upto_ext _ _
             (fun J => fold_left (fun acc c =>
                if is_locally_owned r c
                then acc + scatter_matrix (dofs_per_cell mesh) (dof_indices c)
                             (cell_mass_matrix mesh pb c) I J * u J
                else acc) (cells mesh) 0)).
  2:{ intros J _. symmetry.
      apply (fold_cells_scale r
               (fun c => scatter_matrix (dofs_per_cell mesh) (dof_indices c)
                           (cell_mass_matrix mesh pb c) I J)). }
  rewrite <- (fold_cells_sum r (n_u mesh + n_p mesh)
                (fun c J => scatter_matrix (dofs_per_cell mesh) (dof_indices c)
                              (cell_mass_matrix mesh pb c) I J * u J)).
  apply fold_cells_ext. intros c Hc.
  apply scatter_mass_times_solution. intros j Hj.
  apply (well_numbered_cell c j Hwf Hc Hj).
Qed.

Lemma assemble_matrix_ext (local local' : Cell -> nat -> nat -> Qc) (I J : nat) :
  (forall c i j, local c i j = local' c i j) ->
  assemble_matrix mesh local I J = assemble_matrix mesh local' I J.
Proof.
  intros H. unfold assemble_matrix. apply sum_upto_ext. intros r _.
  unfold local_matrix.
  apply (fold_cells_ext r
           (fun c => scatter_matrix (dofs_per_cell mesh) (dof_indices c)
                       (local c) I J)
           (fun c => scatter_matrix (dofs_per_cell mesh) (dof_indices c)
                       (local' c) I J)).
  intros c _. unfold scatter_matrix.
  apply sum_upto_ext. intros i _. apply sum_upto_ext. intros j _.
  rewrite H. reflexivity.
Qed.

(** The convection matrix of a later step does not read the previous
    solution. *)
Lemma convection_time_step_independent (u p p' : Vector) (I J : nat) :
  assemble_matrix mesh (cell_convection_matrix_time_step mesh u p) I J
  = assemble_matrix mesh (cell_convection_matrix_time_step mesh u p') I J.
Proof.
  apply assemble_matrix_ext. intros c i j.
  rewrite !cell_convection_time_step_interior. reflexivity.
Qed.

Lemma first_nonzero_diagonal_ext (A B : Matrix) (first count : nat) :
  (forall K, A K K = B K K) ->
  first_nonzero_diagonal A first count = first_nonzero_diagonal B first count.
Proof.
  intros H. revert first. induction count as [|k IH]; intros first;
    [reflexivity|].
  cbn [first_nonzero_diagonal]. rewrite H, IH. reflexivity.
Qed.

Lemma block_diagonal_entry_ext (A B : Matrix) (I : nat) :
  (forall K, A K K = B K K) ->
  block_diagonal_entry mesh A I = block_diagonal_entry mesh B I.
Proof.
  intros H. unfold block_diagonal_entry, average_nonzero_diagonal_entry.
  rewrite !(first_nonzero_diagonal_ext A B) by exact H. reflexivity.
Qed.

(** C2, the code against its comment.  Line 458 announces the
    right-hand side of BDF2; the right-hand side that
    [assemble_time_step] builds on line 459 does not depend on the
    previous velocity field, which lines 431-434 fetch: on every row
    without a Dirichlet condition it is the first-order term, the mass
    matrix of weight [1/deltat], the one [assemble] built, applied to
    the current solution. *)
Theorem C2_rhs_uses_current_field_only (t : Qc) (st : NavierStokes)
    (prev : Vector) (I : nat) :
  well_numbered mesh = true ->
  system_rhs (assemble_time_step mesh pb t (with_previous st prev)) I
  = system_rhs (assemble_time_step mesh pb t st) I
  /\ (~ constrained mesh I ->
      system_rhs (assemble_time_step mesh pb t st) I
      = sum_upto (n_u mesh + n_p mesh) (fun J =>
          assemble_matrix mesh (cell_mass_matrix mesh pb) I J * solution st J)).
Proof.
  intros Hwf. split.
  - unfold assemble_time_step, with_previous. fields.
    destruct (dirichlet_values mesh pb t !! I) as [v|]; [|reflexivity].
    apply (f_equal (Qcmult v)). apply block_diagonal_entry_ext. intros K.
    unfold mat_add.
    rewrite (convection_time_step_independent (solution st) prev
               (previous_solution st)).
    reflexivity.
  - intros HI. rewrite (mass_times_solution (solution st) I Hwf).
    unfold assemble_time_step. fields.
    rewrite (not_constrained_None t I HI). reflexivity.
Qed.

(** ** Dirichlet enforcement applied twice *)

Lemma average_nonzero_diagonal_entry_pos (A : Matrix) (first count : nat) :
  0 < average_nonzero_diagonal_entry A first count.
Proof.
  unfold average_nonzero_diagonal_entry.
  revert first. induction count as [|k IH]; intros first;
    cbn [first_nonzero_diagonal].
  - apply (bool_decide_eq_true_1 _). vm_compute. reflexivity.
  - destruct (decide (A first first = 0)) as [Hz|Hnz]; [apply IH|].
    apply Qcabs_pos, Hnz.
Qed.

(** Setting constrained diagonal entries to the representative value
    leaves the representative value as it was. *)
Lemma average_after_clear_rows (A A' : Matrix) (con : nat -> bool) (d : Qc)
    (lo hi : nat) :
  0 < d ->
  (forall K, (lo <= K < hi)%nat -> A' K K = if con K then d else A K K) ->
  forall count first,
    (lo <= first)%nat -> (first + count <= hi)%nat ->
    average_nonzero_diagonal_entry A first count = d ->
    average_nonzero_diagonal_entry A' first count = d.
Proof.
  intros Hd HA'. unfold average_nonzero_diagonal_entry.
  induction count as [|k IH]; intros first Hlo Hhi;
    cbn [first_nonzero_diagonal]; [auto|].
  rewrite (HA' first) by lia.
  destruct (decide (A first first = 0)) as [Hz|Hnz].
  - intros Havg. destruct (con first).
    + destruct (decide (d = 0)) as [H0|_].
      * exfalso. rewrite H0 in Hd. exact (Qclt_not_eq _ _ Hd eq_refl).
      * apply Qcabs_of_pos, Hd.
    + rewrite Hz. destruct (decide (0 = 0)) as [_|Hn]; [|contradiction].
      apply IH; [lia|lia|exact Havg].
  - intros Havg. destruct (con first).
    + destruct (decide (d = 0)) as [H0|_].
      * exfalso. rewrite H0 in Hd. exact (Qclt_not_eq _ _ Hd eq_refl).
      * apply Qcabs_of_pos, Hd.
    + destruct (decide (A first first = 0)); [contradiction|exact Havg].
Qed.

Lemma block_diagonal_entry_idempotent (bv : gmap nat Qc) (s : LinearSystem)
    (I : nat) :
  block_diagonal_entry mesh (ls_matrix (apply_boundary_values mesh bv s)) I
  = block_diagonal_entry mesh (ls_matrix s) I.
Proof.
  unfold block_diagonal_entry.
  destruct (decide (I < n_u mesh)%nat) as [HI|HI].
  - apply (average_after_clear_rows (ls_matrix s) _
             (fun K => bool_decide (is_Some (bv !! K))) _ 0 (n_u mesh)).
    + apply average_nonzero_diagonal_entry_pos.
    + intros K HK. cbn [apply_boundary_values ls_matrix].
      destruct (bv !! K) as [v|] eqn:Hv.
      * rewrite bool_decide_eq_true_2 by eauto.
        destruct (decide (K = K)); [|contradiction].
        unfold block_diagonal_entry.
        destruct (decide (K < n_u mesh)%nat); [reflexivity|lia].
      * rewrite bool_decide_eq_false_2; [reflexivity|].
        intros [x Hx]. discriminate.
    + lia.
    + lia.
    + reflexivity.
  - apply (average_after_clear_rows (ls_matrix s) _
             (fun K => bool_decide (is_Some (bv !! K))) _
             (n_u mesh) (n_u mesh + n_p mesh)).
    + apply average_nonzero_diagonal_entry_pos.
    + intros K HK. cbn [apply_boundary_values ls_matrix].
      destruct (bv !! K) as [v|] eqn:Hv.
      * rewrite bool_decide_eq_true_2 by eauto.
        destruct (decide (K = K)); [|contradiction].
        unfold block_diagonal_entry.
        destruct (decide (K < n_u mesh)%nat); [lia|reflexivity].
      * rewrite bool_decide_eq_false_2; [reflexivity|].
        intros [x Hx]. discriminate.
    + lia.
    + lia.
    + reflexivity.
Qed.

Lemma apply_boundary_values_idempotent (bv : gmap nat Qc) (s : LinearSystem)
    (I J : nat) :
  ls_matrix (apply_boundary_values mesh bv (apply_boundary_values mesh bv s)) I J
  = ls_matrix (apply_boundary_values mesh bv s) I J
  /\ ls_rhs (apply_boundary_values mesh bv (apply_boundary_values mesh bv s)) I
     = ls_rhs (apply_boundary_values mesh bv s) I
  /\ ls_solution
       (apply_boundary_values mesh bv (apply_boundary_values mesh bv s)) I
     = ls_solution (apply_boundary_values mesh bv s) I.
Proof.
  pose proof (block_diagonal_entry_idempotent bv s I) as Hd.
  remember (apply_boundary_values mesh bv s) as once eqn:Honce.
  cbn [apply_boundary_values ls_matrix ls_rhs ls_solution].
  rewrite Hd, Honce.
  cbn [apply_boundary_values ls_matrix ls_rhs ls_solution].
  destruct (bv !! I) as [v|]; auto.
Qed.

(** The values written by the second interpolation, over walls and
    obstacle, are the ones that stay. *)
Lemma interpolate_last_write (fs : gmap nat Function) (mask : nat -> bool)
    (w : Qc) (I : nat) (l : list BoundaryDof) (bv : gmap nat Qc) :
  (forall d f, In d l -> fs !! bd_boundary_id d = Some f ->
               f (bd_point d) (bd_component d) = w) ->
  bv !! I = Some w
  \/ Exists (fun d => bd_index d = I /\ mask (bd_component d) = true
                      /\ is_Some (fs !! bd_boundary_id d)) l ->
  fold_left (fun bv d =>
    match fs !! bd_boundary_id d with
    | Some f =>
        if mask (bd_component d)
        then <[bd_index d := f (bd_point d) (bd_component d)]> bv
        else bv
    | None => bv
    end) l bv !! I = Some w.
Proof.
  unfold Function in *.
  revert bv. induction l as [|d l IH]; intros bv Hw H; cbn [fold_left].
  - destruct H as [H|H]; [exact H|]. apply Exists_nil in H. contradiction.
  - apply IH; [intros d' f Hd'; apply Hw; right; exact Hd'|].
    rewrite Exists_cons in H.
    destruct H as [H|[(Hidx & Hm & [f Hf])|H]].
    + left. destruct (fs !! bd_boundary_id d) as [f|] eqn:Hf; [|exact H].
      destruct (mask (bd_component d)); [|exact H].
      destruct (decide (bd_index d = I)) as [<-|Hne].
      * rewrite lookup_insert_eq. f_equal. apply Hw; [left; reflexivity|exact Hf].
      * rewrite lookup_insert_ne by exact Hne. exact H.
    + left. rewrite Hf, Hm, Hidx, lookup_insert_eq. f_equal.
      apply Hw; [left; reflexivity|exact Hf].
    + right. exact H.
Qed.

Lemma dirichlet_values_no_slip (t : Qc) (I : nat) :
  on_no_slip mesh I -> dirichlet_values mesh pb t !! I = Some 0.
Proof.
  intros H. unfold dirichlet_values, interpolate_boundary_values. cbv zeta.
  apply interpolate_last_write.
  - intros d f _ Hf.
    destruct (decide (bd_boundary_id d = 3%nat)) as [H3|H3].
    + rewrite H3, lookup_insert_eq in Hf. injection Hf as <-. reflexivity.
    + rewrite lookup_insert_ne in Hf by congruence.
      destruct (decide (bd_boundary_id d = 2%nat)) as [H2|H2].
      * rewrite H2, lookup_insert_eq in Hf. injection Hf as <-. reflexivity.
      * rewrite lookup_insert_ne, lookup_empty in Hf by congruence.
        discriminate.
  - right. unfold on_no_slip in H. rewrite Exists_exists in H.
    rewrite Exists_exists. destruct H as (d & Hd & Hidx & Hm & Hid).
    exists d. repeat split; try assumption.
    destruct Hid as [->| ->].
    + rewrite lookup_insert_ne, lookup_insert_eq by congruence. eauto.
    + rewrite lookup_insert_eq. eauto.
Qed.

Lemma interpolate_over (fs : gmap nat Function) (mask : nat -> bool)
    (I : nat) (bv0 : gmap nat Qc) (l : list BoundaryDof) (bv1 bv2 : gmap nat Qc) :
  bv1 !! I = match bv2 !! I with Some v => Some v | None => bv0 !! I end ->
  fold_left (fun bv d =>
    match fs !! bd_boundary_id d with
    | Some f =>
        if mask (bd_component d)
        then <[bd_index d := f (bd_point d) (bd_component d)]> bv
        else bv
    | None => bv
    end) l bv1 !! I
  = match fold_left (fun bv d =>
            match fs !! bd_boundary_id d with
            | Some f =>
                if mask (bd_component d)
                then <[bd_index d := f (bd_point d) (bd_component d)]> bv
                else bv
            | None => bv
            end) l bv2 !! I with
    | Some v => Some v
    | None => bv0 !! I
    end.
Proof.
  revert bv1 bv2. induction l as [|d l IH]; intros bv1 bv2 H; cbn [fold_left].
  - exact H.
  - apply IH. destruct (fs !! bd_boundary_id d) as [f|]; [|exact H].
    destruct (mask (bd_component d)); [|exact H].
    destruct (decide (bd_index d = I)) as [<-|Hne].
    + rewrite !lookup_insert_eq. reflexivity.
    + rewrite !lookup_insert_ne by exact Hne. exact H.
Qed.

(** The map of the engine is the inflow map overridden by the no-slip
    map. *)
Lemma dirichlet_values_merge (t : Qc) (I : nat) :
  dirichlet_values mesh pb t !! I
  = match no_slip_values mesh !! I with
    | Some v => Some v
    | None => inflow_values mesh pb t !! I
    end.
Proof.
  unfold dirichlet_values, no_slip_values, interpolate_boundary_values.
  cbv zeta. apply interpolate_over. rewrite lookup_empty. reflexivity.
Qed.

Lemma no_slip_values_Some (I : nat) :
  on_no_slip mesh I -> no_slip_values mesh !! I = Some 0.
Proof.
  intros H. unfold no_slip_values, interpolate_boundary_values.
  apply interpolate_last_write.
  - intros d f _ Hf.
    destruct (decide (bd_boundary_id d = 3%nat)) as [H3|H3].
    + rewrite H3, lookup_insert_eq in Hf. injection Hf as <-. reflexivity.
    + rewrite lookup_insert_ne in Hf by congruence.
      destruct (decide (bd_boundary_id d = 2%nat)) as [H2|H2].
      * rewrite H2, lookup_insert_eq in Hf. injection Hf as <-. reflexivity.
      * rewrite lookup_insert_ne, lookup_empty in Hf by congruence.
        discriminate.
  - right. unfold on_no_slip in H. rewrite Exists_exists in H.
    rewrite Exists_exists. destruct H as (d & Hd & Hidx & Hm & Hid).
    exists d. repeat split; try assumption.
    destruct Hid as [->| ->].
    + rewrite lookup_insert_ne, lookup_insert_eq by congruence. eauto.
    + rewrite lookup_insert_eq. eauto.
Qed.

Lemma no_slip_values_None (I : nat) :
  ~ on_no_slip mesh I -> no_slip_values mesh !! I = None.
Proof.
  intros H. apply eq_None_not_Some. intros Hs. apply H.
  unfold no_slip_values, interpolate_boundary_values in Hs.
  apply interpolate_is_Some in Hs. rewrite lookup_empty in Hs.
  destruct Hs as [[x Hx]|Hs]; [discriminate|].
  unfold on_no_slip. rewrite Exists_exists in *.
  destruct Hs as (d & Hd & HI & Hm & Hs).
  exists d. repeat split; try assumption.
  destruct (decide (bd_boundary_id d = 3%nat)) as [H3|H3]; [right; exact H3|].
  rewrite lookup_insert_ne in Hs by congruence.
  destruct (decide (bd_boundary_id d = 2%nat)) as [H2|H2]; [left; exact H2|].
  rewrite lookup_insert_ne, lookup_empty in Hs by congruence.
  destruct Hs as [x Hx]. discriminate.
Qed.

(** The two sets enforced one after the other give the system that one
    enforcement of the engine's map gives. *)
Lemma enforce_in_sequence_merged (t : Qc) (s : LinearSystem) (I J : nat) :
  ls_matrix (enforce_in_sequence mesh pb t s) I J
  = ls_matrix (apply_boundary_values mesh (dirichlet_values mesh pb t) s) I J
  /\ ls_rhs (enforce_in_sequence mesh pb t s) I
     = ls_rhs (apply_boundary_values mesh (dirichlet_values mesh pb t) s) I
  /\ ls_solution (enforce_in_sequence mesh pb t s) I
     = ls_solution (apply_boundary_values mesh (dirichlet_values mesh pb t) s) I.
Proof.
  unfold enforce_in_sequence.
  pose proof (block_diagonal_entry_idempotent (inflow_values mesh pb t) s I)
    as Hd.
  remember (apply_boundary_values mesh (inflow_values mesh pb t) s) as once
    eqn:Honce.
  cbn [apply_boundary_values ls_matrix ls_rhs ls_solution].
  rewrite Hd, Honce, dirichlet_values_merge.
  cbn [apply_boundary_values ls_matrix ls_rhs ls_solution].
  destruct (no_slip_values mesh !! I) as [w|]; [auto|].
  destruct (inflow_values mesh pb t !! I) as [v|]; auto.
Qed.

Lemma enforce_in_sequence_idempotent (t : Qc) (s : LinearSystem) (I J : nat) :
  ls_matrix (enforce_in_sequence mesh pb t (enforce_in_sequence mesh pb t s)) I J
  = ls_matrix (enforce_in_sequence mesh pb t s) I J
  /\ ls_rhs (enforce_in_sequence mesh pb t (enforce_in_sequence mesh pb t s)) I
     = ls_rhs (enforce_in_sequence mesh pb t s) I
  /\ ls_solution (enforce_in_sequence mesh pb t (enforce_in_sequence mesh pb t s)) I
     = ls_solution (enforce_in_sequence mesh pb t s) I.
Proof.
  pose proof (enforce_in_sequence_merged t (enforce_in_sequence mesh pb t s) I J)
    as (-> & -> & ->).
  pose proof (enforce_in_sequence_merged t s I J) as (M1 & M2 & M3).
  pose proof (block_diagonal_entry_idempotent (no_slip_values mesh)
                (apply_boundary_values mesh (inflow_values mesh pb t) s) I) as D2.
  pose proof (block_diagonal_entry_idempotent (inflow_values mesh pb t) s I)
    as D1.
  fold (enforce_in_sequence mesh pb t s) in D2.
  remember (enforce_in_sequence mesh pb t s) as twice eqn:Htwice.
  cbn [apply_boundary_values ls_matrix ls_rhs ls_solution].
  rewrite D2, D1. rewrite M1, M2, M3.
  cbn [apply_boundary_values ls_matrix ls_rhs ls_solution].
  destruct (dirichlet_values mesh pb t !! I) as [v|]; auto.
Qed.

(** C7, amended.  Enforcing one and the same Dirichlet map a second time
    changes no matrix entry, no right-hand side entry and no solution
    entry.  Enforcing the inflow set and then the no-slip sets gives the
    system that one enforcement of the map of the engine gives (the
    inflow values overridden by the no-slip values), and this sequence
    enforced again changes nothing, also on the system either assembly
    leaves.  The sequence does not keep what the inflow pass wrote: a
    DoF of a wall or of the obstacle ends with the value zero, whatever
    the inflow set prescribed there; on every other DoF the row, the
    right-hand side and the solution of the inflow pass stay. *)
Theorem C7_enforcement_in_sequence (bv : gmap nat Qc) (s : LinearSystem)
    (t : Qc) (st : NavierStokes) (I J : nat) :
  (ls_matrix (apply_boundary_values mesh bv (apply_boundary_values mesh bv s))
     I J
   = ls_matrix (apply_boundary_values mesh bv s) I J
   /\ ls_rhs (apply_boundary_values mesh bv (apply_boundary_values mesh bv s)) I
      = ls_rhs (apply_boundary_values mesh bv s) I
   /\ ls_solution
        (apply_boundary_values mesh bv (apply_boundary_values mesh bv s)) I
      = ls_solution (apply_boundary_values mesh bv s) I)
  /\ (ls_matrix (enforce_in_sequence mesh pb t s) I J
      = ls_matrix (apply_boundary_values mesh (dirichlet_values mesh pb t) s) I J
      /\ ls_rhs (enforce_in_sequence mesh pb t s) I
         = ls_rhs (apply_boundary_values mesh (dirichlet_values mesh pb t) s) I
      /\ ls_solution (enforce_in_sequence mesh pb t s) I
         = ls_solution
             (apply_boundary_values mesh (dirichlet_values mesh pb t) s) I)
  /\ (ls_matrix
        (enforce_in_sequence mesh pb t (enforce_in_sequence mesh pb t s)) I J
      = ls_matrix (enforce_in_sequence mesh pb t s) I J
      /\ ls_rhs
           (enforce_in_sequence mesh pb t (enforce_in_sequence mesh pb t s)) I
         = ls_rhs (enforce_in_sequence mesh pb t s) I
      /\ ls_solution
           (enforce_in_sequence mesh pb t (enforce_in_sequence mesh pb t s)) I
         = ls_solution (enforce_in_sequence mesh pb t s) I)
  /\ (let st' := assemble_step mesh pb t st in
      let again :=
        enforce_in_sequence mesh pb t
          (mkLinearSystem (system_matrix st') (solution st') (system_rhs st')) in
      ls_matrix again I J = system_matrix st' I J
      /\ ls_rhs again I = system_rhs st' I
      /\ ls_solution again I = solution st' I)
  /\ (on_no_slip mesh I ->
      dirichlet_values mesh pb t !! I = Some 0
      /\ ls_rhs (enforce_in_sequence mesh pb t s) I = 0
      /\ ls_solution (enforce_in_sequence mesh pb t s) I = 0)
  /\ (~ on_no_slip mesh I ->
      dirichlet_values mesh pb t !! I = inflow_values mesh pb t !! I
      /\ ls_matrix (enforce_in_sequence mesh pb t s) I J
         = ls_matrix (apply_boundary_values mesh (inflow_values mesh pb t) s) I J
      /\ ls_rhs (enforce_in_sequence mesh pb t s) I
         = ls_rhs (apply_boundary_values mesh (inflow_values mesh pb t) s) I
      /\ ls_solution (enforce_in_sequence mesh pb t s) I
         = ls_solution
             (apply_boundary_values mesh (inflow_values mesh pb t) s) I).
Proof.
  split; [apply apply_boundary_values_idempotent|].
  split; [apply enforce_in_sequence_merged|].
  split; [apply enforce_in_sequence_idempotent|].
  split; [|split].
  - cbv zeta.
    match goal with
    | |- context [enforce_in_sequence mesh pb t ?s0] =>
        pose proof (enforce_in_sequence_merged t s0 I J) as (-> & -> & ->)
    end.
    unfold assemble_step.
    destruct (decide (t = deltat pb)).
    + unfold assemble.
      cbn [system_matrix solution system_rhs].
      match goal with
      | |- context [apply_boundary_values mesh ?bv
                      {| ls_matrix := ls_matrix (apply_boundary_values mesh ?bv ?s);
                         ls_solution := _; ls_rhs := _ |}] =>
          exact (apply_boundary_values_idempotent bv s I J)
      end.
    + unfold assemble_time_step.
      cbn [system_matrix solution system_rhs].
      match goal with
      | |- context [apply_boundary_values mesh ?bv
                      {| ls_matrix := ls_matrix (apply_boundary_values mesh ?bv ?s);
                         ls_solution := _; ls_rhs := _ |}] =>
          exact (apply_boundary_values_idempotent bv s I J)
      end.
  - intros H. split; [apply dirichlet_values_no_slip, H|].
    unfold enforce_in_sequence.
    cbn [apply_boundary_values ls_rhs ls_solution].
    rewrite (no_slip_values_Some I H). split; [ring|reflexivity].
  - intros H. rewrite dirichlet_values_merge.
    unfold enforce_in_sequence.
    cbn [apply_boundary_values ls_matrix ls_rhs ls_solution].
    rewrite (no_slip_values_None I H). auto.
Qed.

(** ** The linear solve *)

Lemma check_success (step : N) (r : Qc) : check step r = success <-> r <= tol.
Proof.
  unfold check. destruct (decide (r <= tol)) as [H|H].
  - tauto.
  - destruct (decide (maxiter <= step)%N); split; intros; try discriminate;
      contradiction.
Qed.

Lemma check_failure (step : N) (r : Qc) :
  check step r = failure <-> tol < r /\ (maxiter <= step)%N.
Proof.
  unfold check. destruct (decide (r <= tol)) as [H|H].
  - split; [discriminate|]. intros [Hlt _].
    exfalso. exact (Qclt_not_le _ _ Hlt H).
  - apply Qcnot_le_lt in H.
    destruct (decide (maxiter <= step)%N); split; intros; try discriminate;
      try tauto.
Qed.

Lemma gmres_loop_unfold (method : N -> Vector * Qc) (fuel : nat) (step : N) :
  gmres_loop method fuel step
  = match check step (snd (method step)) with
    | success => Converged step (fst (method step))
    | failure => NoConvergence step (snd (method step)) (fst (method step))
    | iterate =>
        match fuel with
        | O => NoConvergence step (snd (method step)) (fst (method step))
        | S fuel' => gmres_loop method fuel' (step + 1)%N
        end
    end.
Proof. destruct fuel; reflexivity. Qed.

Lemma gmres_loop_spec (method : N -> Vector * Qc) (fuel : nat) (step : N) :
  (step + N.of_nat fuel = maxiter)%N ->
  match gmres_loop method fuel step with
  | Converged k x =>
      (k <= maxiter)%N /\ snd (method k) <= tol /\ x = fst (method k)
  | NoConvergence k r x =>
      k = maxiter /\ r = snd (method k) /\ tol < r
  end.
Proof.
  revert step. induction fuel as [|fuel IH]; intros step Hfuel;
    rewrite gmres_loop_unfold.
  - destruct (check step (snd (method step))) eqn:Hc.
    + exfalso. unfold check in Hc.
      destruct (decide (snd (method step) <= tol)); [discriminate|].
      destruct (decide (maxiter <= step)%N); [discriminate|lia].
    + apply check_success in Hc. split; [lia|split; [exact Hc|reflexivity]].
    + apply check_failure in Hc as [Hr Hs].
      split; [lia|split; [reflexivity|exact Hr]].
  - destruct (check step (snd (method step))) eqn:Hc.
    + apply IH. lia.
    + apply check_success in Hc. split; [lia|split; [exact Hc|reflexivity]].
    + apply check_failure in Hc as [Hr Hs].
      split; [lia|split; [reflexivity|exact Hr]].
Qed.

Lemma gmres_solve_spec (A : Matrix) (x0 b : Vector) (P : Preconditioner) :
  match gmres_solve lib A x0 b P with
  | Converged k x =>
      (k <= maxiter)%N /\ snd (krylov lib A x0 b P k) <= tol
      /\ x = fst (krylov lib A x0 b P k)
  | NoConvergence k r x =>
      k = maxiter /\ r = snd (krylov lib A x0 b P k) /\ tol < r
  end.
Proof.
  unfold gmres_solve. apply gmres_loop_spec.
  rewrite N2Nat.id. reflexivity.
Qed.



(** ** The force integrals *)

Lemma Qc_square_nonneg (x : Qc) : 0 <= x * x.
Proof.
  destruct (Qclt_le_dec x 0) as [Hneg|Hpos].
  - replace (x * x) with ((- x) * (- x)) by ring.
    assert (H : 0 <= - x).
    { apply Qclt_le_weak. apply Qclt_minus_iff in Hneg.
      rewrite Qcplus_0_l in Hneg. exact Hneg. }
    rewrite <- (Qcmult_0_l (- x)). apply Qcmult_le_compat_r; exact H.
  - rewrite <- (Qcmult_0_l x). apply Qcmult_le_compat_r; exact Hpos.
Qed.

Lemma Qc_sum_squares_zero (a b : Qc) :
  a * a + b * b = 0 <-> a = 0 /\ b = 0.
Proof.
  split.
  - intros H.
    assert (Ha : a * a = 0).
    { apply Qcle_antisym; [|apply Qc_square_nonneg].
      rewrite <- H. rewrite <- (Qcplus_0_r (a * a)) at 1.
      apply Qcplus_le_compat; [apply Qcle_refl|apply Qc_square_nonneg]. }
    assert (Hb : b * b = 0).
    { rewrite Ha, Qcplus_0_l in H. exact H. }
    split.
    + destruct (Qcmult_integral _ _ Ha); assumption.
    + destruct (Qcmult_integral _ _ Hb); assumption.
  - intros [-> ->]. ring.
Qed.

Lemma tangent_norm_square_zero (f : Face) (q : nat) :
  tangent_norm_square f q = 0 <-> normal_parallel_to_z f q.
Proof.
  unfold tangent_norm_square, normal_parallel_to_z, norm_square, dot, opp1.
  cbn [t_x t_y t_z].
  set (Nx := t_x (normal_vector (fe_face_values f) q)).
  set (Ny := t_y (normal_vector (fe_face_values f) q)).
  replace (- Ny * - Ny + - - Nx * - - Nx + 0 * 0) with (Ny * Ny + Nx * Nx)
    by ring.
  rewrite Qc_sum_squares_zero. tauto.
Qed.

Lemma traction_step_Some (c : Cell) (f : Face) (u : Vector) (q : nat)
    (acc : Qc * Qc) :
  is_Some (traction_step mesh pb c f u q acc) <-> tangent_norm_square f q <> 0.
Proof.
  unfold traction_step, tangent_norm_square, checked_div1. cbv zeta.
  match goal with
  | |- context [decide (?x = 0)] => destruct (decide (x = 0)) as [Hz|Hz]
  end; cbn [mbind option_bind].
  - split; [intros [x Hx]; discriminate|contradiction].
  - split; [intros _; exact Hz|eauto].
Qed.

(** A fold whose step succeeds exactly on the elements that are fine. *)
Lemma fold_option_Some {A B : Type} (g : option A -> B -> option A)
    (ok : B -> Prop) (l : list B) (init : option A) :
  (forall acc x, is_Some (g acc x) <-> is_Some acc /\ ok x) ->
  is_Some (fold_left g l init) <-> is_Some init /\ Forall ok l.
Proof.
  intros Hg. revert init. induction l as [|x l IH]; intros init;
    cbn [fold_left].
  - split; [intros H; split; [exact H|constructor]|tauto].
  - rewrite IH, Hg, Forall_cons. tauto.
Qed.

Lemma face_forces_Some (c : Cell) (u : Vector) (acc : option (Qc * Qc))
    (f : Face) :
  is_Some (face_forces mesh pb c u acc f) <-> is_Some acc /\ regular_face mesh f.
Proof.
  unfold face_forces, regular_face. destruct (on_obstacle f).
  - rewrite (fold_option_Some _
               (fun q => ~ normal_parallel_to_z f q)).
    + tauto.
    + intros a q. destruct a as [a|]; cbn [mbind option_bind].
      * rewrite traction_step_Some, tangent_norm_square_zero.
        split; [intros H; split; [eauto|exact H]|tauto].
      * split; [intros [x Hx]; discriminate|intros [[x Hx] _]; discriminate].
  - split; [intros H; split; [exact H|discriminate]|tauto].
Qed.

Lemma cell_forces_Some (rank : nat) (u : Vector) (acc : option (Qc * Qc))
    (c : Cell) :
  is_Some (cell_forces mesh pb rank u acc c)
  <-> is_Some acc /\ regular_cell mesh rank c.
Proof.
  unfold cell_forces, regular_cell.
  destruct (is_locally_owned rank c);
    [|split; [intros H; split; [exact H|discriminate]|tauto]].
  destruct (at_boundary c);
    [|split; [intros H; split; [exact H|discriminate]|tauto]].
  rewrite (fold_option_Some _ (regular_face mesh)).
  - tauto.
  - intros a f. apply face_forces_Some.
Qed.

Lemma local_forces_Some (rank : nat) (u : Vector) :
  is_Some (local_forces mesh pb rank u)
  <-> Forall (regular_cell mesh rank) (cells mesh).
Proof.
  unfold local_forces.
  rewrite (fold_option_Some _ (regular_cell mesh rank)).
  - split; [tauto|intros H; split; [eauto|exact H]].
  - intros a c. apply cell_forces_Some.
Qed.

Lemma integrate_forces_Some (u : Vector) :
  is_Some (integrate_forces mesh pb u)
  <-> Forall (fun rank => Forall (regular_cell mesh rank) (cells mesh))
        (seq 0 (mpi_size mesh)).
Proof.
  unfold integrate_forces.
  rewrite (fold_option_Some _
             (fun rank => Forall (regular_cell mesh rank) (cells mesh))).
  - split; [tauto|intros H; split; [eauto|exact H]].
  - intros a rank. rewrite <- (local_forces_Some rank u).
    destruct a as [a|]; cbn [mbind option_bind].
    + destruct (local_forces mesh pb rank u) as [x|]; cbn [mbind option_bind].
      * split; [intros _; split; eauto|intros _; eauto].
      * split; [intros [x Hx]; discriminate|intros [_ [x Hx]]; discriminate].
    + split; [intros [x Hx]; discriminate|intros [[x Hx] _]; discriminate].
Qed.

(** C10.  At a quadrature point of an obstacle face the traction divides
    by the squared norm of the tangent (ny, -nx, 0), which is zero
    exactly when the normal is parallel to the z axis; the force
    integrals are defined (no division by zero occurs) exactly when no
    obstacle face of a boundary cell has such a normal at a quadrature
    point. *)
Theorem C10_forces_defined_iff_normals_regular (u : Vector) :
  (forall c f q acc,
     (traction_step mesh pb c f u q acc = None
      <-> tangent_norm_square f q = 0)
     /\ (tangent_norm_square f q = 0 <-> normal_parallel_to_z f q))
  /\ (is_Some (integrate_forces mesh pb u) <-> obstacle_normals_regular mesh).
Proof.
  split.
  - intros c f q acc. split; [|apply tangent_norm_square_zero].
    pose proof (traction_step_Some c f u q acc) as H.
    destruct (traction_step mesh pb c f u q acc) as [x|].
    + split; [discriminate|]. intros Hz. exfalso.
      apply (proj1 H); [eauto|exact Hz].
    + split; [intros _|reflexivity].
      destruct (decide (tangent_norm_square f q = 0)) as [Hz|Hz]; [exact Hz|].
      apply H in Hz. destruct Hz as [x Hx]. discriminate.
  - rewrite integrate_forces_Some. unfold obstacle_normals_regular.
    rewrite Forall_forall. split.
    + intros H c f q Hc Hrank Hb Hf Hobs Hq.
      specialize (H (subdomain_id c)).
      rewrite list_elem_of_In, in_seq in H. specialize (H ltac:(lia)).
      rewrite Forall_forall in H. apply list_elem_of_In in Hc.
      specialize (H c Hc). unfold regular_cell in H.
      specialize (H ltac:(unfold is_locally_owned; apply bool_decide_eq_true_2;
                          reflexivity) Hb).
      rewrite Forall_forall in H. apply list_elem_of_In in Hf.
      specialize (H f Hf Hobs). rewrite Forall_forall in H.
      apply H. rewrite list_elem_of_In, in_seq. lia.
    + intros H rank Hrank. rewrite list_elem_of_In, in_seq in Hrank.
      rewrite Forall_forall. intros c Hc Hown Hb.
      rewrite Forall_forall. intros f Hf Hobs.
      rewrite Forall_forall. intros q Hq.
      rewrite list_elem_of_In, in_seq in Hq.
      rewrite list_elem_of_In in Hc. rewrite list_elem_of_In in Hf.
      unfold is_locally_owned in Hown.
      apply (bool_decide_eq_true_1 _) in Hown.
      apply (H c f q); try assumption; lia.
Qed.

(** ** The final summary *)

Lemma summary_lines_app (a b : list Message) :
  summary_lines (a ++ b) = summary_lines a ++ summary_lines b.
Proof. unfold summary_lines. apply flat_map_app. Qed.

End Properties.

(** * The small instance, run *)

(** Closed facts about rationals, booleans and lists of them, by
    evaluation. *)
Ltac by_computation :=
  apply (bool_decide_eq_true_1 _); vm_compute; reflexivity.

Lemma demo_next_reachable (l : TimeLoop) :
  reachable Demo.mesh Demo.pb Demo.lib l ->
  loop_condition Demo.pb l ->
  is_returned (advance Demo.mesh Demo.pb Demo.lib l) = true ->
  advance Demo.mesh Demo.pb Demo.lib l = Returned (Demo.next l)
  /\ reachable Demo.mesh Demo.pb Demo.lib (Demo.next l).
Proof.
  intros Hr Hc Hret. unfold Demo.next.
  destruct (advance Demo.mesh Demo.pb Demo.lib l) as [l'| | |] eqn:Hadv;
    try discriminate.
  split; [reflexivity|]. exact (reachable_advance _ _ _ l l' Hr Hc Hadv).
Qed.

Lemma demo_l1_reachable : reachable Demo.mesh Demo.pb Demo.lib Demo.l1.
Proof.
  apply demo_next_reachable.
  - apply reachable_initial.
  - by_computation.
  - vm_compute. reflexivity.
Qed.

Lemma demo_l2_reachable : reachable Demo.mesh Demo.pb Demo.lib Demo.l2.
Proof.
  apply demo_next_reachable.
  - exact demo_l1_reachable.
  - by_computation.
  - vm_compute. reflexivity.
Qed.

Lemma demo_l3_reachable : reachable Demo.mesh Demo.pb Demo.lib Demo.l3.
Proof.
  apply demo_next_reachable.
  - exact demo_l2_reachable.
  - by_computation.
  - vm_compute. reflexivity.
Qed.

Lemma demo_constrained_0 : constrained Demo.mesh 0.
Proof.
  unfold constrained. apply Exists_cons_hd. cbn. auto.
Qed.

Lemma demo_not_constrained_1 : ~ constrained Demo.mesh 1.
Proof.
  unfold constrained. cbn [Demo.mesh boundary_dofs]. intros H.
  repeat (apply Exists_cons in H as [(Hidx & _)|H]; [discriminate Hidx|]).
  apply Exists_nil in H. exact H.
Qed.

(** ** C1 *)

(** C1, as stated, fails.  Three steps with step size 1/10: no step
    rebuilds the mass matrix, whose entry (0, 0) keeps the value 10 of
    the weight [1/deltat], where the weight [0.5/deltat] gives 5. *)
Lemma C1_counterexample :
  reachable Demo.mesh Demo.pb Demo.lib Demo.l3
  /\ time_step Demo.l3 = 3%nat
  /\ existsb is_reinitialize (pcout (ns Demo.l3)) = false
  /\ mass_matrix (ns Demo.l3) 0%nat 0%nat = qc 10 1
  /\ assemble_matrix Demo.mesh (cell_mass_matrix_bdf2 Demo.mesh Demo.pb)
       0%nat 0%nat = qc 5 1.
Proof.
  split; [exact demo_l3_reachable|]. by_computation.
Qed.

Lemma C1_witness :
  0 < deltat Demo.pb
  /\ ((time Demo.l3 + deltat Demo.pb = deltat Demo.pb
       <-> time_step Demo.l3 = 0%nat)
      /\ time Demo.l3 + deltat Demo.pb <> -1
      /\ existsb is_reinitialize (pcout (ns Demo.l3)) = false
      /\ ((1 <= time_step Demo.l3)%nat ->
          forall I J,
            mass_matrix (ns Demo.l3) I J
            = assemble_matrix Demo.mesh
                (cell_mass_matrix Demo.mesh Demo.pb) I J)).
Proof.
  split; [by_computation|].
  apply (C1_mass_keeps_first_step_weight Demo.mesh Demo.pb Demo.lib Demo.l3).
  - by_computation.
  - exact demo_l3_reachable.
Defined.

(** ** C2 *)

(** C2, the failing input.  At the second step the row of the free DoF 1
    holds 20, the current velocity 2 over the step size 1/10, whatever
    the previous field is: zero, as the run has it, or 7 everywhere.
    The second-order combination [(2 u - u_prev / 2) / deltat] gives 40
    and 5 on these two fields. *)
Lemma C2_counterexample :
  ~ constrained Demo.mesh 1
  /\ solution (ns Demo.l1) 1%nat = 2
  /\ previous_solution (ns Demo.l1) 1%nat = 0
  /\ system_rhs
       (assemble_time_step Demo.mesh Demo.pb (qc 2 10) (ns Demo.l1)) 1%nat
     = qc 20 1
  /\ system_rhs
       (assemble_time_step Demo.mesh Demo.pb (qc 2 10)
          (with_previous (ns Demo.l1) (fun _ => qc 7 1))) 1%nat
     = qc 20 1.
Proof.
  split; [exact demo_not_constrained_1|]. by_computation.
Qed.

Lemma C2_witness :
  well_numbered Demo.mesh = true
  /\ (system_rhs
        (assemble_time_step Demo.mesh Demo.pb (qc 2 10)
           (with_previous (ns Demo.l1) (fun _ => qc 7 1))) 1%nat
      = system_rhs
          (assemble_time_step Demo.mesh Demo.pb (qc 2 10) (ns Demo.l1)) 1%nat
      /\ (~ constrained Demo.mesh 1 ->
          system_rhs
            (assemble_time_step Demo.mesh Demo.pb (qc 2 10) (ns Demo.l1)) 1%nat
          = sum_upto (n_u Demo.mesh + n_p Demo.mesh) (fun J =>
              assemble_matrix Demo.mesh
                (cell_mass_matrix Demo.mesh Demo.pb) 1%nat J
              * solution (ns Demo.l1) J))).
Proof.
  split; [reflexivity|].
  apply (C2_rhs_uses_current_field_only Demo.mesh Demo.pb (qc 2 10)
           (ns Demo.l1) (fun _ => qc 7 1) 1%nat).
  reflexivity.
Defined.

(** ** C3 *)

(** C3, as stated, fails.  After the first step DoF 0 carries a
    Dirichlet condition: its row of the system matrix holds 0 in column
    2, where the sum of the four blocks holds the coupling entry -1. *)
Lemma C3_counterexample :
  reachable Demo.mesh Demo.pb Demo.lib Demo.l1
  /\ constrained Demo.mesh 0
  /\ time_step Demo.l1 = 1%nat
  /\ system_matrix (ns Demo.l1) 0%nat 2%nat = 0
  /\ sum_of_blocks Demo.mesh (ns Demo.l1) 0%nat 2%nat = -1.
Proof.
  split; [exact demo_l1_reachable|]. split; [exact demo_constrained_0|].
  by_computation.
Qed.

Lemma C3_witness :
  (1 <= time_step Demo.l3)%nat
  /\ ((~ constrained Demo.mesh 1 ->
       system_matrix (ns Demo.l3) 1%nat 1%nat
       = sum_of_blocks Demo.mesh (ns Demo.l3) 1%nat 1%nat)
      /\ (constrained Demo.mesh 1 -> 1%nat <> 1%nat ->
          system_matrix (ns Demo.l3) 1%nat 1%nat = 0)
      /\ (forall t, ~ constrained Demo.mesh 1 -> t <> -1 ->
            system_matrix
              (assemble_time_step Demo.mesh Demo.pb t (ns Demo.l3)) 1%nat 1%nat
            = system_matrix (ns Demo.l3) 1%nat 1%nat
              - convection_matrix (ns Demo.l3) 1%nat 1%nat
              + convection_matrix
                  (assemble_time_step Demo.mesh Demo.pb t (ns Demo.l3))
                  1%nat 1%nat)).
Proof.
  split; [by_computation|].
  apply (C3_system_is_sum_off_dirichlet_rows Demo.mesh Demo.pb Demo.lib
           Demo.l3 1%nat 1%nat).
  - exact demo_l3_reachable.
  - by_computation.
Defined.

(** ** C4 *)

(** The convection matrix [assemble] builds is the one
    [assemble_time_step] builds plus the Temam term: the later steps
    leave the Temam term out. *)
Lemma convection_matrices_differ_by_temam (mesh : Discretisation)
    (u u_prev : Vector) (c : Cell) (i j : nat) :
  cell_convection_matrix mesh u c i j
  = cell_convection_matrix_time_step mesh u u_prev c i j
    + sum_upto (n_q mesh) (fun q => temam_term mesh c u i j q).
Proof.
  rewrite cell_convection_time_step_interior. unfold cell_convection_matrix.
  apply sum_upto_plus.
Qed.

(** C4, the code at the failing input.  With the velocity (1, 2) that the
    first step leaves, of divergence 3, the cell entry (0, 0) of the
    convection matrix is 1 in [assemble_time_step]: the convective term
    alone.  [assemble] gives 5/2 on the same field: the convective term
    plus the Temam term 3/2. *)
Theorem C4_time_step_convection_omits_temam :
  current_velocity_divergence Demo.mesh Demo.cell0 (solution (ns Demo.l1))
    0%nat = qc 3 1
  /\ cell_convection_matrix_time_step Demo.mesh (solution (ns Demo.l1))
       (previous_solution (ns Demo.l1)) Demo.cell0 0%nat 0%nat = 1
  /\ sum_upto (n_q Demo.mesh) (fun q =>
       convective_term Demo.mesh Demo.cell0 (solution (ns Demo.l1))
         0%nat 0%nat q) = 1
  /\ sum_upto (n_q Demo.mesh) (fun q =>
       temam_term Demo.mesh Demo.cell0 (solution (ns Demo.l1))
         0%nat 0%nat q) = qc 3 2
  /\ cell_convection_matrix Demo.mesh (solution (ns Demo.l1)) Demo.cell0
       0%nat 0%nat = qc 5 2.
Proof. by_computation. Qed.

(** ** C5 *)


(** ** C6 *)

(** C6, the code at the failing input.  Two ranks: rank 0 does not own
    the probe point and contributes 0, rank 1 owns it and reads the
    pressure -1; the maximum over the ranks, received on rank 0, is 0. *)
Theorem C6_maximum_loses_negative_pressure :
  mpi_size Demo.mesh = 2%nat
  /\ point_value Demo.lib 0%nat vec_zero p_a = None
  /\ pres_point Demo.lib 0%nat vec_zero p_a = 0
  /\ pres_point Demo.lib 1%nat vec_zero p_a = -1
  /\ global_pres_point Demo.mesh Demo.lib vec_zero p_a = 0.
Proof.
  split; [reflexivity|]. split; [reflexivity|]. by_computation.
Qed.

(** Where the maximum does recover the value: one owner, whose pressure
    is not negative. *)
Lemma MPI_Reduce_MAX_single_owner (size owner : nat) (local : nat -> Qc) :
  (owner < size)%nat -> 0 <= local owner ->
  (forall rank, rank <> owner -> local rank = 0) ->
  MPI_Reduce_MAX size local = local owner.
Proof.
  intros Hown Hpos Hother. unfold MPI_Reduce_MAX.
  assert (Hfold : forall l acc,
    (acc = local owner \/ (acc = 0 /\ In owner l)) ->
    (forall r, In r l -> r = owner \/ local r = 0) ->
    (acc = 0 -> ~ In owner l -> local owner = 0) ->
    fold_left (fun acc rank => Qcmax acc (local rank)) l acc = local owner).
  { induction l as [|r l IH]; intros acc Hacc Hl Hz; cbn [fold_left].
    - destruct Hacc as [H|[_ []]]. exact H.
    - apply IH.
      + unfold Qcmax. destruct (decide (r = owner)) as [->|Hr].
        * left. destruct Hacc as [->|[-> _]].
          -- destruct (decide (local owner < local owner)); reflexivity.
          -- destruct (decide (0 < local owner)) as [|Hn]; [reflexivity|].
             apply Qcnot_lt_le in Hn.
             apply Qcle_antisym; assumption.
        * rewrite (Hother r Hr). destruct Hacc as [->|[-> Hin]].
          -- left. destruct (decide (local owner < 0)) as [Hlt|]; [|reflexivity].
             exfalso. exact (Qclt_not_le _ _ Hlt Hpos).
          -- right. destruct (decide (0 < 0)); split; try reflexivity;
               destruct Hin as [Hin|Hin]; congruence.
      + intros r' Hr'. apply Hl. right. exact Hr'.
      + intros Hq Hnin. unfold Qcmax in Hq.
        destruct (decide (r = owner)) as [->|Hr].
        * destruct Hacc as [->|[-> _]].
          -- destruct (decide (local owner < local owner)); exact Hq.
          -- destruct (decide (0 < local owner)) as [|Hn]; [exact Hq|].
             apply Qcnot_lt_le in Hn. apply Qcle_antisym; assumption.
        * rewrite (Hother r Hr) in Hq. destruct Hacc as [->|[-> Hin]].
          -- destruct (decide (local owner < 0)) as [Hlt|]; [|exact Hq].
             exfalso. exact (Qclt_not_le _ _ Hlt Hpos).
          -- exfalso. destruct Hin as [Hin|Hin]; [congruence|contradiction]. }
  destruct (decide (owner = 0%nat)) as [->|Hne].
  - apply Hfold.
    + left. reflexivity.
    + intros r Hr. apply in_seq in Hr. right. apply Hother. lia.
    + intros H _. exact H.
  - apply Hfold.
    + right. split; [apply Hother; lia|]. apply in_seq. lia.
    + intros r Hr. destruct (decide (r = owner)); [left; assumption|].
      right. apply Hother. assumption.
    + intros _ Hnin. exfalso. apply Hnin. apply in_seq. lia.
Qed.

(** ** C7 *)

(** C7, as stated, fails.  DoF 0 lies on the inlet and on a wall.  On
    the operator of the second step the inflow pass at time 1/5 sets
    its solution entry to 1/5 and its right-hand side entry to 11/5, the
    value times the diagonal 11; the no-slip pass that follows sets both
    to zero: the row the first pass constrained is not left unchanged. *)
Lemma C7_counterexample :
  let s := mkLinearSystem (sum_of_blocks Demo.mesh (ns Demo.l1))
             (solution (ns Demo.l1)) (system_rhs (ns Demo.l1)) in
  let inflow :=
    apply_boundary_values Demo.mesh
      (inflow_values Demo.mesh Demo.pb (qc 1 5)) s in
  inflow_values Demo.mesh Demo.pb (qc 1 5) !! 0%nat = Some (qc 1 5)
  /\ no_slip_values Demo.mesh !! 0%nat = Some 0
  /\ ls_matrix inflow 0%nat 0%nat = qc 11 1
  /\ ls_rhs inflow 0%nat = qc 11 5
  /\ ls_solution inflow 0%nat = qc 1 5
  /\ ls_rhs (enforce_in_sequence Demo.mesh Demo.pb (qc 1 5) s) 0%nat = 0
  /\ ls_solution (enforce_in_sequence Demo.mesh Demo.pb (qc 1 5) s) 0%nat = 0.
Proof. cbv zeta. repeat split; by_computation. Qed.

(** ** C8 *)

Lemma C8_witness :
  well_numbered Demo.mesh = true
  /\ ((forall I J, (n_u Demo.mesh <= I)%nat -> (n_u Demo.mesh <= J)%nat ->
         make_sparsity_pattern Demo.mesh coupling I J = false)
      /\ (forall t I, (n_u Demo.mesh <= I)%nat ->
            dirichlet_values Demo.mesh Demo.pb t !! I = None)
      /\ (forall l, reachable Demo.mesh Demo.pb Demo.lib l ->
            pressure_block_zero Demo.mesh (system_matrix (ns l))
            /\ forall t out,
                 pressure_block_zero Demo.mesh
                   (system_matrix
                      (assemble_step Demo.mesh Demo.pb t
                         (set_time t (ns l) out))))).
Proof.
  split; [reflexivity|].
  apply (C8_pressure_block_zero Demo.mesh Demo.pb Demo.lib). reflexivity.
Defined.

(** The pressure DoF of the instance after three steps. *)
Example demo_pressure_entry : system_matrix (ns Demo.l3) 2%nat 2%nat = 0.
Proof. by_computation. Qed.

(** ** C10 *)

(** A face whose normal is (0, 0, 1): the force integrals are undefined. *)
Example flat_face_undefined :
  integrate_forces Demo.flat_mesh Demo.pb vec_zero = None
  /\ normal_parallel_to_z (mkFace true 3 Demo.flat_values) 0.
Proof.
  split; [vm_compute; reflexivity|]. split; reflexivity.
Qed.

(** The obstacle face of the instance has the normal (-1, 0, 0). *)
Example demo_forces_defined :
  integrate_forces Demo.mesh Demo.pb (solution (ns Demo.l1)) = Some (1, 0).
Proof. by_computation. Qed.

(** * Further properties of the engine *)

(** Projections of the records applied to explicit states. *)
Ltac projections :=
  cbn [system_matrix mass_matrix convection_matrix stiffness_matrix
       pressure_mass system_rhs solution_owned solution previous_solution
       inlet_time pcout ns c_D_max c_L_min time_step time
       ls_matrix ls_solution ls_rhs
       with_solution set_time output compute_pressure_difference
       apply_boundary_values after_setup initial_loop
       mbind option_bind fst snd].

(** * The structure of the assembled operators *)

Section Operators.

Context (mesh : Discretisation) (pb : Problem).

(** ** One process or many *)

Lemma fold_serial_shift {A : Type} (f : A -> Qc) (l : list A) (a : Qc) :
  fold_left (fun acc c => acc + f c) l a
  = a + fold_left (fun acc c => acc + f c) l 0.
Proof.
  revert a. induction l as [|c l IH]; intros a; cbn [fold_left]; [ring|].
  rewrite (IH (a + f c)), (IH (0 + f c)). ring.
Qed.

Lemma sum_upto_owner (n : nat) (c : Cell) (x : Qc) :
  (subdomain_id c < n)%nat ->
  sum_upto n (fun r => if is_locally_owned r c then x else 0) = x.
Proof.
  intros Hc.
  rewrite (sum_upto_ext n _
             (fun r => if decide (subdomain_id c = r) then (fun _ => x) r else 0)).
  - exact (sum_upto_select n (subdomain_id c) (fun _ => x) Hc).
  - intros r _. unfold is_locally_owned.
    destruct (decide (subdomain_id c = r)) as [H|H].
    + rewrite bool_decide_eq_true_2 by exact H. reflexivity.
    + rewrite bool_decide_eq_false_2 by exact H. reflexivity.
Qed.

Lemma fold_ranks (n : nat) (f : Cell -> Qc) (l : list Cell) :
  Forall (fun c => (subdomain_id c < n)%nat) l ->
  sum_upto n (fun r =>
    fold_left (fun acc c => if is_locally_owned r c then acc + f c else acc) l 0)
  = fold_left (fun acc c => acc + f c) l 0.
Proof.
  induction l as [|c l IH]; intros Hl; cbn [fold_left].
  - apply sum_upto_zero. reflexivity.
  - apply Forall_cons in Hl as [Hc Hl].
    rewrite fold_serial_shift, <- (IH Hl).
    etransitivity.
    { apply sum_upto_ext. intros r _. apply fold_cells_shift. }
    rewrite sum_upto_plus. f_equal.
    apply (sum_upto_owner n c (0 + f c) Hc).
Qed.

(** X1.  When every cell belongs to one of the processes, what the
    processes assemble on the cells they own and then add up is what a
    single process owning every cell assembles, for matrices and for
    vectors: the partition of the mesh does not change an entry. *)
Theorem assembly_is_partition_independent
    (local : Cell -> nat -> nat -> Qc) (rhs : Cell -> nat -> Qc) (I J : nat) :
  partitioned mesh ->
  assemble_matrix mesh local I J = serial_matrix mesh local I J
  /\ assemble_vector mesh rhs I = serial_vector mesh rhs I.
Proof.
  intros Hp. split.
  - exact (fold_ranks (mpi_size mesh)
             (fun c => scatter_matrix (dofs_per_cell mesh) (dof_indices c)
                         (local c) I J) (cells mesh) Hp).
  - exact (fold_ranks (mpi_size mesh)
             (fun c => scatter_vector (dofs_per_cell mesh) (dof_indices c)
                         (rhs c) I) (cells mesh) Hp).
Qed.

(** ** Transposition *)

Lemma scatter_matrix_transpose (n : nat) (idx : nat -> nat) (a : Qc)
    (local local' : nat -> nat -> Qc) (I J : nat) :
  (forall i j, local i j = a * local' j i) ->
  scatter_matrix n idx local I J = a * scatter_matrix n idx local' J I.
Proof.
  intros H. unfold scatter_matrix.
  rewrite (sum_upto_swap n n
             (fun i j => if decide (idx i = J /\ idx j = I) then local' i j else 0)).
  rewrite <- sum_upto_scale. apply sum_upto_ext. intros i _.
  rewrite <- sum_upto_scale. apply sum_upto_ext. intros j _.
  destruct (decide (idx i = I /\ idx j = J)) as [[Hi Hj]|Hn];
    destruct (decide (idx j = J /\ idx i = I)) as [[Hj' Hi']|Hn'].
  - apply H.
  - exfalso. apply Hn'. split; assumption.
  - exfalso. apply Hn. split; assumption.
  - ring.
Qed.

Lemma assemble_matrix_transpose (a : Qc) (local local' : Cell -> nat -> nat -> Qc)
    (I J : nat) :
  (forall c i j, local c i j = a * local' c j i) ->
  assemble_matrix mesh local I J = a * assemble_matrix mesh local' J I.
Proof.
  intros H. unfold assemble_matrix.
  rewrite <- sum_upto_scale. apply sum_upto_ext. intros r _.
  unfold local_matrix.
  rewrite (fold_cells_ext r _
             (fun c => scatter_matrix (dofs_per_cell mesh) (dof_indices c)
                         (local' c) J I * a)).
  - rewrite (fold_cells_scale r
               (fun c => scatter_matrix (dofs_per_cell mesh) (dof_indices c)
                           (local' c) J I) a).
    ring.
  - intros c _.
    rewrite (scatter_matrix_transpose _ _ a (local c) (local' c)) by apply H.
    ring.
Qed.

Lemma scalar_product2_comm (A B : Tensor2) :
  scalar_product2 A B = scalar_product2 B A.
Proof. unfold scalar_product2, dot. ring. Qed.

Lemma cell_mass_matrix_sym (c : Cell) (i j : nat) :
  cell_mass_matrix mesh pb c i j = cell_mass_matrix mesh pb c j i.
Proof.
  unfold cell_mass_matrix. apply sum_upto_ext. intros q _.
  rewrite (dot_comm (phi_u c i q)). reflexivity.
Qed.

Lemma cell_mass_matrix_bdf2_sym (c : Cell) (i j : nat) :
  cell_mass_matrix_bdf2 mesh pb c i j = cell_mass_matrix_bdf2 mesh pb c j i.
Proof.
  rewrite !cell_mass_matrix_bdf2_half, cell_mass_matrix_sym. reflexivity.
Qed.

Lemma cell_stiffness_matrix_sym (c : Cell) (i j : nat) :
  cell_stiffness_matrix mesh pb c i j = cell_stiffness_matrix mesh pb c j i.
Proof.
  unfold cell_stiffness_matrix. apply sum_upto_ext. intros q _.
  rewrite (scalar_product2_comm (grad_phi_u c i q)). reflexivity.
Qed.

Lemma cell_pressure_mass_matrix_sym (c : Cell) (i j : nat) :
  cell_pressure_mass_matrix mesh pb c i j
  = cell_pressure_mass_matrix mesh pb c j i.
Proof.
  unfold cell_pressure_mass_matrix. apply sum_upto_ext. intros q _.
  rewrite (Qcmult_comm (phi_p c i q)). reflexivity.
Qed.

Lemma cell_matrix_skew (c : Cell) (i j : nat) :
  cell_matrix mesh c i j = -1 * cell_matrix mesh c j i.
Proof.
  unfold cell_matrix. rewrite <- sum_upto_scale.
  apply sum_upto_ext. intros q _. ring.
Qed.

Lemma phi_p_velocity (c : Cell) (i q : nat) :
  component (shape (fe_values c) i) <> dim -> phi_p c i q = 0.
Proof.
  intros H. unfold phi_p, pressure_value.
  destruct (decide (component (shape (fe_values c) i) = dim)); [contradiction|].
  reflexivity.
Qed.

Lemma cell_matrix_velocity (c : Cell) (i j : nat) :
  component (shape (fe_values c) i) <> dim ->
  component (shape (fe_values c) j) <> dim ->
  cell_matrix mesh c i j = 0.
Proof.
  intros Hi Hj. unfold cell_matrix. apply sum_upto_zero. intros q _.
  rewrite (phi_p_velocity c i q Hi), (phi_p_velocity c j q Hj). ring.
Qed.

Lemma well_numbered_velocity (c : Cell) (i : nat) :
  well_numbered mesh = true -> In c (cells mesh) ->
  (i < dofs_per_cell mesh)%nat -> (dof_indices c i < n_u mesh)%nat ->
  component (shape (fe_values c) i) <> dim.
Proof.
  intros Hwf Hc Hi Hlt.
  destruct (well_numbered_cell mesh c i Hwf Hc Hi) as (_ & _ & Hiff). lia.
Qed.

(** X2.  The Coupling block is skew-symmetric, and with velocity DoFs
    numbered before pressure DoFs it has no velocity-velocity and no
    pressure-pressure entry: it holds the pressure-gradient block and,
    transposed with the opposite sign, the divergence block. *)
Theorem coupling_block_is_skew_symmetric (I J : nat) :
  well_numbered mesh = true ->
  coupling_matrix mesh I J = - coupling_matrix mesh J I
  /\ ((I < n_u mesh)%nat -> (J < n_u mesh)%nat -> coupling_matrix mesh I J = 0)
  /\ ((n_u mesh <= I)%nat -> (n_u mesh <= J)%nat -> coupling_matrix mesh I J = 0).
Proof.
  intros Hwf. unfold coupling_matrix. split; [|split].
  - rewrite (assemble_matrix_transpose (-1) (cell_matrix mesh) (cell_matrix mesh))
      by apply cell_matrix_skew.
    ring.
  - intros HI HJ. apply assemble_matrix_zero. intros c i j Hc Hi Hj Hidx Hjdx.
    apply cell_matrix_velocity.
    + apply (well_numbered_velocity c i Hwf Hc Hi). lia.
    + apply (well_numbered_velocity c j Hwf Hc Hj). lia.
  - intros HI HJ. apply assemble_matrix_zero. intros c i j Hc Hi Hj Hidx Hjdx.
    apply cell_matrix_pressure.
    + apply (well_numbered_pressure mesh c i Hwf Hc Hi). lia.
    + apply (well_numbered_pressure mesh c j Hwf Hc Hj). lia.
Qed.

End Operators.

(** * Invariants of the run *)

Section Run.

Context (mesh : Discretisation) (pb : Problem) (lib : Library).

(** ** Entries with a pressure column *)

Lemma mul21_zero2 (v : Tensor1) : mul21 zero2 v = zero1.
Proof.
  unfold mul21, zero2. cbn [row_x row_y row_z]. rewrite !dot_zero_l.
  reflexivity.
Qed.

Lemma cell_mass_matrix_pressure_col (c : Cell) (i j : nat) :
  component (shape (fe_values c) j) = dim -> cell_mass_matrix mesh pb c i j = 0.
Proof.
  intros H. rewrite cell_mass_matrix_sym. apply cell_mass_matrix_pressure.
  exact H.
Qed.

Lemma cell_mass_matrix_bdf2_pressure_col (c : Cell) (i j : nat) :
  component (shape (fe_values c) j) = dim ->
  cell_mass_matrix_bdf2 mesh pb c i j = 0.
Proof.
  intros H. rewrite cell_mass_matrix_bdf2_sym.
  apply cell_mass_matrix_bdf2_pressure. exact H.
Qed.

Lemma cell_stiffness_matrix_pressure_col (c : Cell) (i j : nat) :
  component (shape (fe_values c) j) = dim ->
  cell_stiffness_matrix mesh pb c i j = 0.
Proof.
  intros H. rewrite cell_stiffness_matrix_sym.
  apply cell_stiffness_matrix_pressure. exact H.
Qed.

Lemma convective_term_pressure_col (c : Cell) (u : Vector) (i j q : nat) :
  component (shape (fe_values c) j) = dim -> convective_term mesh c u i j q = 0.
Proof.
  intros H. unfold convective_term, grad_phi_u.
  rewrite (velocity_gradient_pressure _ q H), mul21_zero2, dot_zero_l. ring.
Qed.

Lemma temam_term_pressure_col (c : Cell) (u : Vector) (i j q : nat) :
  component (shape (fe_values c) j) = dim -> temam_term mesh c u i j q = 0.
Proof.
  intros H. unfold temam_term.
  rewrite (phi_u_pressure c j q H), dot_zero_r. ring.
Qed.

Lemma cell_convection_matrix_off_velocity (u : Vector) (c : Cell) (i j : nat) :
  component (shape (fe_values c) i) = dim
  \/ component (shape (fe_values c) j) = dim ->
  cell_convection_matrix mesh u c i j = 0.
Proof.
  intros [H|H]; [apply cell_convection_matrix_pressure; exact H|].
  unfold cell_convection_matrix. apply sum_upto_zero. intros q _.
  rewrite convective_term_pressure_col, temam_term_pressure_col by exact H.
  ring.
Qed.

Lemma cell_convection_time_step_off_velocity (u u_prev : Vector) (c : Cell)
    (i j : nat) :
  component (shape (fe_values c) i) = dim
  \/ component (shape (fe_values c) j) = dim ->
  cell_convection_matrix_time_step mesh u u_prev c i j = 0.
Proof.
  intros [H|H]; [apply cell_convection_time_step_pressure; exact H|].
  rewrite cell_convection_time_step_interior.
  apply sum_upto_zero. intros q _. apply convective_term_pressure_col. exact H.
Qed.

Lemma assemble_velocity_block (local : Cell -> nat -> nat -> Qc) (I J : nat) :
  well_numbered mesh = true ->
  (forall c i j,
     component (shape (fe_values c) i) = dim
     \/ component (shape (fe_values c) j) = dim -> local c i j = 0) ->
  (n_u mesh <= I)%nat \/ (n_u mesh <= J)%nat ->
  assemble_matrix mesh local I J = 0.
Proof.
  intros Hwf H HIJ. apply assemble_matrix_zero.
  intros c i j Hc Hi Hj HI HJ. apply H. destruct HIJ as [HIJ|HIJ].
  - left. apply (well_numbered_pressure mesh c i Hwf Hc Hi). lia.
  - right. apply (well_numbered_pressure mesh c j Hwf Hc Hj). lia.
Qed.

Lemma assemble_mass_off_velocity (I J : nat) :
  well_numbered mesh = true ->
  (n_u mesh <= I)%nat \/ (n_u mesh <= J)%nat ->
  assemble_matrix mesh (cell_mass_matrix mesh pb) I J = 0
  /\ assemble_matrix mesh (cell_mass_matrix_bdf2 mesh pb) I J = 0
  /\ assemble_matrix mesh (cell_stiffness_matrix mesh pb) I J = 0.
Proof.
  intros Hwf HIJ. repeat split; apply assemble_velocity_block; try assumption.
  - intros c i j [H|H];
      [apply cell_mass_matrix_pressure|apply cell_mass_matrix_pressure_col];
      exact H.
  - intros c i j [H|H];
      [apply cell_mass_matrix_bdf2_pressure
      |apply cell_mass_matrix_bdf2_pressure_col];
      exact H.
  - intros c i j [H|H];
      [apply cell_stiffness_matrix_pressure
      |apply cell_stiffness_matrix_pressure_col];
      exact H.
Qed.

Lemma assemble_matrix_sym (local : Cell -> nat -> nat -> Qc) (I J : nat) :
  (forall c i j, local c i j = local c j i) ->
  assemble_matrix mesh local I J = assemble_matrix mesh local J I.
Proof.
  intros H.
  rewrite (assemble_matrix_transpose mesh 1 local local).
  - ring.
  - intros c i j. rewrite (H c i j). ring.
Qed.

(** ** The blocks a step leaves untouched *)

Lemma advance_frame (l l' : TimeLoop) :
  advance mesh pb lib l = Returned l' ->
  let st2 := assemble_step mesh pb (time l + deltat pb)
               (set_time (time l + deltat pb) (ns l)
                  [StepHeader (S (time_step l)) (time l + deltat pb)]) in
  pressure_mass (ns l') = pressure_mass st2
  /\ exists st3,
       solve_time_step mesh lib st2 = Returned st3
       /\ solution_owned (ns l') = solution_owned st3
       /\ solution (ns l') = solution st3.
Proof.
  unfold advance. cbv zeta.
  set (t' := time l + deltat pb).
  set (st2 := assemble_step mesh pb t' _).
  destruct (solve_time_step mesh lib st2) as [st3|e st|st|] eqn:Hsolve;
    try discriminate.
  pose proof (solve_time_step_Returned _ _ _ _ Hsolve) as (k & x & P & _ & Hst3).
  assert (H3 : pressure_mass st3 = pressure_mass st2).
  { rewrite Hst3. reflexivity. }
  set (st4 := if decide (t' = T pb - deltat pb)
              then compute_pressure_difference mesh lib st3 else st3).
  assert (H4 : pressure_mass st4 = pressure_mass st2
               /\ solution_owned st4 = solution_owned st3
               /\ solution st4 = solution st3).
  { unfold st4. destruct (decide (t' = T pb - deltat pb)); auto. }
  destruct H4 as (H4 & Ho4 & Hs4).
  clearbody st4 st2. clear Hst3 H3.
  destruct (decide (qc 1 10 < t')).
  - destruct (compute_forces mesh pb st4) as [[st5 c]|] eqn:Hf; [|discriminate].
    apply compute_forces_Some in Hf as (forces & _ & _ & Hst5).
    destruct (decide (S (time_step l) mod 20 = 0)%nat);
      intros H; injection H as <-; cbn [ns]; rewrite Hst5;
      (split; [exact H4|]); exists st3; auto.
  - destruct (decide (S (time_step l) mod 20 = 0)%nat);
      intros H; injection H as <-; cbn [ns];
      (split; [exact H4|]); exists st3; auto.
Qed.

Lemma reachable_blocks (l : TimeLoop) :
  reachable mesh pb lib l ->
  ((forall I J, mass_matrix (ns l) I J = mass_matrix (ns l) J I)
   /\ (well_numbered mesh = true ->
       forall I J, (n_u mesh <= I)%nat \/ (n_u mesh <= J)%nat ->
                   mass_matrix (ns l) I J = 0))
  /\ (time_step l = 0%nat ->
      time l = 0
      /\ stiffness_matrix (ns l) = mat_zero
      /\ convection_matrix (ns l) = mat_zero
      /\ pressure_mass (ns l) = mat_zero)
  /\ ((1 <= time_step l)%nat ->
      stiffness_matrix (ns l)
      = assemble_matrix mesh (cell_stiffness_matrix mesh pb)
      /\ pressure_mass (ns l)
         = assemble_matrix mesh (cell_pressure_mass_matrix mesh pb)
      /\ exists u,
           convection_matrix (ns l)
           = assemble_matrix mesh (cell_convection_matrix mesh u)
           \/ exists u_prev,
                convection_matrix (ns l)
                = assemble_matrix mesh
                    (cell_convection_matrix_time_step mesh u u_prev)).
Proof.
  intros Hr. induction Hr as [|l l' Hr IH Hcond Hadv].
  - projections. split; [split; reflexivity|]. split; [auto|lia].
  - destruct IH as ((Hsym & Hoff) & Hzero & Hlater).
    pose proof (advance_frame _ _ Hadv) as (Epm & _).
    apply advance_Returned in Hadv. cbv zeta in Hadv.
    destruct Hadv as (st3 & ext & _ & _ & E2 & E3 & E4 & _ & _ & _ & Ets & _).
    rewrite E2, E3, E4, Epm, Ets. clear E2 E3 E4 Epm.
    unfold assemble_step.
    destruct (decide (time l + deltat pb = deltat pb)) as [Hfirst|Hnot].
    + unfold assemble. projections.
      split; [split|split; [discriminate|]].
      * intros I J. apply assemble_matrix_sym. apply cell_mass_matrix_sym.
      * intros Hwf I J HIJ. apply (assemble_mass_off_velocity I J Hwf HIJ).
      * intros _. split; [reflexivity|]. split; [reflexivity|].
        eexists. left. reflexivity.
    + assert (Hts : (1 <= time_step l)%nat).
      { destruct (time_step l) eqn:Hz; [|lia].
        exfalso. apply Hnot. destruct (Hzero eq_refl) as (-> & _). ring. }
      destruct (Hlater Hts) as (Hst & Hpm & _).
      unfold assemble_time_step. projections.
      split; [split|split; [discriminate|]].
      * intros I J.
        destruct (decide (time l + deltat pb = -1)); [|apply Hsym].
        rewrite (Hsym I J). f_equal.
        apply assemble_matrix_sym. apply cell_mass_matrix_bdf2_sym.
      * intros Hwf I J HIJ.
        destruct (decide (time l + deltat pb = -1)); [|apply (Hoff Hwf I J HIJ)].
        rewrite (Hoff Hwf I J HIJ).
        destruct (assemble_mass_off_velocity I J Hwf HIJ) as (_ & -> & _). ring.
      * intros _. split; [exact Hst|]. split; [exact Hpm|].
        eexists. right. eexists. reflexivity.
Qed.

(** X3.  In every state the loop reaches, with velocity DoFs numbered
    before pressure DoFs: the Mass and Stiffness blocks are symmetric;
    Mass, Stiffness and Convection have no entry with a pressure row or
    a pressure column; and after the first step the Stiffness block is
    the one [assemble] built, whatever the number of later steps. *)
Theorem velocity_blocks_are_symmetric (l : TimeLoop) (I J : nat) :
  well_numbered mesh = true -> reachable mesh pb lib l ->
  mass_matrix (ns l) I J = mass_matrix (ns l) J I
  /\ stiffness_matrix (ns l) I J = stiffness_matrix (ns l) J I
  /\ ((n_u mesh <= I)%nat \/ (n_u mesh <= J)%nat ->
      mass_matrix (ns l) I J = 0
      /\ stiffness_matrix (ns l) I J = 0
      /\ convection_matrix (ns l) I J = 0)
  /\ ((1 <= time_step l)%nat ->
      stiffness_matrix (ns l) I J
      = assemble_matrix mesh (cell_stiffness_matrix mesh pb) I J).
Proof.
  intros Hwf Hr.
  destruct (reachable_blocks l Hr) as ((Hsym & Hoff) & Hzero & Hlater).
  split; [apply Hsym|].
  destruct (time_step l) as [|n] eqn:Hn.
  - destruct (Hzero eq_refl) as (_ & -> & -> & _).
    split; [reflexivity|]. split; [|lia].
    intros HIJ. split; [apply (Hoff Hwf I J HIJ)|]. split; reflexivity.
  - destruct (Hlater ltac:(lia)) as (-> & _ & u & Hconv).
    split; [apply assemble_matrix_sym; apply cell_stiffness_matrix_sym|].
    split; [|reflexivity].
    intros HIJ. split; [apply (Hoff Hwf I J HIJ)|].
    split; [apply (assemble_mass_off_velocity I J Hwf HIJ)|].
    destruct Hconv as [->|(u_prev & ->)];
      apply assemble_velocity_block; try assumption.
    + intros c i j. apply cell_convection_matrix_off_velocity.
    + intros c i j. apply cell_convection_time_step_off_velocity.
Qed.

Lemma cell_pressure_mass_matrix_velocity (c : Cell) (i j : nat) :
  component (shape (fe_values c) i) <> dim
  \/ component (shape (fe_values c) j) <> dim ->
  cell_pressure_mass_matrix mesh pb c i j = 0.
Proof.
  intros H. unfold cell_pressure_mass_matrix. apply sum_upto_zero. intros q _.
  destruct H as [H|H]; rewrite (phi_p_velocity c _ q H); unfold Qcdiv; ring.
Qed.

(** X4.  The pressure mass matrix is assembled by the first step and
    is the same in every later state; it is symmetric, and with velocity
    DoFs numbered before pressure DoFs all its entries lie in the
    pressure-pressure block. *)
Theorem pressure_mass_is_assembled_once (l : TimeLoop) (I J : nat) :
  well_numbered mesh = true -> reachable mesh pb lib l ->
  (1 <= time_step l)%nat ->
  pressure_mass (ns l) I J
  = assemble_matrix mesh (cell_pressure_mass_matrix mesh pb) I J
  /\ pressure_mass (ns l) I J = pressure_mass (ns l) J I
  /\ ((I < n_u mesh)%nat \/ (J < n_u mesh)%nat -> pressure_mass (ns l) I J = 0).
Proof.
  intros Hwf Hr Hts.
  destruct (reachable_blocks l Hr) as (_ & _ & Hlater).
  destruct (Hlater Hts) as (_ & -> & _).
  split; [reflexivity|]. split.
  - apply assemble_matrix_sym. apply cell_pressure_mass_matrix_sym.
  - intros HIJ. apply assemble_matrix_zero. intros c i j Hc Hi Hj HI HJ.
    apply cell_pressure_mass_matrix_velocity. destruct HIJ as [HIJ|HIJ].
    + left. apply (well_numbered_velocity mesh c i Hwf Hc Hi). lia.
    + right. apply (well_numbered_velocity mesh c j Hwf Hc Hj). lia.
Qed.

(** X5.  The off-diagonal blocks handed to the preconditioner.  In a
    state reached after at least one step, on a velocity row without a
    Dirichlet condition, the block (0, 1) of the system matrix is the
    transpose of the block (1, 0) with the opposite sign, and the block
    (1, 0) is the divergence part of the Coupling block. *)
Theorem off_diagonal_blocks_are_opposite_transposes (l : TimeLoop) (i j : nat) :
  well_numbered mesh = true -> reachable mesh pb lib l ->
  (1 <= time_step l)%nat -> (i < n_u mesh)%nat -> ~ constrained mesh i ->
  block mesh 0 1 (system_matrix (ns l)) i j
  = - block mesh 1 0 (system_matrix (ns l)) j i
  /\ block mesh 1 0 (system_matrix (ns l)) j i
     = coupling_matrix mesh (n_u mesh + j)%nat i.
Proof.
  intros Hwf Hr Hts Hi Hfree.
  destruct (reachable_sum_of_blocks mesh pb lib l Hr) as (_ & Hsum).
  destruct (reachable_blocks l Hr) as ((_ & Hoff) & _ & Hlater).
  destruct (Hlater Hts) as (Hst & _ & u & Hconv).
  assert (Hvel : forall I J, (n_u mesh <= I)%nat \/ (n_u mesh <= J)%nat ->
                   sum_of_blocks mesh (ns l) I J = coupling_matrix mesh I J).
  { intros I J HIJ. unfold sum_of_blocks.
    rewrite (Hoff Hwf I J HIJ), Hst.
    destruct (assemble_mass_off_velocity I J Hwf HIJ) as (_ & _ & ->).
    assert (Hc : convection_matrix (ns l) I J = 0).
    { destruct Hconv as [->|(u_prev & ->)];
        apply assemble_velocity_block; try assumption.
      - intros c a b. apply cell_convection_matrix_off_velocity.
      - intros c a b. apply cell_convection_time_step_off_velocity. }
    rewrite Hc. ring. }
  assert (Hp : ~ constrained mesh (n_u mesh + j)%nat).
  { intros Hc. apply (dirichlet_values_is_Some mesh pb 0) in Hc.
    rewrite (dirichlet_values_pressure mesh pb 0 (n_u mesh + j)%nat Hwf) in Hc by lia.
    destruct Hc as [v Hv]. discriminate. }
  unfold block.
  destruct (decide (0 = 0)%nat) as [_|Hn]; [|contradiction].
  destruct (decide (1 = 0)%nat) as [Hn|_]; [discriminate|].
  cbn [Nat.add].
  destruct (Hsum Hts i (n_u mesh + j)%nat) as (H01 & _).
  destruct (Hsum Hts (n_u mesh + j)%nat i) as (H10 & _).
  rewrite (H01 Hfree), (H10 Hp).
  rewrite !Hvel by lia.
  split; [|reflexivity].
  unfold coupling_matrix.
  rewrite (assemble_matrix_transpose mesh (-1) (cell_matrix mesh)
             (cell_matrix mesh)) by apply cell_matrix_skew.
  ring.
Qed.

End Run.

(** * Assembly: patterns, boundary terms, right-hand side *)

Section Assembly.

Context (mesh : Discretisation) (pb : Problem) (lib : Library).

(** ** Contributions and sparsity patterns *)

Lemma make_sparsity_pattern_false (table : nat -> nat -> Coupling) (c : Cell)
    (i j : nat) :
  In c (cells mesh) ->
  (i < dofs_per_cell mesh)%nat -> (j < dofs_per_cell mesh)%nat ->
  make_sparsity_pattern mesh table (dof_indices c i) (dof_indices c j) = false ->
  table (component (shape (fe_values c) i)) (component (shape (fe_values c) j))
  = none.
Proof.
  intros Hc Hi Hj H. unfold make_sparsity_pattern in H.
  destruct (table _ _) eqn:Ht; [|reflexivity]. exfalso.
  apply Bool.not_true_iff_false in H. apply H.
  apply existsb_exists. exists c. split; [exact Hc|].
  apply existsb_exists. exists i. split; [apply in_seq; lia|].
  apply existsb_exists. exists j. split; [apply in_seq; lia|].
  rewrite Ht. rewrite bool_decide_eq_true_2 by (split; reflexivity).
  reflexivity.
Qed.

(** X6.  A pair of DoFs of a cell outside the sparsity pattern of the
    operators receives only zeros from that cell, in every operator that
    is stored with this pattern; likewise for the pressure mass matrix
    and its own pattern.  So no assembly adds a non-zero value to an
    entry that the patterns of [setup] do not provide. *)
Theorem contributions_stay_inside_the_patterns (c : Cell) (i j : nat)
    (u u_prev : Vector) :
  In c (cells mesh) ->
  (i < dofs_per_cell mesh)%nat -> (j < dofs_per_cell mesh)%nat ->
  (sparsity mesh (dof_indices c i) (dof_indices c j) = false ->
   cell_matrix mesh c i j = 0
   /\ cell_mass_matrix mesh pb c i j = 0
   /\ cell_mass_matrix_bdf2 mesh pb c i j = 0
   /\ cell_stiffness_matrix mesh pb c i j = 0
   /\ cell_convection_matrix mesh u c i j = 0
   /\ cell_convection_matrix_time_step mesh u u_prev c i j = 0)
  /\ (sparsity_pressure_mass mesh (dof_indices c i) (dof_indices c j) = false ->
      cell_pressure_mass_matrix mesh pb c i j = 0).
Proof.
  intros Hc Hi Hj. split; intros H.
  - apply (make_sparsity_pattern_false coupling c i j Hc Hi Hj) in H.
    unfold coupling in H.
    destruct (decide (component (shape (fe_values c) i) = dim
                      /\ component (shape (fe_values c) j) = dim))
      as [[Hci Hcj]|]; [|discriminate].
    split; [apply cell_matrix_pressure; assumption|].
    split; [apply cell_mass_matrix_pressure; assumption|].
    split; [apply cell_mass_matrix_bdf2_pressure; assumption|].
    split; [apply cell_stiffness_matrix_pressure; assumption|].
    split; [apply cell_convection_matrix_pressure; assumption|].
    apply cell_convection_time_step_pressure; assumption.
  - apply (make_sparsity_pattern_false coupling_pressure_mass c i j Hc Hi Hj)
      in H.
    unfold coupling_pressure_mass in H.
    destruct (decide (component (shape (fe_values c) i) = dim
                      /\ component (shape (fe_values c) j) = dim))
      as [|Hn]; [discriminate|].
    apply cell_pressure_mass_matrix_velocity.
    destruct (decide (component (shape (fe_values c) i) = dim)) as [Hci|Hci];
      [|left; exact Hci].
    right. intros Hcj. apply Hn. split; assumption.
Qed.

(** ** The Temam term *)

(** X7.  The convection matrix of the first step is the one of the later
    steps plus the Temam term; on a cell where the divergence of the
    current velocity vanishes at every quadrature point the two are
    equal. *)
Theorem convection_matrices_agree_without_divergence (u u_prev : Vector)
    (c : Cell) (i j : nat) :
  (forall q, (q < n_q mesh)%nat -> current_velocity_divergence mesh c u q = 0) ->
  cell_convection_matrix mesh u c i j
  = cell_convection_matrix_time_step mesh u u_prev c i j.
Proof.
  intros Hdiv.
  rewrite (convection_matrices_differ_by_temam mesh u u_prev c i j).
  rewrite (sum_upto_zero (n_q mesh)
             (fun q => temam_term mesh c u i j q)).
  - ring.
  - intros q Hq. unfold temam_term. rewrite (Hdiv q Hq). ring.
Qed.

(** ** The boundary terms *)

Lemma assemble_vector_ext (local local' : Cell -> nat -> Qc) (I : nat) :
  (forall c i, local c i = local' c i) ->
  assemble_vector mesh local I = assemble_vector mesh local' I.
Proof.
  intros H. unfold assemble_vector. apply sum_upto_ext. intros r _.
  unfold local_vector.
  apply (fold_cells_ext r
           (fun c => scatter_vector (dofs_per_cell mesh) (dof_indices c)
                       (local c) I)
           (fun c => scatter_vector (dofs_per_cell mesh) (dof_indices c)
                       (local' c) I)).
  intros c _. unfold scatter_vector. apply sum_upto_ext. intros i _.
  rewrite H. reflexivity.
Qed.

Lemma mat_add_ext (A B B' : Matrix) (a : Qc) (K L : nat) :
  B K L = B' K L -> mat_add A a B K L = mat_add A a B' K L.
Proof. intros H. unfold mat_add. rewrite H. reflexivity. Qed.

(** X8.  The boundary integrals are switched off: the right-hand side
    that [assemble] builds does not depend on the Neumann datum, and the
    system and convection matrices that [assemble_time_step] builds do
    not depend on the previous solution, which only the backflow term
    reads. *)
Theorem boundary_terms_are_switched_off (t : Qc) (st : NavierStokes)
    (h : Function) (prev : Vector) (I J : nat) :
  system_rhs (assemble mesh (with_function_h pb h) t st) I
  = system_rhs (assemble mesh pb t st) I
  /\ system_matrix (assemble_time_step mesh pb t (with_previous st prev)) I J
     = system_matrix (assemble_time_step mesh pb t st) I J
  /\ convection_matrix (assemble_time_step mesh pb t (with_previous st prev)) I J
     = convection_matrix (assemble_time_step mesh pb t st) I J.
Proof.
  split; [|split].
  - unfold assemble. projections.
    change (dirichlet_values mesh (with_function_h pb h) t)
      with (dirichlet_values mesh pb t).
    destruct (dirichlet_values mesh pb t !! I) as [v|]; [reflexivity|].
    apply assemble_vector_ext. intros c i.
    rewrite !cell_rhs_interior. reflexivity.
  - unfold assemble_time_step, with_previous. projections.
    destruct (dirichlet_values mesh pb t !! I) as [v|].
    + destruct (decide (I = J)); [|reflexivity].
      apply block_diagonal_entry_ext. intros K.
      apply mat_add_ext. apply convection_time_step_independent.
    + apply mat_add_ext. apply convection_time_step_independent.
  - unfold assemble_time_step, with_previous. projections.
    apply convection_time_step_independent.
Qed.

(** ** The right-hand side of every step *)

(** X19.  At every step of a run, the first one included, the
    right-hand side on a row without a Dirichlet condition is the mass
    matrix of weight [1/deltat] applied to the solution the step started
    from: each step is a backward Euler step. *)
Theorem right_hand_side_is_backward_euler (l l' : TimeLoop) (I : nat) :
  well_numbered mesh = true ->
  advance mesh pb lib l = Returned l' ->
  ~ constrained mesh I ->
  system_rhs (ns l') I
  = sum_upto (n_u mesh + n_p mesh) (fun J =>
      assemble_matrix mesh (cell_mass_matrix mesh pb) I J * solution (ns l) J).
Proof.
  intros Hwf Hadv HI.
  apply advance_Returned in Hadv. cbv zeta in Hadv.
  destruct Hadv as (st3 & ext & _ & _ & _ & _ & _ & E5 & _).
  rewrite E5, (mass_times_solution mesh pb (solution (ns l)) I Hwf).
  unfold assemble_step.
  destruct (decide (time l + deltat pb = deltat pb)).
  - unfold assemble. projections.
    rewrite (not_constrained_None mesh pb _ I HI).
    apply assemble_vector_ext. intros c i. apply cell_rhs_interior.
  - unfold assemble_time_step. projections.
    rewrite (not_constrained_None mesh pb _ I HI). reflexivity.
Qed.

(** ** The sentinel time *)

Lemma assemble_mass_bdf2_half (I J : nat) :
  assemble_matrix mesh (cell_mass_matrix_bdf2 mesh pb) I J
  = qc 1 2 * assemble_matrix mesh (cell_mass_matrix mesh pb) I J.
Proof.
  rewrite (assemble_matrix_transpose mesh (qc 1 2)
             (cell_mass_matrix_bdf2 mesh pb) (cell_mass_matrix mesh pb)).
  - f_equal. apply assemble_matrix_sym. apply cell_mass_matrix_sym.
  - intros c i j. rewrite cell_mass_matrix_bdf2_half.
    f_equal. apply cell_mass_matrix_sym.
Qed.

(** X20.  What [assemble_time_step] does when it is given the sentinel
    time -1, which the loop of [solve] never passes: it writes the BDF2
    notice and adds half of the first-step mass matrix to the mass
    matrix it finds, which is not reset first; on a row without a
    Dirichlet condition the system matrix changes by that half and by
    the exchange of the convection matrices.  For every other time the
    mass matrix is left as it is. *)
Theorem sentinel_time_adds_half_the_mass (st : NavierStokes) (I J : nat) :
  mass_matrix (assemble_time_step mesh pb (-1) st) I J
  = mass_matrix st I J
    + qc 1 2 * assemble_matrix mesh (cell_mass_matrix mesh pb) I J
  /\ In ReinitializeMassMatrixForBDF2
       (pcout (assemble_time_step mesh pb (-1) st))
  /\ (~ constrained mesh I ->
      system_matrix (assemble_time_step mesh pb (-1) st) I J
      = system_matrix st I J - convection_matrix st I J
        + qc 1 2 * assemble_matrix mesh (cell_mass_matrix mesh pb) I J
        + convection_matrix (assemble_time_step mesh pb (-1) st) I J)
  /\ (forall t, t <> -1 ->
        mass_matrix (assemble_time_step mesh pb t st) I J = mass_matrix st I J).
Proof.
  unfold assemble_time_step. projections.
  destruct (decide (-1 = -1)) as [_|Hn]; [|contradiction].
  split; [|split; [|split]].
  - rewrite assemble_mass_bdf2_half. reflexivity.
  - apply in_or_app. right. apply in_or_app. right. left. reflexivity.
  - intros HI. rewrite (not_constrained_None mesh pb _ I HI).
    unfold mat_add. rewrite assemble_mass_bdf2_half. ring.
  - intros t Ht. destruct (decide (t = -1)); [contradiction|reflexivity].
Qed.

End Assembly.

(** * The first step, and the values imposed at the inlet *)

Section FirstStep.

Context (mesh : Discretisation) (pb : Problem) (lib : Library).

Lemma reachable_step_zero (l : TimeLoop) :
  reachable mesh pb lib l -> time_step l = 0%nat ->
  l = initial_loop pb after_setup.
Proof.
  intros Hr Hz. destruct Hr as [|l l' _ _ Hadv]; [reflexivity|].
  apply advance_Returned in Hadv. cbv zeta in Hadv.
  destruct Hadv as (st3 & ext & _ & _ & _ & _ & _ & _ & _ & _ & Ets & _).
  rewrite Ets in Hz. discriminate.
Qed.

Lemma get_function_values_zero (n : nat) (fe : FEValues) (idx : nat -> nat)
    (u : Vector) (q : nat) :
  (forall K, u K = 0) -> get_function_values n fe idx u q = zero1.
Proof.
  intros Hu. unfold get_function_values.
  induction n as [|n IH]; cbn [sum1]; [reflexivity|].
  rewrite IH, Hu. unfold add1, scale1, zero1. cbn [t_x t_y t_z].
  f_equal; ring.
Qed.

Lemma get_function_divergences_zero (n : nat) (fe : FEValues)
    (idx : nat -> nat) (u : Vector) (q : nat) :
  (forall K, u K = 0) -> get_function_divergences n fe idx u q = 0.
Proof.
  intros Hu. unfold get_function_divergences. apply sum_upto_zero.
  intros i _. rewrite Hu. ring.
Qed.

Lemma mul21_zero1 (A : Tensor2) : mul21 A zero1 = zero1.
Proof. unfold mul21. rewrite !dot_zero_r. reflexivity. Qed.

Lemma cell_convection_matrix_zero (u : Vector) (c : Cell) (i j : nat) :
  (forall K, u K = 0) -> cell_convection_matrix mesh u c i j = 0.
Proof.
  intros Hu. unfold cell_convection_matrix. apply sum_upto_zero. intros q _.
  unfold convective_term, temam_term, current_velocity_values,
    current_velocity_divergence.
  rewrite (get_function_values_zero _ _ _ u q Hu),
    (get_function_divergences_zero _ _ _ u q Hu), mul21_zero1, dot_zero_l.
  ring.
Qed.

Lemma cell_rhs_zero (u : Vector) (c : Cell) (i : nat) :
  (forall K, u K = 0) -> cell_rhs mesh pb u c i = 0.
Proof.
  intros Hu. rewrite cell_rhs_interior. apply sum_upto_zero. intros q _.
  unfold rhs_term, current_velocity_values.
  rewrite (get_function_values_zero _ _ _ u q Hu), dot_zero_l.
  unfold Qcdiv. ring.
Qed.

Lemma assemble_vector_zero (local : Cell -> nat -> Qc) (I : nat) :
  (forall c i, local c i = 0) -> assemble_vector mesh local I = 0.
Proof.
  intros H. unfold assemble_vector. apply sum_upto_zero. intros r _.
  unfold local_vector.
  apply (fold_cells_zero r
           (fun c => scatter_vector (dofs_per_cell mesh) (dof_indices c)
                       (local c) I)).
  intros c _. unfold scatter_vector. apply sum_upto_zero. intros i _.
  rewrite H. destruct (decide (dof_indices c i = I)); reflexivity.
Qed.

(** X9.  When the initial velocity and pressure are zero, the state
    left by the first step holds no convection: its Convection block is
    zero, and its right-hand side is zero on every row without a
    Dirichlet condition, so the first system is driven by the boundary
    data only. *)
Theorem first_step_starts_from_rest (l : TimeLoop) (I J : nat) :
  (forall K, u_0 pb K = 0) ->
  reachable mesh pb lib l -> time_step l = 1%nat ->
  convection_matrix (ns l) I J = 0
  /\ (~ constrained mesh I -> system_rhs (ns l) I = 0).
Proof.
  intros Hu Hr Hone. destruct Hr as [|l l' Hr _ Hadv]; [discriminate|].
  apply advance_Returned in Hadv. cbv zeta in Hadv.
  destruct Hadv as (st3 & ext & _ & _ & _ & E3 & _ & E5 & _ & _ & Ets & _).
  rewrite Ets in Hone. injection Hone as Hz.
  rewrite (reachable_step_zero l Hr Hz) in E3, E5.
  rewrite E3, E5. clear E3 E5. unfold assemble_step. projections.
  destruct (decide (0 + deltat pb = deltat pb)) as [_|Hn];
    [|exfalso; apply Hn; ring].
  unfold assemble. projections. split.
  - apply assemble_matrix_zero. intros c i j _ _ _ _ _.
    apply cell_convection_matrix_zero. exact Hu.
  - intros HI. rewrite (not_constrained_None mesh pb _ I HI).
    apply assemble_vector_zero. intros c i. apply cell_rhs_zero. exact Hu.
Qed.

(** ** The Dirichlet map at a DoF of the inlet *)

Lemma interpolate_untouched (fs : gmap nat Function) (mask : nat -> bool)
    (I : nat) (l : list BoundaryDof) (bv : gmap nat Qc) :
  (forall d, In d l -> bd_index d = I -> fs !! bd_boundary_id d = None) ->
  fold_left (fun bv d =>
    match fs !! bd_boundary_id d with
    | Some f =>
        if mask (bd_component d)
        then <[bd_index d := f (bd_point d) (bd_component d)]> bv
        else bv
    | None => bv
    end) l bv !! I = bv !! I.
Proof.
  unfold Function in *.
  revert bv. induction l as [|d l IH]; intros bv H; cbn [fold_left];
    [reflexivity|].
  rewrite IH by (intros d' Hd'; apply H; right; exact Hd').
  destruct (fs !! bd_boundary_id d) as [f|] eqn:Hf; [|reflexivity].
  destruct (mask (bd_component d)); [|reflexivity].
  destruct (decide (bd_index d = I)) as [Hd|Hd].
  - rewrite (H d (or_introl eq_refl) Hd) in Hf. discriminate.
  - apply lookup_insert_ne. exact Hd.
Qed.

Lemma interpolate_at (fs : gmap nat Function) (mask : nat -> bool)
    (w : Qc) (I : nat) (l : list BoundaryDof) (bv : gmap nat Qc) :
  (forall d f, In d l -> bd_index d = I ->
               fs !! bd_boundary_id d = Some f ->
               f (bd_point d) (bd_component d) = w) ->
  bv !! I = Some w
  \/ Exists (fun d => bd_index d = I /\ mask (bd_component d) = true
                      /\ is_Some (fs !! bd_boundary_id d)) l ->
  fold_left (fun bv d =>
    match fs !! bd_boundary_id d with
    | Some f =>
        if mask (bd_component d)
        then <[bd_index d := f (bd_point d) (bd_component d)]> bv
        else bv
    | None => bv
    end) l bv !! I = Some w.
Proof.
  unfold Function in *.
  revert bv. induction l as [|d l IH]; intros bv Hw H; cbn [fold_left].
  - destruct H as [H|H]; [exact H|]. apply Exists_nil in H. contradiction.
  - apply IH; [intros d' f Hd'; apply Hw; right; exact Hd'|].
    rewrite Exists_cons in H.
    destruct H as [H|[(Hidx & Hm & [f Hf])|H]].
    + left. destruct (fs !! bd_boundary_id d) as [f|] eqn:Hf; [|exact H].
      destruct (mask (bd_component d)); [|exact H].
      destruct (decide (bd_index d = I)) as [Hd|Hne].
      * rewrite Hd, lookup_insert_eq. f_equal.
        apply Hw; [left; reflexivity|exact Hd|exact Hf].
      * rewrite lookup_insert_ne by exact Hne. exact H.
    + left. rewrite Hf, Hm, Hidx, lookup_insert_eq. f_equal.
      apply Hw; [left; reflexivity|exact Hidx|exact Hf].
    + right. exact H.
Qed.

(** X10.  A constrained DoF that lies on the inlet only (every boundary
    record of the DoF names region 0, one support point and one
    component) receives the inlet profile evaluated at the time given to
    the assembly, at that point and in that component. *)
Theorem inlet_value_is_taken_at_the_step_time (t : Qc) (I : nat) (p : Point)
    (k : nat) :
  constrained mesh I ->
  (forall d, In d (boundary_dofs mesh) -> bd_index d = I ->
             bd_boundary_id d = 0%nat /\ bd_point d = p /\ bd_component d = k) ->
  dirichlet_values mesh pb t !! I = Some (inlet_velocity pb t p k).
Proof.
  intros Hc Honly. unfold dirichlet_values, interpolate_boundary_values.
  cbv zeta. rewrite interpolate_untouched.
  - apply interpolate_at.
    + intros d f Hd Hidx Hf.
      destruct (Honly d Hd Hidx) as (Hid & Hp & Hk).
      rewrite Hid, lookup_insert_eq in Hf. injection Hf as <-.
      rewrite Hp, Hk. reflexivity.
    + right. unfold constrained in Hc. rewrite Exists_exists in Hc.
      rewrite Exists_exists. destruct Hc as (d & Hd & Hidx & Hm & _).
      exists d. repeat split; try assumption.
      pose proof (proj1 (list_elem_of_In _ _) Hd) as Hin.
      destruct (Honly d Hin Hidx) as (-> & _). rewrite lookup_insert_eq. eauto.
  - intros d Hd Hidx. destruct (Honly d Hd Hidx) as (-> & _).
    rewrite !lookup_insert_ne by discriminate. apply lookup_empty.
Qed.

End FirstStep.

(** * The time loop *)

Section Loop.

Context (mesh : Discretisation) (pb : Problem) (lib : Library).

(** ** One linear solve *)

(** X11.  [solve_time_step] changes no operator and no right-hand side.
    When it returns, the solution is the owned vector the solver filled
    and the previous solution is the solution it was called with.  When
    it does not return, the exception is the solver's
    [NoConvergence] at the iteration cap, never the invalid
    preconditioner type of the [default] branch; the solution is then
    still the one it was called with, and the previous solution has
    already been overwritten by it. *)
Theorem solve_time_step_keeps_the_system (st : NavierStokes) :
  match solve_time_step mesh lib st with
  | Returned st' =>
      same_system st st'
      /\ solution st' = solution_owned st'
      /\ previous_solution st' = solution st
  | Thrown e st' =>
      same_system st st'
      /\ (exists r, e = ExcNoConvergence maxiter r /\ tol < r)
      /\ solution st' = solution st
      /\ previous_solution st' = solution st
  | DivisionByZero _ | OutOfFuel => False
  end.
Proof.
  unfold solve_time_step, preconditioner_type, select_preconditioner.
  projections.
  match goal with
  | |- context [gmres_solve lib ?A ?x0 ?b ?P] =>
      pose proof (gmres_solve_spec lib A x0 b P) as Hs;
      destruct (gmres_solve lib A x0 b P) as [k x|k r x]
  end; projections; unfold same_system; projections.
  - repeat split; reflexivity.
  - destruct Hs as (-> & _ & Hr). repeat split; try reflexivity.
    exists r. split; [reflexivity|exact Hr].
Qed.

Lemma solve_time_step_Returned_yosida (st st3 : NavierStokes) :
  solve_time_step mesh lib st = Returned st3 ->
  exists k,
    gmres_solve lib (system_matrix st) (solution_owned st) (system_rhs st)
      (PreconditionYosida
         (block mesh 0 0 (system_matrix st)) (block mesh 1 0 (system_matrix st))
         (block mesh 0 1 (system_matrix st)) (block mesh 0 0 (mass_matrix st))
         (solution_owned st))
    = Converged k (solution st3).
Proof.
  unfold solve_time_step, preconditioner_type, select_preconditioner.
  projections.
  match goal with
  | |- context [gmres_solve lib ?A ?x0 ?b ?P] =>
      destruct (gmres_solve lib A x0 b P) as [k x|k r x]
  end; [|discriminate].
  intros H. injection H as <-. exists k. reflexivity.
Qed.

Lemma assemble_step_solution_owned (t : Qc) (st : NavierStokes) :
  solution_owned (assemble_step mesh pb t st) = solution_owned st.
Proof. unfold assemble_step. destruct (decide (t = deltat pb)); reflexivity. Qed.

Lemma advance_solution_owned (l l' : TimeLoop) :
  advance mesh pb lib l = Returned l' ->
  solution_owned (ns l') = solution (ns l').
Proof.
  intros Hadv. apply advance_frame in Hadv. cbv zeta in Hadv.
  destruct Hadv as (_ & st3 & Hsolve & -> & ->).
  apply solve_time_step_Returned in Hsolve as (k & x & P & _ & ->).
  reflexivity.
Qed.

Lemma reachable_solution_owned (l : TimeLoop) :
  reachable mesh pb lib l -> solution_owned (ns l) = solution (ns l).
Proof.
  intros Hr. destruct Hr as [|l l' _ _ Hadv]; [reflexivity|].
  exact (advance_solution_owned l l' Hadv).
Qed.

(** X12.  The Krylov solve of a step starts from the solution of the
    previous step (from the initial condition at the first step), not
    from a zero vector, and is preconditioned by the Yosida
    preconditioner built from the blocks (0, 0), (1, 0) and (0, 1) of
    the system matrix of the step and from the velocity block of the
    mass matrix; the solution the step leaves is the iterate the solver
    returns. *)
Theorem solver_starts_from_the_previous_solution (l l' : TimeLoop) :
  reachable mesh pb lib l -> advance mesh pb lib l = Returned l' ->
  solution_owned (ns l) = solution (ns l)
  /\ solution_owned (ns l') = solution (ns l')
  /\ exists k,
       gmres_solve lib (system_matrix (ns l')) (solution (ns l))
         (system_rhs (ns l'))
         (PreconditionYosida
            (block mesh 0 0 (system_matrix (ns l')))
            (block mesh 1 0 (system_matrix (ns l')))
            (block mesh 0 1 (system_matrix (ns l')))
            (block mesh 0 0 (mass_matrix (ns l')))
            (solution (ns l)))
       = Converged k (solution (ns l')).
Proof.
  intros Hr Hadv.
  pose proof (reachable_solution_owned l Hr) as Hl.
  pose proof (advance_solution_owned l l' Hadv) as Hl'.
  split; [exact Hl|]. split; [exact Hl'|].
  pose proof (advance_frame _ _ _ _ _ Hadv) as Hf. cbv zeta in Hf.
  destruct Hf as (_ & st3 & Hsolve & _ & Hs3).
  apply advance_Returned in Hadv. cbv zeta in Hadv.
  destruct Hadv as (st3' & ext & _ & E1 & E2 & _ & _ & E5 & _).
  apply solve_time_step_Returned_yosida in Hsolve as (k & Hk).
  rewrite assemble_step_solution_owned in Hk. projections.
  cbn [solution_owned set_time] in Hk.
  exists k. rewrite E1, E2, E5, Hs3, <- Hl. exact Hk.
Qed.

End Loop.

(** * Forces and the pressure probe *)

Section Forces.

Context (mesh : Discretisation) (pb : Problem) (lib : Library).

(** ** The reduction of the probe values *)

Lemma Qcmax_ge_l (a b : Qc) : a <= Qcmax a b.
Proof.
  unfold Qcmax. destruct (decide (a < b)) as [H|H];
    [apply Qclt_le_weak; exact H|apply Qcle_refl].
Qed.

Lemma Qcmax_ge_r (a b : Qc) : b <= Qcmax a b.
Proof.
  unfold Qcmax. destruct (decide (a < b)) as [H|H];
    [apply Qcle_refl|apply Qcnot_lt_le; exact H].
Qed.

Lemma Qcmax_cases (a b : Qc) : Qcmax a b = a \/ Qcmax a b = b.
Proof. unfold Qcmax. destruct (decide (a < b)); auto. Qed.

Lemma fold_max_ge (local : nat -> Qc) (l : list nat) (acc : Qc) :
  acc <= fold_left (fun acc rank => Qcmax acc (local rank)) l acc
  /\ forall rank, In rank l ->
       local rank <= fold_left (fun acc rank => Qcmax acc (local rank)) l acc.
Proof.
  revert acc. induction l as [|r l IH]; intros acc; cbn [fold_left].
  - split; [apply Qcle_refl|intros rank []].
  - destruct (IH (Qcmax acc (local r))) as (Hacc & Hl). split.
    + exact (Qcle_trans _ _ _ (Qcmax_ge_l acc (local r)) Hacc).
    + intros rank [<-|Hin]; [|apply Hl; exact Hin].
      exact (Qcle_trans _ _ _ (Qcmax_ge_r acc (local r)) Hacc).
Qed.

Lemma fold_max_attained (local : nat -> Qc) (l : list nat) (acc : Qc) :
  fold_left (fun acc rank => Qcmax acc (local rank)) l acc = acc
  \/ exists rank, In rank l
       /\ fold_left (fun acc rank => Qcmax acc (local rank)) l acc = local rank.
Proof.
  revert acc. induction l as [|r l IH]; intros acc; cbn [fold_left];
    [left; reflexivity|].
  destruct (IH (Qcmax acc (local r))) as [H|(rank & Hin & H)].
  - rewrite H. destruct (Qcmax_cases acc (local r)) as [->| ->];
      [left; reflexivity|right; exists r; split; [left|]; reflexivity].
  - right. exists rank. split; [right; exact Hin|exact H].
Qed.

Lemma MPI_Reduce_MAX_ge (size rank : nat) (local : nat -> Qc) :
  (rank < size)%nat -> local rank <= MPI_Reduce_MAX size local.
Proof.
  intros Hr. unfold MPI_Reduce_MAX.
  destruct (fold_max_ge local (seq 1 (size - 1)) (local 0%nat)) as (H0 & Hl).
  destruct rank as [|rank]; [exact H0|].
  apply Hl. apply in_seq. lia.
Qed.

Lemma MPI_Reduce_MAX_attained (size : nat) (local : nat -> Qc) :
  (1 <= size)%nat ->
  exists rank, (rank < size)%nat /\ MPI_Reduce_MAX size local = local rank.
Proof.
  intros Hs. unfold MPI_Reduce_MAX.
  destruct (fold_max_attained local (seq 1 (size - 1)) (local 0%nat))
    as [H|(rank & Hin & H)].
  - exists 0%nat. split; [lia|exact H].
  - exists rank. apply in_seq in Hin. split; [lia|exact H].
Qed.

(** X16.  The pressure that [compute_pressure_difference] takes at a
    probe point is the largest of the values of the processes, a process
    that does not hold the point counting as 0.  So it is never negative
    once some process lacks the point, and when exactly one of at least
    two processes holds the point, with pressure [v], it is [v] when [v]
    is positive and 0 otherwise. *)
Theorem probe_value_is_the_largest_local_value (u : Vector) (p : Point) :
  (forall rank, (rank < mpi_size mesh)%nat ->
     pres_point lib rank u p <= global_pres_point mesh lib u p)
  /\ (forall rank, (rank < mpi_size mesh)%nat ->
        point_value lib rank u p = None ->
        0 <= global_pres_point mesh lib u p)
  /\ (forall owner v,
        (2 <= mpi_size mesh)%nat -> (owner < mpi_size mesh)%nat ->
        point_value lib owner u p = Some v ->
        (forall rank, rank <> owner -> point_value lib rank u p = None) ->
        global_pres_point mesh lib u p = Qcmax 0 (v dim)).
Proof.
  unfold global_pres_point. split; [|split].
  - intros rank Hr.
    exact (MPI_Reduce_MAX_ge _ rank (fun r => pres_point lib r u p) Hr).
  - intros rank Hr Hnone.
    pose proof (MPI_Reduce_MAX_ge _ rank (fun r => pres_point lib r u p) Hr)
      as H.
    cbv beta in H. unfold pres_point at 1 in H. rewrite Hnone in H. exact H.
  - intros owner v Hsize Hown Hv Hother.
    set (local := fun r => pres_point lib r u p).
    assert (Hlo : local owner = v dim).
    { unfold local, pres_point. rewrite Hv. reflexivity. }
    assert (Hl0 : forall r, r <> owner -> local r = 0).
    { intros r Hr. unfold local, pres_point. rewrite (Hother r Hr).
      reflexivity. }
    pose proof (MPI_Reduce_MAX_ge _ owner local Hown) as Hge.
    rewrite Hlo in Hge.
    assert (Hge0 : 0 <= MPI_Reduce_MAX (mpi_size mesh) local).
    { destruct (decide (owner = 0%nat)) as [Hz|Hz].
      - rewrite <- (Hl0 1%nat) by lia. apply MPI_Reduce_MAX_ge. lia.
      - rewrite <- (Hl0 0%nat) by lia. apply MPI_Reduce_MAX_ge. lia. }
    destruct (MPI_Reduce_MAX_attained (mpi_size mesh) local ltac:(lia))
      as (r & _ & Hr).
    assert (Hval : MPI_Reduce_MAX (mpi_size mesh) local = v dim
                   \/ MPI_Reduce_MAX (mpi_size mesh) local = 0).
    { rewrite Hr. destruct (decide (r = owner)) as [->|Hne];
        [left; exact Hlo|right; apply Hl0; exact Hne]. }
    unfold Qcmax. destruct (decide (0 < v dim)) as [Hpos|Hneg].
    + destruct Hval as [H|H]; [exact H|].
      exfalso. rewrite H in Hge. exact (Qclt_not_le _ _ Hpos Hge).
    + destruct Hval as [H|H]; [|exact H].
      apply Qcnot_lt_le in Hneg. rewrite H in Hge0 |- *.
      apply Qcle_antisym; assumption.
Qed.

(** ** The force coefficients *)

Lemma reference_area_nonzero : D * H <> 0.
Proof. apply (bool_decide_eq_true_1 _). vm_compute. reflexivity. Qed.

Lemma denominator_zero (r v : Qc) :
  r * v * v * D * H = 0 <-> r = 0 \/ v = 0.
Proof.
  split.
  - intros Hz.
    replace (r * v * v * D * H) with ((r * v * v) * (D * H)) in Hz by ring.
    apply Qcmult_integral in Hz as [Hz|Hz];
      [|exfalso; exact (reference_area_nonzero Hz)].
    apply Qcmult_integral in Hz as [Hz|Hz]; [|right; exact Hz].
    apply Qcmult_integral in Hz as [Hz|Hz]; auto.
  - intros [-> | ->]; ring.
Qed.

(** X17.  [compute_forces] yields coefficients exactly when the force
    integrals are defined and neither the density nor the mean inlet
    velocity at the time last given to the inlet is zero; the
    coefficients are then twice the drag and twice the lift over
    [rho * U * U * D * H], and the call changes neither the linear
    system nor the solution. *)
Theorem force_coefficients_are_defined (st : NavierStokes) :
  (is_Some (compute_forces mesh pb st)
   <-> is_Some (integrate_forces mesh pb (solution st))
       /\ rho pb <> 0 /\ getMeanVelocity pb (inlet_time st) <> 0)
  /\ (forall st' c,
        compute_forces mesh pb st = Some (st', c) ->
        exists drag lift,
          integrate_forces mesh pb (solution st) = Some (drag, lift)
          /\ fst c
             = 2 * drag
               / (rho pb * getMeanVelocity pb (inlet_time st)
                  * getMeanVelocity pb (inlet_time st) * D * H)
          /\ snd c
             = 2 * lift
               / (rho pb * getMeanVelocity pb (inlet_time st)
                  * getMeanVelocity pb (inlet_time st) * D * H)
          /\ same_system st st'
          /\ solution st' = solution st).
Proof.
  unfold compute_forces, force_coefficients, checked_div.
  set (U := getMeanVelocity pb (inlet_time st)).
  pose proof (denominator_zero (rho pb) U) as Hden.
  destruct (integrate_forces mesh pb (solution st)) as [[drag lift]|];
    projections.
  - destruct (decide (rho pb * U * U * D * H = 0)) as [Hz|Hz]; projections.
    + split.
      * split; [intros [x Hx]; discriminate|].
        intros (_ & Hr & HU). exfalso.
        apply Hden in Hz as [Hz|Hz]; contradiction.
      * intros st' c Hc. discriminate.
    + split.
      * split; [|intros _; eauto].
        intros _. split; [eauto|].
        split; intros H0; apply Hz; apply Hden; auto.
      * intros st' c Hc. injection Hc as <- <-. exists drag, lift.
        unfold same_system. projections. repeat split; reflexivity.
  - split.
    + split; [intros [x Hx]; discriminate|].
      intros ([x Hx] & _). discriminate.
    + intros st' c Hc. discriminate.
Qed.

(** ** Faces that are not on the obstacle *)

Lemma fold_left_unchanged {A B : Type} (g : A -> B -> A) (l : list B) (a : A) :
  (forall x, In x l -> g a x = a) -> fold_left g l a = a.
Proof.
  induction l as [|x l IH]; intros H; cbn [fold_left]; [reflexivity|].
  rewrite (H x) by (left; reflexivity).
  apply IH. intros y Hy. apply H. right. exact Hy.
Qed.

(** X18.  Only faces of the obstacle, boundary id 3, enter the force
    integrals: on a mesh none of whose faces lies on the obstacle the
    drag and the lift are zero for every solution, and so are the
    coefficients whenever they are defined. *)
Theorem forces_come_from_the_obstacle_only (st : NavierStokes) :
  (forall c f, In c (cells mesh) -> In f (faces c) -> on_obstacle f = false) ->
  integrate_forces mesh pb (solution st) = Some (0, 0)
  /\ (forall st' c, compute_forces mesh pb st = Some (st', c) -> c = (0, 0)).
Proof.
  intros Hfree.
  assert (Hlocal : forall rank,
            local_forces mesh pb rank (solution st) = Some (0, 0)).
  { intros rank. unfold local_forces. apply fold_left_unchanged.
    intros c Hc. unfold cell_forces.
    destruct (is_locally_owned rank c); [|reflexivity].
    destruct (at_boundary c); [|reflexivity].
    apply fold_left_unchanged. intros f Hf. unfold face_forces.
    rewrite (Hfree c f Hc Hf). reflexivity. }
  assert (Hint : integrate_forces mesh pb (solution st) = Some (0, 0)).
  { unfold integrate_forces. apply fold_left_unchanged.
    intros rank _. rewrite Hlocal. projections.
    replace (0 + 0) with 0 by ring. reflexivity. }
  split; [exact Hint|].
  intros st' c Hc. apply compute_forces_Some in Hc as (forces & Hf & Hc & _).
  rewrite Hint in Hf. injection Hf as <-.
  unfold force_coefficients, checked_div in Hc. projections.
  destruct (decide (_ = 0)); [discriminate|].
  cbn [mbind option_bind fst snd] in Hc. injection Hc as <-.
  f_equal; unfold Qcdiv; ring.
Qed.

End Forces.

Ltac double_projections :=
  cbn [d_ns d_c_D_max d_c_L_min d_time_step d_time].

(** * The run with the clock as a double *)

Section DoubleRun.

Context (mesh : Discretisation) (pb : Problem) (lib : Library) (k : Clock).

Lemma assemble_step_double_log (t : PrimFloat.float) (st : NavierStokes) :
  pcout (assemble_step_double mesh pb k t st)
  = pcout st ++ [Separator; AssemblingTheSystem]
    ++ (if PrimFloat.eqb t (deltat_double k) then []
        else if decide (Double.value t = -1)
             then [ReinitializeMassMatrixForBDF2] else []).
Proof.
  unfold assemble_step_double.
  destruct (PrimFloat.eqb t (deltat_double k)); [reflexivity|].
  unfold assemble_time_step. projections. reflexivity.
Qed.

Lemma assemble_step_double_inlet_time (t : PrimFloat.float)
    (st : NavierStokes) :
  inlet_time (assemble_step_double mesh pb k t st) = Double.value t.
Proof.
  unfold assemble_step_double.
  destruct (PrimFloat.eqb t (deltat_double k)); reflexivity.
Qed.

(** ** What a step writes *)

(** One completed iteration: the clock, the step number, the running
    extrema and the lines written. *)
Lemma advance_double_Returned (l l' : DoubleLoop) :
  advance_double mesh pb lib k l = Returned l' ->
  let t' := PrimFloat.add (d_time l) (deltat_double k) in
  let n := S (d_time_step l) in
  d_time l' = t' /\ d_time_step l' = n
  /\ exists i forces,
       (if PrimFloat.ltb Double.tenth t'
        then exists drag lift c_d c_l,
               integrate_forces mesh (with_clock pb k) (solution (d_ns l'))
               = Some (drag, lift)
               /\ coefficients_of mesh (with_clock pb k) (d_ns l')
                  = Some (c_d, c_l)
               /\ forces = [Separator; ComputingForces; DragLift drag lift;
                            Coeff c_d c_l; Separator]
               /\ d_c_D_max l' = Qcmax c_d (d_c_D_max l)
               /\ d_c_L_min l' = Qcmin c_l (d_c_L_min l)
        else forces = [] /\ d_c_D_max l' = d_c_D_max l
             /\ d_c_L_min l' = d_c_L_min l)
       /\ pcout (d_ns l')
          = pcout (d_ns l)
            ++ [StepHeader n (Double.value t'); Separator; AssemblingTheSystem]
            ++ (if PrimFloat.eqb t' (deltat_double k) then []
                else if decide (Double.value t' = -1)
                     then [ReinitializeMassMatrixForBDF2] else [])
            ++ [Separator; TimeToInitializePreconditioner; TimeToSolve;
                ResultGMRESIterations i]
            ++ (if PrimFloat.eqb t'
                     (PrimFloat.sub (T_double k) (deltat_double k))
                then [PressureDifference
                        (global_pres_point mesh lib (solution (d_ns l')) p_a
                         - global_pres_point mesh lib (solution (d_ns l')) p_e)]
                else [])
            ++ forces
            ++ (if decide (n mod 20 = 0)%nat
                then [Separator; OutputWritten n; Separator] else []).
Proof.
  unfold advance_double. cbv zeta.
  set (t' := PrimFloat.add (d_time l) (deltat_double k)).
  set (n := S (d_time_step l)).
  set (st2 := assemble_step_double mesh pb k t' _).
  assert (Hlog2 : pcout st2
                  = pcout (d_ns l)
                    ++ [StepHeader n (Double.value t'); Separator;
                        AssemblingTheSystem]
                    ++ (if PrimFloat.eqb t' (deltat_double k) then []
                        else if decide (Double.value t' = -1)
                             then [ReinitializeMassMatrixForBDF2] else [])).
  { unfold st2. rewrite assemble_step_double_log. projections.
    rewrite <- app_assoc. reflexivity. }
  assert (Ht2 : inlet_time st2 = Double.value t')
    by apply assemble_step_double_inlet_time.
  destruct (solve_time_step mesh lib st2) as [st3|e st|st|] eqn:Hsolve;
    try discriminate.
  pose proof (solve_time_step_Returned _ _ _ _ Hsolve) as (i & x & P & _ & Hst3).
  assert (Hlog3 : pcout st3
                  = pcout st2 ++ [Separator; TimeToInitializePreconditioner;
                                  TimeToSolve; ResultGMRESIterations i]).
  { rewrite Hst3. projections. rewrite <- app_assoc. reflexivity. }
  assert (Ht3 : inlet_time st3 = Double.value t') by (rewrite Hst3; exact Ht2).
  clear Hst3 Hsolve.
  set (last_but_one :=
         PrimFloat.eqb t' (PrimFloat.sub (T_double k) (deltat_double k))).
  set (st4 := if last_but_one
              then compute_pressure_difference mesh lib st3 else st3).
  assert (H4 : solution st4 = solution st3
               /\ inlet_time st4 = Double.value t'
               /\ pcout st4
                  = pcout st3
                    ++ (if last_but_one
                        then [PressureDifference
                                (global_pres_point mesh lib (solution st3) p_a
                                 - global_pres_point mesh lib (solution st3) p_e)]
                        else [])).
  { unfold st4. destruct last_but_one.
    - projections. auto.
    - rewrite app_nil_r. auto. }
  destruct H4 as (Hs4 & Ht4 & Hlog4).
  clearbody st4 st2 last_but_one.
  destruct (PrimFloat.ltb Double.tenth t').
  - destruct (compute_forces mesh (with_clock pb k) st4)
      as [[st5 [c_d c_l]]|] eqn:Hf; [|discriminate].
    pose proof (coefficients_of_Some _ _ _ _ _ Hf) as Hc.
    apply compute_forces_Some in Hf as ([drag lift] & Hint & _ & Hst5).
    cbn [fst snd] in Hst5.
    assert (Hreport : forall st6,
              solution st6 = solution st4 -> inlet_time st6 = inlet_time st4 ->
              exists drag' lift' c_d' c_l',
                integrate_forces mesh (with_clock pb k) (solution st6)
                = Some (drag', lift')
                /\ coefficients_of mesh (with_clock pb k) st6 = Some (c_d', c_l')
                /\ [Separator; ComputingForces; DragLift drag lift;
                    Coeff c_d c_l; Separator]
                   = [Separator; ComputingForces; DragLift drag' lift';
                      Coeff c_d' c_l'; Separator]
                /\ Qcmax c_d (d_c_D_max l) = Qcmax c_d' (d_c_D_max l)
                /\ Qcmin c_l (d_c_L_min l) = Qcmin c_l' (d_c_L_min l)).
    { intros st6 Hs6 Ht6. exists drag, lift, c_d, c_l.
      split; [rewrite Hs6; exact Hint|]. split; [|auto].
      rewrite <- Hc. apply coefficients_of_ext; assumption. }
    destruct (decide (n mod 20 = 0)%nat);
      intros H; injection H as <-; double_projections;
      (split; [reflexivity|split; [reflexivity|]]); exists i;
      exists [Separator; ComputingForces; DragLift drag lift;
              Coeff c_d c_l; Separator];
      split.
    + apply Hreport; rewrite Hst5; reflexivity.
    + rewrite Hst5. projections.
      rewrite Hs4, Hlog4, Hlog3, Hlog2.
      rewrite <- !app_assoc, ?app_nil_r. reflexivity.
    + apply Hreport; rewrite Hst5; reflexivity.
    + rewrite Hst5. projections.
      rewrite Hs4, Hlog4, Hlog3, Hlog2.
      rewrite <- !app_assoc, ?app_nil_r. reflexivity.
  - destruct (decide (n mod 20 = 0)%nat);
      intros H; injection H as <-; double_projections;
      (split; [reflexivity|split; [reflexivity|]]); exists i, [];
      (split; [auto|]).
    + projections.
      rewrite Hs4, Hlog4, Hlog3, Hlog2.
      rewrite <- !app_assoc, ?app_nil_r. reflexivity.
    + rewrite Hs4, Hlog4, Hlog3, Hlog2.
      rewrite <- !app_assoc, ?app_nil_r. reflexivity.
Qed.



(** ** The final summary *)

Lemma Qcmin_le_l (a b : Qc) : Qcmin a b <= a.
Proof.
  unfold Qcmin. destruct (decide (b < a)) as [H|H];
    [apply Qclt_le_weak; exact H|apply Qcle_refl].
Qed.

Lemma Qcmin_le_r (a b : Qc) : Qcmin a b <= b.
Proof.
  unfold Qcmin. destruct (decide (b < a)) as [H|H];
    [apply Qcle_refl|apply Qcnot_lt_le; exact H].
Qed.

Lemma Qcmin_cases (a b : Qc) : Qcmin a b = a \/ Qcmin a b = b.
Proof. unfold Qcmin. destruct (decide (b < a)); auto. Qed.

(** The running maximum is the largest of the start value and of the
    coefficients, and it is one of them. *)
Lemma running_max_is_max (cs : list Qc) (start : Qc) :
  Forall (fun c => c <= running_max start cs) (start :: cs)
  /\ In (running_max start cs) (start :: cs).
Proof.
  revert start. induction cs as [|c cs IH]; intros start;
    unfold running_max in *; cbn [fold_left].
  - split; [repeat constructor; apply Qcle_refl|left; reflexivity].
  - destruct (IH (Qcmax c start)) as (Hall & Hin).
    apply Forall_cons in Hall as (Hm & Hall). split.
    + constructor;
        [exact (Qcle_trans _ _ _ (Qcmax_ge_r c start) Hm)|].
      constructor; [exact (Qcle_trans _ _ _ (Qcmax_ge_l c start) Hm)|exact Hall].
    + destruct Hin as [Hin|Hin]; [|right; right; exact Hin].
      rewrite <- Hin.
      destruct (Qcmax_cases c start) as [->| ->];
        [right; left; reflexivity|left; reflexivity].
Qed.

Lemma running_min_is_min (cs : list Qc) (start : Qc) :
  Forall (fun c => running_min start cs <= c) (start :: cs)
  /\ In (running_min start cs) (start :: cs).
Proof.
  revert start. induction cs as [|c cs IH]; intros start;
    unfold running_min in *; cbn [fold_left].
  - split; [repeat constructor; apply Qcle_refl|left; reflexivity].
  - destruct (IH (Qcmin c start)) as (Hall & Hin).
    apply Forall_cons in Hall as (Hm & Hall). split.
    + constructor;
        [exact (Qcle_trans _ _ _ Hm (Qcmin_le_r c start))|].
      constructor; [exact (Qcle_trans _ _ _ Hm (Qcmin_le_l c start))|exact Hall].
    + destruct Hin as [Hin|Hin]; [|right; right; exact Hin].
      rewrite <- Hin.
      destruct (Qcmin_cases c start) as [->| ->];
        [right; left; reflexivity|left; reflexivity].
Qed.

Lemma reported_coefficients_app (a b : list Message) :
  reported_coefficients (a ++ b)
  = reported_coefficients a ++ reported_coefficients b.
Proof. unfold reported_coefficients. apply flat_map_app. Qed.

(** What one completed iteration adds to the summary lines and to the
    reported coefficients of the log. *)
Lemma advance_double_lines (l l' : DoubleLoop) :
  advance_double mesh pb lib k l = Returned l' ->
  summary_lines (pcout (d_ns l')) = summary_lines (pcout (d_ns l))
  /\ reported_coefficients (pcout (d_ns l'))
     = reported_coefficients (pcout (d_ns l))
       ++ computed_coefficients mesh pb k [l']
  /\ d_c_D_max l'
     = running_max (d_c_D_max l)
         (map fst (computed_coefficients mesh pb k [l']))
  /\ d_c_L_min l'
     = running_min (d_c_L_min l)
         (map snd (computed_coefficients mesh pb k [l'])).
Proof.
  intros Hadv. apply advance_double_Returned in Hadv. cbv zeta in Hadv.
  destruct Hadv as (Ht & _ & i & forces & Hforces & Hlog).
  unfold computed_coefficients. cbn [flat_map]. rewrite app_nil_r, Ht.
  rewrite Hlog, !summary_lines_app, !reported_coefficients_app.
  destruct (PrimFloat.ltb Double.tenth _).
  - destruct Hforces as (drag & lift & c_d & c_l & _ & -> & -> & -> & ->).
    repeat match goal with
           | |- context [if ?b then _ else _] => destruct b
           end;
      cbn [summary_lines reported_coefficients flat_map app map fst snd
           running_max running_min fold_left];
      rewrite ?app_nil_r; auto.
  - destruct Hforces as (-> & -> & ->).
    repeat match goal with
           | |- context [if ?b then _ else _] => destruct b
           end;
      cbn [summary_lines reported_coefficients flat_map app map fst snd
           running_max running_min fold_left];
      rewrite ?app_nil_r; auto.
Qed.

Lemma computed_coefficients_cons (l : DoubleLoop) (trace : list DoubleLoop) :
  computed_coefficients mesh pb k (l :: trace)
  = computed_coefficients mesh pb k [l]
    ++ computed_coefficients mesh pb k trace.
Proof.
  unfold computed_coefficients. cbn [flat_map]. rewrite app_nil_r.
  reflexivity.
Qed.

Lemma running_max_app (start : Qc) (a b : list Qc) :
  running_max start (a ++ b) = running_max (running_max start a) b.
Proof. unfold running_max. apply fold_left_app. Qed.

Lemma running_min_app (start : Qc) (a b : list Qc) :
  running_min start (a ++ b) = running_min (running_min start a) b.
Proof. unfold running_min. apply fold_left_app. Qed.

Lemma time_loop_double_Returned (fuel : nat) (l lf : DoubleLoop) :
  time_loop_double mesh pb lib k fuel l = Returned lf ->
  let computed :=
    computed_coefficients mesh pb k
      (loop_trace_double mesh pb lib k fuel l) in
  d_c_D_max lf = running_max (d_c_D_max l) (map fst computed)
  /\ d_c_L_min lf = running_min (d_c_L_min l) (map snd computed)
  /\ reported_coefficients (pcout (d_ns lf))
     = reported_coefficients (pcout (d_ns l)) ++ computed
  /\ summary_lines (pcout (d_ns lf)) = summary_lines (pcout (d_ns l))
  /\ loop_condition_double k lf = false.
Proof.
  cbv zeta. revert l. induction fuel as [|fuel IH]; intros l;
    cbn [time_loop_double loop_trace_double];
    destruct (loop_condition_double k l) eqn:Hc.
  - discriminate.
  - intros H. injection H as <-. rewrite app_nil_r. auto.
  - destruct (advance_double mesh pb lib k l) as [l'| | |] eqn:Hadv;
      try discriminate.
    intros H. apply IH in H as (HD & HL & Hrep & Hsum & Hend).
    apply advance_double_lines in Hadv as (Hs1 & Hr1 & HD1 & HL1).
    rewrite computed_coefficients_cons, !map_app, running_max_app,
      running_min_app, <- HD1, <- HL1, app_assoc, <- Hr1, <- Hs1.
    auto.
  - intros H. injection H as <-. rewrite app_nil_r. auto.
Qed.

(** C9, amended.  A run that completes, every linear solve converged
    and no division of [compute_forces] met a zero divisor, writes the
    summary once, as its last lines.  Its two numbers are the largest of
    -999 and of the drag coefficients, and the smallest of 999 and of
    the lift coefficients, that the run computed and reported: those of
    the steps whose clock, the double accumulated by [time += deltat],
    compares greater than the double 0.1. *)
Theorem C9_final_summary_double (fuel : nat) (st : NavierStokes) :
  solve_double mesh pb lib k fuel after_setup = Returned st ->
  let trace :=
    loop_trace_double mesh pb lib k fuel
      (initial_loop_double pb k after_setup) in
  let computed := computed_coefficients mesh pb k trace in
  let c_D := running_max (qc (-999) 1) (map fst computed) in
  let c_L := running_min (qc 999 1) (map snd computed) in
  (exists before,
     pcout st = before ++ [Separator; DragCoefficientMax c_D;
                           LiftCoefficientMin c_L; Separator]
     /\ summary_lines before = []
     /\ reported_coefficients before = computed)
  /\ summary_lines (pcout st) = [(true, c_D); (false, c_L)]
  /\ Forall (fun c => c <= c_D) (qc (-999) 1 :: map fst computed)
  /\ In c_D (qc (-999) 1 :: map fst computed)
  /\ Forall (fun c => c_L <= c) (qc 999 1 :: map snd computed)
  /\ In c_L (qc 999 1 :: map snd computed).
Proof.
  unfold solve_double.
  destruct (time_loop_double mesh pb lib k fuel
              (initial_loop_double pb k after_setup))
    as [lf| | |] eqn:Hloop; try discriminate.
  intros H. injection H as <-. cbv zeta.
  apply time_loop_double_Returned in Hloop as (HD & HL & Hrep & Hsum & _).
  cbn [initial_loop_double initial_loop d_c_D_max d_c_L_min c_D_max c_L_min]
    in HD, HL.
  rewrite <- HD, <- HL.
  unfold final_summary_double. projections.
  split; [|split].
  - exists (pcout (d_ns lf)). split; [reflexivity|]. split.
    + rewrite Hsum. reflexivity.
    + rewrite Hrep. reflexivity.
  - rewrite summary_lines_app, Hsum. reflexivity.
  - rewrite HD, HL.
    destruct (running_max_is_max
                (map fst (computed_coefficients mesh pb k
                   (loop_trace_double mesh pb lib k fuel
                      (initial_loop_double pb k after_setup)))) (qc (-999) 1))
      as (M1 & M2).
    destruct (running_min_is_min
                (map snd (computed_coefficients mesh pb k
                   (loop_trace_double mesh pb lib k fuel
                      (initial_loop_double pb k after_setup)))) (qc 999 1))
      as (N1 & N2).
    auto.
Qed.

End DoubleRun.

(** * The further properties on the small instances *)

Lemma demo_advance (l : TimeLoop) :
  reachable Demo.mesh Demo.pb Demo.lib l ->
  loop_condition Demo.pb l ->
  is_returned (advance Demo.mesh Demo.pb Demo.lib l) = true ->
  advance Demo.mesh Demo.pb Demo.lib l = Returned (Demo.next l).
Proof. intros Hr Hc Hret. apply demo_next_reachable; assumption. Qed.

Lemma channel_partitioned : partitioned Channel.mesh.
Proof. unfold partitioned. cbn. repeat constructor. Qed.

Lemma assembly_is_partition_independent_witness :
  partitioned Channel.mesh
  /\ assemble_matrix Channel.mesh (cell_mass_matrix Channel.mesh Demo.pb)
       0%nat 0%nat
     = serial_matrix Channel.mesh (cell_mass_matrix Channel.mesh Demo.pb)
         0%nat 0%nat
  /\ assemble_vector Channel.mesh
       (cell_rhs_time_step Channel.mesh Demo.pb (fun _ => 1)) 0%nat
     = serial_vector Channel.mesh
         (cell_rhs_time_step Channel.mesh Demo.pb (fun _ => 1)) 0%nat.
Proof.
  split; [exact channel_partitioned|].
  apply (assembly_is_partition_independent Channel.mesh).
  exact channel_partitioned.
Defined.

Lemma coupling_block_is_skew_symmetric_witness :
  well_numbered Demo.mesh = true
  /\ coupling_matrix Demo.mesh 0%nat 2%nat = - coupling_matrix Demo.mesh 2%nat 0%nat
  /\ ((0 < n_u Demo.mesh)%nat -> (2 < n_u Demo.mesh)%nat ->
      coupling_matrix Demo.mesh 0%nat 2%nat = 0)
  /\ ((n_u Demo.mesh <= 0)%nat -> (n_u Demo.mesh <= 2)%nat ->
      coupling_matrix Demo.mesh 0%nat 2%nat = 0).
Proof.
  split; [reflexivity|].
  apply (coupling_block_is_skew_symmetric Demo.mesh 0 2). reflexivity.
Defined.

Lemma velocity_blocks_are_symmetric_witness :
  well_numbered Demo.mesh = true
  /\ mass_matrix (ns Demo.l3) 0%nat 1%nat = mass_matrix (ns Demo.l3) 1%nat 0%nat
  /\ stiffness_matrix (ns Demo.l3) 0%nat 1%nat
     = stiffness_matrix (ns Demo.l3) 1%nat 0%nat
  /\ ((n_u Demo.mesh <= 0)%nat \/ (n_u Demo.mesh <= 1)%nat ->
      mass_matrix (ns Demo.l3) 0%nat 1%nat = 0
      /\ stiffness_matrix (ns Demo.l3) 0%nat 1%nat = 0
      /\ convection_matrix (ns Demo.l3) 0%nat 1%nat = 0)
  /\ ((1 <= time_step Demo.l3)%nat ->
      stiffness_matrix (ns Demo.l3) 0%nat 1%nat
      = assemble_matrix Demo.mesh (cell_stiffness_matrix Demo.mesh Demo.pb)
          0%nat 1%nat).
Proof.
  split; [reflexivity|].
  apply (velocity_blocks_are_symmetric Demo.mesh Demo.pb Demo.lib Demo.l3
           0%nat 1%nat).
  - reflexivity.
  - exact demo_l3_reachable.
Defined.

Lemma pressure_mass_is_assembled_once_witness :
  well_numbered Demo.mesh = true
  /\ (1 <= time_step Demo.l3)%nat
  /\ pressure_mass (ns Demo.l3) 2%nat 0%nat
     = assemble_matrix Demo.mesh (cell_pressure_mass_matrix Demo.mesh Demo.pb)
         2%nat 0%nat
  /\ pressure_mass (ns Demo.l3) 2%nat 0%nat = pressure_mass (ns Demo.l3) 0%nat 2%nat
  /\ ((2 < n_u Demo.mesh)%nat \/ (0 < n_u Demo.mesh)%nat ->
      pressure_mass (ns Demo.l3) 2%nat 0%nat = 0).
Proof.
  split; [reflexivity|]. split; [by_computation|].
  apply (pressure_mass_is_assembled_once Demo.mesh Demo.pb Demo.lib Demo.l3
           2%nat 0%nat).
  - reflexivity.
  - exact demo_l3_reachable.
  - by_computation.
Defined.

Lemma off_diagonal_blocks_are_opposite_transposes_witness :
  well_numbered Demo.mesh = true
  /\ (1 <= time_step Demo.l1)%nat
  /\ (1 < n_u Demo.mesh)%nat
  /\ ~ constrained Demo.mesh 1
  /\ block Demo.mesh 0 1 (system_matrix (ns Demo.l1)) 1%nat 0%nat
     = - block Demo.mesh 1 0 (system_matrix (ns Demo.l1)) 0%nat 1%nat
  /\ block Demo.mesh 1 0 (system_matrix (ns Demo.l1)) 0%nat 1%nat
     = coupling_matrix Demo.mesh (n_u Demo.mesh + 0)%nat 1%nat.
Proof.
  split; [reflexivity|]. split; [by_computation|]. split; [by_computation|].
  split; [exact demo_not_constrained_1|].
  apply (off_diagonal_blocks_are_opposite_transposes Demo.mesh Demo.pb Demo.lib
           Demo.l1 1 0).
  - reflexivity.
  - exact demo_l1_reachable.
  - by_computation.
  - by_computation.
  - exact demo_not_constrained_1.
Defined.

Lemma contributions_stay_inside_the_patterns_witness :
  In Demo.cell0 (cells Demo.mesh)
  /\ (2 < dofs_per_cell Demo.mesh)%nat
  /\ sparsity Demo.mesh 2%nat 2%nat = false
  /\ sparsity_pressure_mass Demo.mesh 0%nat 2%nat = false
  /\ (sparsity Demo.mesh (dof_indices Demo.cell0 2%nat) (dof_indices Demo.cell0 2%nat)
      = false ->
      cell_matrix Demo.mesh Demo.cell0 2 2 = 0
      /\ cell_mass_matrix Demo.mesh Demo.pb Demo.cell0 2 2 = 0
      /\ cell_mass_matrix_bdf2 Demo.mesh Demo.pb Demo.cell0 2 2 = 0
      /\ cell_stiffness_matrix Demo.mesh Demo.pb Demo.cell0 2 2 = 0
      /\ cell_convection_matrix Demo.mesh (fun _ => 1) Demo.cell0 2 2 = 0
      /\ cell_convection_matrix_time_step Demo.mesh (fun _ => 1) vec_zero
           Demo.cell0 2 2 = 0)
  /\ (sparsity_pressure_mass Demo.mesh (dof_indices Demo.cell0 2%nat)
        (dof_indices Demo.cell0 2%nat) = false ->
      cell_pressure_mass_matrix Demo.mesh Demo.pb Demo.cell0 2 2 = 0).
Proof.
  split; [left; reflexivity|]. split; [by_computation|].
  split; [reflexivity|]. split; [reflexivity|].
  apply (contributions_stay_inside_the_patterns Demo.mesh Demo.pb Demo.cell0
           2 2 (fun _ => 1) vec_zero).
  - left. reflexivity.
  - by_computation.
  - by_computation.
Defined.

Lemma convection_matrices_agree_without_divergence_witness :
  let u : Vector :=
    fun I => match I with O => 1 | S O => -1 | _ => 0 end in
  (forall q, (q < n_q Demo.mesh)%nat ->
     current_velocity_divergence Demo.mesh Demo.cell0 u q = 0)
  /\ cell_convection_matrix Demo.mesh u Demo.cell0 0 0 = 1
  /\ cell_convection_matrix Demo.mesh u Demo.cell0 0 0
     = cell_convection_matrix_time_step Demo.mesh u (fun _ => 1)
         Demo.cell0 0 0.
Proof.
  intros u.
  assert (H : forall q, (q < n_q Demo.mesh)%nat ->
                current_velocity_divergence Demo.mesh Demo.cell0 u q = 0).
  { intros q Hq. destruct q as [|q]; [by_computation|].
    exfalso. cbn in Hq. lia. }
  split; [exact H|]. split; [by_computation|].
  apply (convection_matrices_agree_without_divergence Demo.mesh u
           (fun _ => 1) Demo.cell0 0 0 H).
Defined.

Lemma first_step_starts_from_rest_witness :
  (forall K, u_0 Demo.pb K = 0)
  /\ time_step Demo.l1 = 1%nat
  /\ convection_matrix (ns Demo.l1) 1%nat 0%nat = 0
  /\ (~ constrained Demo.mesh 1 -> system_rhs (ns Demo.l1) 1%nat = 0).
Proof.
  split; [reflexivity|]. split; [reflexivity|].
  apply (first_step_starts_from_rest Demo.mesh Demo.pb Demo.lib Demo.l1
           1%nat 0%nat).
  - reflexivity.
  - exact demo_l1_reachable.
  - reflexivity.
Defined.

Lemma channel_constrained_0 : constrained Channel.mesh 0.
Proof. unfold constrained. apply Exists_cons_hd. cbn. auto. Qed.

Lemma channel_inlet_only (d : BoundaryDof) :
  In d (boundary_dofs Channel.mesh) -> bd_index d = 0%nat ->
  bd_boundary_id d = 0%nat /\ bd_point d = Channel.inlet_point
  /\ bd_component d = 0%nat.
Proof.
  cbn [Channel.mesh boundary_dofs In].
  intros [<-|[<-|[<-|[<-|[<-|[]]]]]]; cbn [bd_index bd_boundary_id bd_point
                                            bd_component];
    intros H; try discriminate H; repeat split; reflexivity.
Qed.

Lemma inlet_value_is_taken_at_the_step_time_witness :
  constrained Channel.mesh 0
  /\ dirichlet_values Channel.mesh Demo.pb (qc 2 10) !! 0%nat
     = Some (inlet_velocity Demo.pb (qc 2 10) Channel.inlet_point 0%nat).
Proof.
  split; [exact channel_constrained_0|].
  apply (inlet_value_is_taken_at_the_step_time Channel.mesh Demo.pb (qc 2 10)
           0%nat Channel.inlet_point 0%nat).
  - exact channel_constrained_0.
  - exact channel_inlet_only.
Defined.

Lemma demo_second_step :
  advance Demo.mesh Demo.pb Demo.lib Demo.l1 = Returned Demo.l2.
Proof.
  apply (demo_advance Demo.l1).
  - exact demo_l1_reachable.
  - by_computation.
  - vm_compute. reflexivity.
Qed.

Lemma channel_no_obstacle (c : Cell) (f : Face) :
  In c (cells Channel.mesh) -> In f (faces c) -> on_obstacle f = false.
Proof.
  cbn [Channel.mesh cells In].
  intros [<-|[<-|[]]]; cbn [Channel.cell_a Channel.cell_b faces In];
    intros [<-|[<-|[]]]; reflexivity.
Qed.

Lemma forces_come_from_the_obstacle_only_witness :
  (forall c f, In c (cells Channel.mesh) -> In f (faces c) ->
               on_obstacle f = false)
  /\ integrate_forces Channel.mesh Demo.pb (solution (ns Demo.l1))
     = Some (0, 0)
  /\ (forall st' c,
        compute_forces Channel.mesh Demo.pb (ns Demo.l1) = Some (st', c) ->
        c = (0, 0)).
Proof.
  split; [exact channel_no_obstacle|].
  apply (forces_come_from_the_obstacle_only Channel.mesh Demo.pb (ns Demo.l1)).
  exact channel_no_obstacle.
Defined.

Lemma solver_starts_from_the_previous_solution_witness :
  advance Demo.mesh Demo.pb Demo.lib Demo.l1 = Returned Demo.l2
  /\ solution_owned (ns Demo.l1) = solution (ns Demo.l1)
  /\ solution_owned (ns Demo.l2) = solution (ns Demo.l2)
  /\ exists k,
       gmres_solve Demo.lib (system_matrix (ns Demo.l2)) (solution (ns Demo.l1))
         (system_rhs (ns Demo.l2))
         (PreconditionYosida
            (block Demo.mesh 0 0 (system_matrix (ns Demo.l2)))
            (block Demo.mesh 1 0 (system_matrix (ns Demo.l2)))
            (block Demo.mesh 0 1 (system_matrix (ns Demo.l2)))
            (block Demo.mesh 0 0 (mass_matrix (ns Demo.l2)))
            (solution (ns Demo.l1)))
       = Converged k (solution (ns Demo.l2)).
Proof.
  split; [exact demo_second_step|].
  exact (solver_starts_from_the_previous_solution Demo.mesh Demo.pb Demo.lib
           Demo.l1 Demo.l2 demo_l1_reachable demo_second_step).
Defined.

Lemma right_hand_side_is_backward_euler_witness :
  well_numbered Demo.mesh = true
  /\ advance Demo.mesh Demo.pb Demo.lib Demo.l1 = Returned Demo.l2
  /\ ~ constrained Demo.mesh 1
  /\ system_rhs (ns Demo.l2) 1%nat
     = sum_upto (n_u Demo.mesh + n_p Demo.mesh) (fun J =>
         assemble_matrix Demo.mesh (cell_mass_matrix Demo.mesh Demo.pb) 1%nat J
         * solution (ns Demo.l1) J).
Proof.
  split; [reflexivity|]. split; [exact demo_second_step|].
  split; [exact demo_not_constrained_1|].
  apply (right_hand_side_is_backward_euler Demo.mesh Demo.pb Demo.lib
           Demo.l1 Demo.l2 1%nat).
  - reflexivity.
  - exact demo_second_step.
  - exact demo_not_constrained_1.
Defined.

(** ** The run with the clock as a double *)


Lemma demo_solve_double (k : Clock) :
  is_returned (solve_double Demo.mesh Demo.pb Demo.lib k 5 after_setup) = true ->
  solve_double Demo.mesh Demo.pb Demo.lib k 5 after_setup
  = Returned (DoubleDemo.final k).
Proof.
  intros Hret. unfold DoubleDemo.final.
  destruct (solve_double Demo.mesh Demo.pb Demo.lib k 5 after_setup);
    try discriminate. reflexivity.
Qed.


Lemma quarters_run :
  solve_double Demo.mesh Demo.pb Demo.lib DoubleDemo.quarters 5 after_setup
  = Returned (DoubleDemo.final DoubleDemo.quarters).
Proof. apply demo_solve_double. vm_compute. reflexivity. Qed.


(** With [deltat = 0.1] and [T = 0.3] the run makes three steps; the
    first does not pass the test [time > 0.1], and none passes the test
    [time == T - deltat]: the sum [0.1 + 0.1] is not the difference
    [0.3 - 0.1]. *)
Example tenths_tests :
  let trace :=
    loop_trace_double Demo.mesh Demo.pb Demo.lib DoubleDemo.tenths 5
      (DoubleDemo.l0 DoubleDemo.tenths) in
  map d_time_step trace = [1; 2; 3]%nat
  /\ map (fun l => PrimFloat.ltb Double.tenth (d_time l)) trace
     = [false; true; true]
  /\ map (fun l =>
            PrimFloat.eqb (d_time l)
              (PrimFloat.sub (T_double DoubleDemo.tenths)
                 (deltat_double DoubleDemo.tenths))) trace
     = [false; false; false].
Proof. cbv zeta. repeat split; vm_compute; reflexivity. Qed.

(** With [deltat = 0.1] and [T = 1.05] the loop makes eleven steps: ten
    additions of 0.1 stay below the double [1.05 - 0.05]. *)
Example eleven_steps :
  length (loop_trace_double Demo.mesh Demo.pb Demo.lib DoubleDemo.long 20
            (DoubleDemo.l0 DoubleDemo.long)) = 11%nat.
Proof. vm_compute. reflexivity. Qed.

(** With [deltat = 0.001] the clock of step 100, one hundred additions
    of 0.001, passes the test [time > 0.1]. *)
Example step_at_nominal_tenth :
  PrimFloat.ltb Double.tenth
    (Nat.iter 100
       (fun time => PrimFloat.add time (deltat_double DoubleDemo.thousandths))
       Double.zero) = true.
Proof. vm_compute. reflexivity. Qed.

(** ** C9 *)

(** C9, as stated, fails.  With [deltat = 0.1] and [T = 0.3] the run
    makes three steps, with drag coefficients 200000/41, -200000/41 and
    -200000/41.  The first step does not pass the test [time > 0.1] and
    its coefficient is never computed; the run completes and reports
    -999, which is neither the maximum over the steps nor one of the two
    coefficients the run computed: it is the initial value of the
    running maximum. *)
Lemma C9_counterexample :
  let run :=
    solve_double Demo.mesh Demo.pb Demo.lib DoubleDemo.tenths 5 after_setup in
  let trace :=
    loop_trace_double Demo.mesh Demo.pb Demo.lib DoubleDemo.tenths 5
      (DoubleDemo.l0 DoubleDemo.tenths) in
  is_returned run = true
  /\ summary_lines (log_of run) = [(true, qc (-999) 1); (false, 0)]
  /\ map (fun l =>
            coefficients_of Demo.mesh (with_clock Demo.pb DoubleDemo.tenths)
              (d_ns l)) trace
     = [Some (qc 200000 41, 0); Some (qc (-200000) 41, 0);
        Some (qc (-200000) 41, 0)]
  /\ reported_coefficients (log_of run)
     = [(qc (-200000) 41, 0); (qc (-200000) 41, 0)]
  /\ qc (-200000) 41 < qc (-999) 1
  /\ qc (-999) 1 < qc 200000 41.
Proof. cbv zeta. repeat split; by_computation. Qed.

(** With [deltat = 0.25] and [T = 0.75] every step passes the test and
    the summary holds the largest drag coefficient, 200000/41, and the
    smallest lift coefficient, 0. *)
Lemma C9_witness :
  let k := DoubleDemo.quarters in
  let st := DoubleDemo.final k in
  let trace :=
    loop_trace_double Demo.mesh Demo.pb Demo.lib k 5
      (initial_loop_double Demo.pb k after_setup) in
  let computed := computed_coefficients Demo.mesh Demo.pb k trace in
  let c_D := running_max (qc (-999) 1) (map fst computed) in
  let c_L := running_min (qc 999 1) (map snd computed) in
  solve_double Demo.mesh Demo.pb Demo.lib k 5 after_setup = Returned st
  /\ c_D = qc 200000 41
  /\ c_L = 0
  /\ (exists before,
        pcout st = before ++ [Separator; DragCoefficientMax c_D;
                              LiftCoefficientMin c_L; Separator]
        /\ summary_lines before = []
        /\ reported_coefficients before = computed)
  /\ summary_lines (pcout st) = [(true, c_D); (false, c_L)]
  /\ Forall (fun c => c <= c_D) (qc (-999) 1 :: map fst computed)
  /\ In c_D (qc (-999) 1 :: map fst computed)
  /\ Forall (fun c => c_L <= c) (qc 999 1 :: map snd computed)
  /\ In c_L (qc 999 1 :: map snd computed).
Proof.
  cbv zeta. split; [exact quarters_run|].
  split; [by_computation|]. split; [by_computation|].
  exact (C9_final_summary_double Demo.mesh Demo.pb Demo.lib
           DoubleDemo.quarters 5 (DoubleDemo.final DoubleDemo.quarters)
           quarters_run).
Defined.
